(** * Driver tracker of the slang analyzer: model and properties

    A shallow embedding of [source/analysis/DriverTracker.cpp].  The
    elaborated design (symbols, types, port connections, the hierarchy of
    instances) is immutable while the tracker runs, so it is read through
    the interface [Design]; the tracker's own state (the three maps and the diagnostic sink of the
    analysis context) is threaded explicitly through a small state and
    error monad.  The concurrent maps are modelled sequentially. *)

From stdpp Require Import gmap strings list fin_maps.
From Stdlib Require Import ZArith NArith.

Local Open Scope Z_scope.

(** ** Data model *)

(** A [const Symbol*]: symbols are compared and hashed by address. *)
Abbreviation Symbol := positive (only parsing).

(** The enumerations below are declared in headers of the AST and of the
    analysis library; their members are the ones DriverTracker.cpp names,
    with the further kinds and sources that section 3 of the spec lists.
    [Variable_] and [Instance_] stand for the kinds [Variable] and
    [Instance], which are reserved words here. *)
Module SymbolKind.
Inductive t :=
  | Net | Variable_ | Field | ClassProperty | Port | MultiPort
  | InterfacePort | ModportPort | ClockVar | LocalAssertionVar | Instance_
  | InstanceBody | InstanceArray | Modport | GenerateBlockArray
  | ProceduralBlock | Subroutine | Other.
End SymbolKind.

Module DriverKind.
Inductive t := Continuous | Procedural.
End DriverKind.

Module ArgumentDirection.
Inductive t := In | Out | InOut | Ref.
End ArgumentDirection.

Module VariableLifetime.
Inductive t := Automatic | Static.
End VariableLifetime.

Module NetKind.
Inductive t := Wire | UWire | UserDefined | Other.
End NetKind.

Module DriverSource.
Inductive t :=
  | Continuous | AlwaysComb | AlwaysFF | AlwaysLatch | Always
  | Initial | Final | Subroutine | Other.
End DriverSource.

#[global] Instance SymbolKind_eq_dec : EqDecision SymbolKind.t.
Proof. solve_decision. Defined.
#[global] Instance DriverKind_eq_dec : EqDecision DriverKind.t.
Proof. solve_decision. Defined.
#[global] Instance ArgumentDirection_eq_dec : EqDecision ArgumentDirection.t.
Proof. solve_decision. Defined.
#[global] Instance VariableLifetime_eq_dec : EqDecision VariableLifetime.t.
Proof. solve_decision. Defined.
#[global] Instance NetKind_eq_dec : EqDecision NetKind.t.
Proof. solve_decision. Defined.
#[global] Instance DriverSource_eq_dec : EqDecision DriverSource.t.
Proof. solve_decision. Defined.

(** Source locations are offsets; a range is a pair of them. *)
Record SourceRange := mkRange { range_start : N; range_end : N }.

Record NetType := mkNetType {
  netKind : NetKind.t;
  hasResolutionFunction : bool;   (* getResolutionFunction() != nullptr *)
  netTypeName : string
}.

Inductive Selector :=
  | SelIndex (i : Z)
  | SelRange (l r : Z)
  | SelName (n : string).

Record HierarchicalReference := mkRef {
  isViaIfacePort : bool;
  target : option Symbol;
  hasExpr : bool;                              (* ref.expr != nullptr *)
  path : list (Symbol * Selector)
}.

(** The expression kinds the tracker dispatches on; everything else is
    [OtherExpr]. *)
Inductive Expression :=
  | InvalidExpr
  | NamedValue (sym : Symbol) (sr : SourceRange)
  | HierarchicalValue (sym : Symbol) (ref : HierarchicalReference) (sr : SourceRange)
  | ElementSelect (ty : positive) (value selector : Expression) (sr : SourceRange)
  | RangeSelect (selKind : N) (ty : positive) (value l r : Expression)
                (sr : SourceRange)
  | MemberAccess (ty : positive) (value : Expression) (member : Symbol)
                 (sr : SourceRange)
  | Assignment (lhs rhs : Expression) (sr : SourceRange)
  | ArbitrarySymbol (hierRef : HierarchicalReference) (sr : SourceRange)
  | OtherExpr (sr : SourceRange).

Definition bad (e : Expression) : bool :=
  match e with InvalidExpr => true | _ => false end.

Definition sourceRange (e : Expression) : SourceRange :=
  match e with
  | InvalidExpr => mkRange 0 0
  | NamedValue _ sr | HierarchicalValue _ _ sr | ElementSelect _ _ _ sr
  | RangeSelect _ _ _ _ _ sr | MemberAccess _ _ _ sr | Assignment _ _ sr
  | ArbitrarySymbol _ sr | OtherExpr sr => sr
  end.

(** The bits of [DriverFlags].  The enumeration is declared in a header, not in
    DriverTracker.cpp; each bit is taken from the list of section 3 of the spec,
    in the order given there. *)
Module DriverFlags.
(** Modelled from the spec: [DriverFlags::None], the empty mask. *)
Definition None : N := 0%N.
(** Modelled from the spec: [DriverFlags::InputPort], first bit listed. *)
Definition InputPort : N := 1%N.
(** Modelled from the spec: [DriverFlags::OutputPort], second bit listed. *)
Definition OutputPort : N := 2%N.
(** Modelled from the spec: [DriverFlags::ClockVar], third bit listed. *)
Definition ClockVar : N := 4%N.
(** Modelled from the spec: [DriverFlags::Initializer], fourth bit listed. *)
Definition Initializer : N := 8%N.
End DriverFlags.

(** Modelled from the spec: [bitmask<T>::has], declared in a utility
    header.
    Section 3 calls [flags] a bitmask; a mask has a flag when some bit of
    the flag is set in it. *)
Definition has (f m : N) : bool := negb (N.land f m =? 0)%N.

Record ValueDriver := mkDriver {
  kind : DriverKind.t;
  prefixExpression : Expression;
  containingSymbol : Symbol;
  flags : N;
  source : DriverSource.t;
  isFromSideEffect : bool;
  procCallExpression : option Expression
}.

(** Modelled from the spec: [ValueDriver::isInputPort], declared in a
    header, not in DriverTracker.cpp; the "input port" side of the table of
    section 4.2 is the driver flagged [InputPort]. *)
Definition isInputPort (d : ValueDriver) : bool :=
  has (flags d) DriverFlags.InputPort.

(** Modelled from the spec: [ValueDriver::isUnidirectionalPort], declared
    in a header, not in DriverTracker.cpp; section 4.2 step 7 reads a
    unidirectional-port driver as one flagged [InputPort] or [OutputPort]. *)
Definition isUnidirectionalPort (d : ValueDriver) : bool :=
  has (flags d) (N.lor DriverFlags.InputPort DriverFlags.OutputPort).

(** Modelled from the spec: [ValueDriver::isClockVar], declared in a
    header, not in DriverTracker.cpp; a clockvar side of the table of
    section 4.2 is a driver flagged [ClockVar]. *)
Definition isClockVar (d : ValueDriver) : bool :=
  has (flags d) DriverFlags.ClockVar.

(** Modelled from the spec: [ValueDriver::isInSingleDriverProcedure],
    declared in a header, not in DriverTracker.cpp; the glossary names
    always_comb, always_ff and always_latch the single-driver procedures. *)
Definition isInSingleDriverProcedure (d : ValueDriver) : bool :=
  match source d with
  | DriverSource.AlwaysComb | DriverSource.AlwaysFF
  | DriverSource.AlwaysLatch => true
  | _ => false
  end.

(** Modelled from the spec: [ValueDriver::getSourceRange], declared in a
    header, not in DriverTracker.cpp; section 3 gives [procCallExpression]
    as the source range of the enclosing procedural call used in reports,
    the prefix expression being the assignment site otherwise. *)
Definition getSourceRange (d : ValueDriver) : SourceRange :=
  match procCallExpression d with
  | Some call => sourceRange call
  | None => sourceRange (prefixExpression d)
  end.

(** Closed bit interval [lo, hi]; the bounds are taken on the integers. *)
Abbreviation DriverBitRange := (Z * Z)%type (only parsing).

Abbreviation DriverList := (list (ValueDriver * (Z * Z))) (only parsing).

(** The interval map ([IntervalMap], declared in a utility header).  By
    sections 3 and 4.1 of the spec it is a container of (interval, driver)
    entries kept in storage order, with [insert], [empty] and a [find] that
    walks the stored entries overlapping a query interval in that order;
    entries are never deleted. *)
Module IntervalMap.
Abbreviation t := (list ((Z * Z) * ValueDriver)) (only parsing).
(** Modelled from the spec: [IntervalMap::empty]. *)
Definition empty (m : t) : bool :=
  match m with [] => true | _ => false end.
(** Modelled from the spec: [IntervalMap::insert]; the new entry comes last
    in storage order. *)
Definition insert (bounds : Z * Z) (d : ValueDriver) (m : t) : t :=
  m ++ [(bounds, d)].
(** Modelled from the spec: two closed intervals overlap when each starts
    no later than the other ends (section 8: [3,7] and [8,15] do not
    overlap, [3,7] and [7,10] do). *)
Definition overlaps (a b : Z * Z) : bool :=
  (a.1 <=? b.2) && (b.1 <=? a.2).
(** Modelled from the spec: [IntervalMap::find], read as the list of the
    drivers its iterator yields. *)
Definition find (bounds : Z * Z) (m : t) : list ValueDriver :=
  snd <$> filter (λ e, overlaps e.1 bounds = true) m.
End IntervalMap.

Abbreviation SymbolDriverMap := IntervalMap.t (only parsing).

(** Diagnostics, as the analysis context collects them. *)
Module diag.
Inductive DiagCode :=
  | InputPortAssign | InputPortCoercion | OutputPortCoercion
  | ClockVarTargetAssign | MultipleAlwaysAssigns | MultipleUWireDrivers
  | MultipleUDNTDrivers | MultipleContAssigns | MixedVarAssigns
  | NoteDeclarationHere | NoteDrivenHere | NoteAssignedHere
  | NoteReferencedHere | NoteFromHere2 | NoteOriginalAssign.
End diag.
Export diag.

#[global] Instance DiagCode_eq_dec : EqDecision DiagCode.
Proof. solve_decision. Defined.

Inductive DiagArg :=
  | ArgString (s : string)
  | ArgProcKind (k : DriverSource.t).

Record Note := mkNote {
  note_code : DiagCode;
  note_range : option SourceRange;     (* None: SourceLocation::NoLocation *)
  note_args : list DiagArg
}.

Record Diagnostic := mkDiag {
  diag_symbol : Symbol;
  diag_code : DiagCode;
  diag_range : SourceRange;
  diag_args : list DiagArg;
  diag_notes : list Note
}.

Record InstanceState := mkInstanceState {
  nonCanonicalInstances : list Symbol;
  ifacePortDrivers : list (HierarchicalReference * ValueDriver)
}.

(** The tracker's three maps, together with the diagnostics issued so far
    through the analysis context. *)
Record Tracker := mkTracker {
  symbolDrivers : gmap positive IntervalMap.t;
  modportPortDrivers : gmap positive (list (ValueDriver * (Z * Z)));
  instanceMap : gmap positive InstanceState;
  diagnostics : list Diagnostic
}.

Definition emptyTracker : Tracker := mkTracker ∅ ∅ ∅ [].

(** ** The elaborated design and the LSP utilities *)

(** The kinds of definition: [retargetIfacePort] names [Module] only
    ([Module_] here, the word being reserved); [Other] stands for the
    rest. *)
Module DefinitionKind.
Inductive t := Module_ | Other.
End DefinitionKind.

#[global] Instance DefinitionKind_eq_dec : EqDecision DefinitionKind.t.
Proof. solve_decision. Defined.

(** What [retargetIfacePort] reads from the hierarchy of instances; each
    lookup is a function of the elaborated design. *)
Module Hierarchy.
Class t := {
  (* base.body.findPort(name) *)
  findPort : Symbol → string → option Symbol;
  (* InterfacePortSymbol::getConnection: the symbol and the modport *)
  getConnection : Symbol → option Symbol * option Symbol;
  (* symbol.as<InstanceSymbol>().body *)
  instanceBody : Symbol → Symbol;
  (* body.getDefinition().definitionKind *)
  definitionKind : Symbol → DefinitionKind.t;
  (* symbol.as<Scope>().find(name) *)
  find : Symbol → string → option Symbol;
  isScope : Symbol → bool;
  (* InstanceArraySymbol::elements *)
  elements : Symbol → list Symbol;
  (* GenerateBlockArraySymbol::valid and ::entries *)
  valid : Symbol → bool;
  entries : Symbol → list Symbol;
  (* SemanticFacts::isAllowedInModport *)
  isAllowedInModport : SymbolKind.t → bool
}.
End Hierarchy.

(** What the tracker reads but does not own (section 6): attributes of
    symbols, the configuration flag, the expression utilities and the
    hierarchy of instances.  None of it depends on the tracker's state. *)
Class Design := {
  symKind : Symbol → SymbolKind.t;
  (* symbol.getDeclaredType()->getType().isClass() *)
  isClass : Symbol → bool;
  (* symbol.getParentScope(), as scope->asSymbol() *)
  getParentScope : Symbol → option Symbol;
  getInitializer : Symbol → option Expression;
  getSelectableWidth : Symbol → Z;
  location : Symbol → N;
  name : Symbol → string;
  (* symbol.as<NetSymbol>().netType *)
  netTypeOf : Symbol → NetType;
  lifetime : Symbol → VariableLifetime.t;
  getHierarchicalPath : Symbol → string;
  (* ports and clock vars *)
  direction : Symbol → ArgumentDirection.t;
  getInternalExpr : Symbol → option Expression;
  internalSymbol : Symbol → option Symbol;
  (* ModportPortSymbol::getConnectionExpr *)
  getConnectionExpr : Symbol → option Expression;
  (* the expression of InterfacePortSymbol::getConnectionAndExpr *)
  getConnectionAndExpr : Symbol → option Expression;
  getCanonicalBody : Symbol → option Symbol;
  (* the source a ValueDriver constructor derives from its containing symbol *)
  driverSourceOf : Symbol → DriverSource.t;
  (* context.manager->hasFlag(AnalysisFlags::AllowDupInitialDrivers) *)
  allowDupInitialDrivers : bool;
  (* LSPUtilities: the visits are given as the list of callback invocations *)
  visitLSPs : Expression → Symbol → option Expression →
              list (Symbol * Expression * bool);
  getBounds : Expression → Symbol → Symbol → option (Z * Z);
  visitComponents : Expression → list Expression;
  stringifyLSP : Expression → Symbol → string;
  (* HierarchicalReference::join *)
  join : HierarchicalReference → HierarchicalReference → HierarchicalReference;
  (* what retargetIfacePort looks up in the hierarchy *)
  hierarchy :: Hierarchy.t
}.

(** Modelled from the spec: [VariableSymbol::isKind], declared in the
    headers of the AST; section 4.2 step 6 describes the test as
    "static-lifetime variable", and among the kinds of section 3 the
    variables are these. *)
Definition VariableSymbol_isKind (k : SymbolKind.t) : bool :=
  match k with
  | SymbolKind.Variable_ | SymbolKind.Field | SymbolKind.ClassProperty
  | SymbolKind.ClockVar | SymbolKind.LocalAssertionVar => true
  | _ => false
  end.

(** ** The state and error monad *)

(** The sites at which a run stops: the assertions of the source,
    [AssertPath] for the read of the first element of an empty path in
    [noteInterfacePortDriver], and [UndefinedBehaviour] for a step of
    [retargetIfacePort] that the language leaves undefined. *)
Inductive Assertion :=
  | AssertScope | AssertNoRef | AssertCanonical | AssertViaIfacePort
  | AssertTarget | AssertExpr | AssertInstanceBody | AssertNetType
  | AssertPath | AssertSymbol | UndefinedBehaviour.

Inductive Result (A : Type) :=
  | Done (a : A)
  | Failed (site : Assertion)     (* the run stops at [site] *)
  | OutOfFuel.
Arguments Done {A} a.
Arguments Failed {A} site.
Arguments OutOfFuel {A}.

Definition M (A : Type) : Type := Tracker → Result (A * Tracker).

#[global] Instance M_ret : MRet M := λ A a st, Done (a, st).

#[global] Instance M_bind : MBind M := λ A B k m st,
  match m st with
  | Done (a, st') => k a st'
  | Failed s => Failed s
  | OutOfFuel => OutOfFuel
  end.

Definition SLANG_ASSERT (site : Assertion) (b : bool) : M unit :=
  λ st, if b then Done (tt, st) else Failed site.

Definition outOfFuel {A} : M A := λ _, OutOfFuel.

Definition failWith {A} (site : Assertion) : M A := λ _, Failed site.

(** A loop over a container, in order. *)
Fixpoint forEach {A} (l : list A) (body : A → M unit) : M unit :=
  match l with
  | [] => mret tt
  | x :: rest => body x ;; forEach rest body
  end.

Definition addDiag (d : Diagnostic) : M unit :=
  λ st, Done (tt, mkTracker (symbolDrivers st) (modportPortDrivers st)
                           (instanceMap st) (diagnostics st ++ [d])).

(** Updates of one component of the tracker. *)
Definition setEntry (st : Tracker) (k : Symbol) (m : IntervalMap.t)
    : Tracker :=
  mkTracker (<[k := m]> (symbolDrivers st)) (modportPortDrivers st)
            (instanceMap st) (diagnostics st).

Definition withModportPortDrivers (st : Tracker)
    (m : gmap positive (list (ValueDriver * (Z * Z)))) : Tracker :=
  mkTracker (symbolDrivers st) m (instanceMap st) (diagnostics st).

Definition setInstance (st : Tracker) (k : Symbol) (s : InstanceState)
    : Tracker :=
  mkTracker (symbolDrivers st) (modportPortDrivers st)
            (<[k := s]> (instanceMap st)) (diagnostics st).

(** The entry of a symbol, empty when the symbol has none. *)
Definition entryOf (st : Tracker) (k : Symbol) : IntervalMap.t :=
  default [] (symbolDrivers st !! k).

Definition setSymbolDrivers (k : Symbol) (m : IntervalMap.t) : M unit :=
  λ st, Done (tt, setEntry st k m).

Definition setModportPortDrivers
    (m : gmap positive (list (ValueDriver * (Z * Z)))) : M unit :=
  λ st, Done (tt, withModportPortDrivers st m).

Definition setInstanceState (k : Symbol) (s : InstanceState) : M unit :=
  λ st, Done (tt, setInstance st k s).

Definition get : M Tracker := λ st, Done (st, st).

(** ** Retargeting a reference to another instance

    [retargetIfacePort] walks the path of a hierarchical reference through
    another instance of the body in which the reference was written; the
    tracker calls it from [applyInstanceSideEffect]. *)

Module Retarget.

Import Hierarchy.

(** How a call of [retargetIfacePort] ends. *)
Inductive Outcome :=
  | Returns (symbol : option Symbol)   (* the pointer returned, null or not *)
  | AssertFails                        (* SLANG_ASSERT(symbol) does not hold *)
  | Undefined                          (* the language leaves it undefined *)
  | NoFuel.

(** The conversion [size_t(x)] of a signed integer, [size_t] having 64
    bits. *)
Definition size_t (x : Z) : Z := x mod 2 ^ 64.

(** [std::dynamic_extent], the largest value of [size_t]. *)
Definition dynamic_extent : Z := 2 ^ 64 - 1.

(** [std::span::subspan(offset, count)] on the span [s]: the rest of the span
    when [count] is [dynamic_extent]; undefined ([None]) when the requested
    part does not lie within the span. *)
Definition subspan (s : list Symbol) (offset count : Z)
    : option (list Symbol) :=
  if Z.of_nat (length s) <? offset then None
  else if count =? dynamic_extent then Some (drop (Z.to_nat offset) s)
  else if count <=? Z.of_nat (length s) - offset
  then Some (take (Z.to_nat count) (drop (Z.to_nat offset) s))
  else None.

Section Walk.
Context {design : Design}.

(** The loop [while (symbol && symbol->kind == SymbolKind::InterfacePort)];
    it has no bound in the source, [fuel] bounds its iterations here
    ([None]: the fuel ran out). *)
Fixpoint followConnections (fuel : nat) (symbol modport : option Symbol)
    : option (option Symbol * option Symbol) :=
  match symbol with
  | Some s =>
      if bool_decide (symKind s = SymbolKind.InterfacePort) then
        match fuel with
        | O => None
        | S fuel =>
            followConnections fuel (getConnection s).1 (getConnection s).2
        end
      else Some (symbol, modport)
  | None => Some (symbol, modport)
  end.

(** The block under [if (!instanceArrayElems)]: the scope in which the next
    element of the path is looked up.  [inl] is a return from the
    function. *)
Definition enterScope (symbol : Symbol) (modport : option Symbol)
    : Outcome + (Symbol * option Symbol * option (list Symbol)) :=
  if bool_decide (symKind symbol = SymbolKind.Instance_) then
    let body := instanceBody symbol in
    (* We should never see a module instance on this path. *)
    if bool_decide (definitionKind body = DefinitionKind.Module_)
    then inl (Returns None)
    else
      match modport with
      | Some m =>
          match find body (name m) with
          | Some found => inr (found, None, None)
          | None => inl AssertFails
          end
      | None => inr (body, None, None)
      end
  else if bool_decide (symKind symbol = SymbolKind.InstanceArray) then
    inr (symbol, modport, Some (elements symbol))
  else if negb (isScope symbol) then inl (Returns None)
  else inr (symbol, modport, None).

(** The lookup of a name in the current scope; a modport falls back on the
    scope around it.  [inl] is a return from the function. *)
Definition lookupName (symbol : Symbol) (n : string)
    : Outcome + option Symbol :=
  match find symbol n with
  | Some next => inr (Some next)
  | None =>
      if bool_decide (symKind symbol = SymbolKind.Modport) then
        match getParentScope symbol with
        | None => inl Undefined
        | Some parent =>
            match find parent n with
            | None => inl (Returns None)
            | Some next =>
                if isAllowedInModport (symKind next)
                   || bool_decide (symKind next = SymbolKind.Modport)
                then inl (Returns None)
                else inr (Some next)
            end
        end
      else inr None
  end.

(** The loop over the elements of the path from the second one on, with
    its three variables [symbol], [modport] and [instanceArrayElems]. *)
Fixpoint walk (fuel : nat) (elems : list (Symbol * Selector))
    (symbol modport : option Symbol)
    (instanceArrayElems : option (list Symbol)) : Outcome :=
  match elems with
  | [] => Returns symbol
  | elem :: rest =>
      match followConnections fuel symbol modport with
      | None => NoFuel
      | Some (None, _) => Returns None
      | Some (Some symbol, modport) =>
          match
            match instanceArrayElems with
            | None => enterScope symbol modport
            | Some _ => inr (symbol, modport, instanceArrayElems)
            end
          with
          | inl stop => stop
          | inr (symbol, modport, instanceArrayElems) =>
              match elem.2 with
              | SelIndex index =>
                  (* We're doing an element select here. *)
                  match instanceArrayElems with
                  | Some selected =>
                      if (index <? 0)
                         || (Z.of_nat (length selected) <=? size_t index)
                      then Returns None
                      else
                        (* the element at [size_t(index)] of the span: a
                           read outside the span is undefined *)
                        match selected !! Z.to_nat (size_t index) with
                        | Some element =>
                            walk fuel rest (Some element) modport None
                        | None => Undefined
                        end
                  | None =>
                      if bool_decide
                           (symKind symbol = SymbolKind.GenerateBlockArray)
                      then
                        if negb (valid symbol) || (index <? 0)
                           || (Z.of_nat (length (entries symbol))
                               <=? size_t index)
                        then Returns None
                        else
                          (* the entry at [size_t(index)]: a read outside
                             the entries is undefined *)
                          match entries symbol !! Z.to_nat (size_t index) with
                          | Some entry =>
                              walk fuel rest (Some entry) modport None
                          | None => Undefined
                          end
                      else Returns None
                  end
              | SelRange first second =>
                  (* We're doing a range select here. *)
                  match instanceArrayElems with
                  | None => Returns None
                  | Some selected =>
                      let size := Z.of_nat (length selected) in
                      if (first <? 0) || (size <=? size_t second)
                      then Returns None
                      else if (size <=? size_t first)
                              || (size <=? size_t second)
                      then Returns None
                      else
                        match subspan selected (size_t first)
                                (size_t (size_t (second - first) + 1)) with
                        | Some narrowed =>
                            (* [continue]: the selected elements are kept *)
                            walk fuel rest (Some symbol) modport
                                 (Some narrowed)
                        | None => Undefined
                        end
                  end
              | SelName n =>
                  match lookupName symbol n with
                  | inl stop => stop
                  | inr next => walk fuel rest next modport None
                  end
              end
          end
      end
  end.

(** [retargetIfacePort(ref, base)].  Reading [path[0]] of an empty path is
    undefined. *)
Definition retargetIfacePort (fuel : nat) (ref : HierarchicalReference)
    (base : Symbol) : Outcome :=
  if negb (isViaIfacePort ref) || negb (bool_decide (is_Some (target ref)))
  then Returns None
  else
    match path ref with
    | [] => Undefined
    | first :: rest =>
        match findPort base (name first.1) with
        | None => Returns None
        | Some port => walk fuel rest (Some port) None None
        end
    end.

End Walk.

(** The selectors of a path are [int32_t] values. *)
Definition int32 (x : Z) : Prop := - 2 ^ 31 ≤ x < 2 ^ 31.

(** A selector whose range, if it is one, has its bounds in order. *)
Definition orderedSelector (sel : Selector) : Prop :=
  match sel with
  | SelIndex i => int32 i
  | SelRange l r => int32 l ∧ int32 r ∧ l ≤ r
  | SelName _ => True
  end.

(** What the walk reads of a reference: whether it goes through an
    interface port and has a target, the name of the first symbol of its
    path, and the selectors of the later elements. *)
Definition shape {design : Design} (ref : HierarchicalReference)
    : bool * bool * option string * list Selector :=
  (isViaIfacePort ref, bool_decide (is_Some (target ref)),
   (λ e, name e.1) <$> head (path ref), snd <$> tail (path ref)).

End Retarget.

(** ** The tracker *)

Section Tracker.
Context {design : Design}.

Definition getLSPName (symbol : Symbol) (driver : ValueDriver) : string :=
  stringifyLSP (prefixExpression driver) symbol.

(** The lambda [addAssignedHereNote] of [handleOverlap]; it reads the two
    ranges as they are when it is called. *)
Definition addAssignedHereNote (currRange driverRange : SourceRange)
    (curr driver : ValueDriver) : Note :=
  if negb (range_start currRange =? range_start driverRange)%N
  then mkNote NoteAssignedHere (Some currRange) []
  else mkNote NoteFromHere2 None
         [ArgString (getHierarchicalPath (containingSymbol driver));
          ArgString (getHierarchicalPath (containingSymbol curr))].

(** [handleOverlap].  A diagnostic is added to the sink once it is
    complete, so the assertion on the net type of the last case comes
    before it here. *)
Definition handleOverlap (symbol : Symbol) (curr driver : ValueDriver)
    (isNet isUWire isSingleDriverUDNT : bool) (netType : option NetType)
    : M bool :=
  let currRange := getSourceRange curr in
  let driverRange := getSourceRange driver in
  let isUnidirectionNetPort :=
    isNet && (isUnidirectionalPort curr || isUnidirectionalPort driver) in
  if (isUnidirectionNetPort && negb isUWire && negb isSingleDriverUDNT)
     || (negb isNet && (isInputPort curr || isInputPort driver))
  then
    let code :=
      if isNet
      then if has (flags curr) DriverFlags.InputPort
           then InputPortCoercion else OutputPortCoercion
      else InputPortAssign in
    let '(portRange, assignRange) :=
      if isInputPort driver || has (flags curr) DriverFlags.OutputPort
      then (driverRange, currRange) else (currRange, driverRange) in
    let note := if bool_decide (code = OutputPortCoercion)
                then NoteDrivenHere else NoteDeclarationHere in
    addDiag (mkDiag symbol code assignRange [ArgString (name symbol)]
                    [mkNote note (Some portRange) []]);;
    (* For variable ports this is an error, for nets it's a warning. *)
    mret isNet
  else if isClockVar curr || isClockVar driver then
    if isClockVar curr && isClockVar driver then mret true
    else if bool_decide (kind curr = DriverKind.Procedural)
            || bool_decide (kind driver = DriverKind.Procedural)
    then mret true
    else
      let '(driverRange, currRange) :=
        if isClockVar driver then (currRange, driverRange)
        else (driverRange, currRange) in
      addDiag (mkDiag symbol ClockVarTargetAssign driverRange
                      [ArgString (name symbol)]
                      [mkNote NoteReferencedHere (Some currRange) []]);;
      mret false
  else if bool_decide (kind curr = DriverKind.Procedural)
          && bool_decide (kind driver = DriverKind.Procedural) then
    let '(procKind, driverRange, currRange, sourceForName) :=
      if isInSingleDriverProcedure driver
      then (source driver, driverRange, currRange, driver)
      else (source curr, currRange, driverRange, curr) in
    let extra :=
      match procCallExpression driver, procCallExpression curr with
      | Some _, _ =>
          [mkNote NoteOriginalAssign
                  (Some (sourceRange (prefixExpression driver))) []]
      | None, Some _ =>
          [mkNote NoteOriginalAssign
                  (Some (sourceRange (prefixExpression curr))) []]
      | None, None => []
      end in
    addDiag (mkDiag symbol MultipleAlwaysAssigns driverRange
                    [ArgString (getLSPName symbol sourceForName);
                     ArgProcKind procKind]
                    (addAssignedHereNote currRange driverRange curr driver
                       :: extra));;
    mret false
  else
    let code :=
      if isUWire then MultipleUWireDrivers
      else if isSingleDriverUDNT then MultipleUDNTDrivers
      else if bool_decide (kind driver = DriverKind.Continuous)
              && bool_decide (kind curr = DriverKind.Continuous)
      then MultipleContAssigns
      else MixedVarAssigns in
    SLANG_ASSERT AssertNetType
      (negb isSingleDriverUDNT || bool_decide (is_Some netType));;
    addDiag (mkDiag symbol code driverRange
                    (ArgString (getLSPName symbol driver)
                       :: match netType with
                          | Some nt =>
                              if isSingleDriverUDNT
                              then [ArgString (netTypeName nt)] else []
                          | None => []
                          end)
                    [addAssignedHereNote currRange driverRange curr driver]);;
    mret false.

(** The pre-scan of [addDriver] for a reference through an interface port:
    the visitor keeps the last matching component. *)
Definition ifacePortRefOf (driver : ValueDriver)
    : option HierarchicalReference :=
  if isFromSideEffect driver then None
  else
    foldl (λ result expr,
             match expr with
             | HierarchicalValue _ ref _ =>
                 if isViaIfacePort ref then Some ref else result
             | _ => result
             end)
          None (visitComponents (prefixExpression driver)).

(** The lambda [shouldIgnore] of [addDriver]. *)
Definition shouldIgnore (vd : ValueDriver) : bool :=
  bool_decide (source vd = DriverSource.Subroutine)
  || has (flags vd) DriverFlags.Initializer
  || (bool_decide (source vd = DriverSource.Initial)
      && allowDupInitialDrivers).

Definition isProblem (checkOverlap : bool) (curr driver : ValueDriver)
    : bool :=
  if negb (eqb (isUnidirectionalPort curr) (isUnidirectionalPort driver))
  then true
  else if checkOverlap then
    if bool_decide (kind driver = DriverKind.Continuous)
       || bool_decide (kind curr = DriverKind.Continuous)
    then true
    else if bool_decide (containingSymbol curr ≠ containingSymbol driver)
            && negb (shouldIgnore curr) && negb (shouldIgnore driver)
            && (isInSingleDriverProcedure curr
                || isInSingleDriverProcedure driver)
    then true
    else false
  else false.

(** The loop of [addDriver] over the stored entries that overlap the new
    bounds; a [false] from [handleOverlap] breaks out of it. *)
Fixpoint overlapLoop (symbol : Symbol) (driver : ValueDriver)
    (checkOverlap isNet isUWire isSingleDriverUDNT : bool)
    (netType : option NetType) (entries : list ValueDriver) : M unit :=
  match entries with
  | [] => mret tt
  | curr :: rest =>
      if isProblem checkOverlap curr driver then
        warning ← handleOverlap symbol curr driver isNet isUWire
                                isSingleDriverUDNT netType;
        if warning : bool
        then overlapLoop symbol driver checkOverlap isNet isUWire
                         isSingleDriverUDNT netType rest
        else mret tt
      else overlapLoop symbol driver checkOverlap isNet isUWire
                       isSingleDriverUDNT netType rest
  end.

(** The lambda [addInitializer] of [addDriver]. *)
Definition addInitializer (symbol scope : Symbol) (driverKind : DriverKind.t)
    (driverMap : IntervalMap.t) : IntervalMap.t :=
  let valExpr :=
    NamedValue symbol
      (mkRange (location symbol)
               (location symbol + N.of_nat (String.length (name symbol)))) in
  let initBounds := (0, getSelectableWidth symbol - 1) in
  let initDriver :=
    mkDriver driverKind valExpr scope DriverFlags.Initializer
             (driverSourceOf scope) false None in
  IntervalMap.insert initBounds initDriver driverMap.

(** The switch on the symbol kind that [addDriver] runs on an empty map. *)
Definition synthesizeInitializer (symbol scope : Symbol)
    (driverMap : IntervalMap.t) : IntervalMap.t :=
  match symKind symbol with
  | SymbolKind.Net =>
      match getInitializer symbol with
      | Some _ => addInitializer symbol scope DriverKind.Continuous driverMap
      | None => driverMap
      end
  | SymbolKind.Variable_ | SymbolKind.ClassProperty | SymbolKind.Field =>
      match getInitializer symbol with
      | Some _ => addInitializer symbol scope DriverKind.Procedural driverMap
      | None => driverMap
      end
  | _ => driverMap
  end.

Definition recordModportPortDriver (symbol : Symbol) (driver : ValueDriver)
    (bounds : Z * Z) : M unit :=
  st ← get;
  setModportPortDrivers
    (<[symbol := default [] (modportPortDrivers st !! symbol)
                 ++ [(driver, bounds)]]> (modportPortDrivers st)).

(** The second half of [addDriver]: the overlap flags of the symbol and the
    scan of the stored entries that overlap the new bounds. *)
Definition checkOverlaps (symbol : Symbol) (driverMap : IntervalMap.t)
    (driver : ValueDriver) (bounds : Z * Z) : M unit :=
  let isNet := bool_decide (symKind symbol = SymbolKind.Net) in
  let netType := if isNet then Some (netTypeOf symbol) else None in
  let isUWire :=
    isNet && bool_decide (netKind (netTypeOf symbol) = NetKind.UWire) in
  let isSingleDriverUDNT :=
    isNet && bool_decide (netKind (netTypeOf symbol) = NetKind.UserDefined)
    && negb (hasResolutionFunction (netTypeOf symbol)) in
  let checkOverlap :=
    (VariableSymbol_isKind (symKind symbol)
     && bool_decide (lifetime symbol = VariableLifetime.Static))
    || isUWire || isSingleDriverUDNT
    || bool_decide (symKind symbol = SymbolKind.LocalAssertionVar) in
  overlapLoop symbol driver checkOverlap isNet isUWire isSingleDriverUDNT
              netType (IntervalMap.find bounds driverMap).

(** [DriverTracker::addDriver].  [driverMap] is the entry of [symbol] in
    [symbolDrivers], passed by reference in the source: the updated entry is
    returned next to the hierarchical reference. *)
Definition addDriver (symbol : Symbol) (driverMap : IntervalMap.t)
    (driver : ValueDriver) (bounds : Z * Z)
    : M (option HierarchicalReference * IntervalMap.t) :=
  (* Class types don't have drivers, so we can skip this. *)
  if isClass symbol then mret (None, driverMap)
  else
    match getParentScope symbol with
    | None => failWith AssertScope
    | Some scope =>
        let result := ifacePortRefOf driver in
        if bool_decide (symKind symbol = SymbolKind.ModportPort) then
          recordModportPortDriver symbol driver bounds;;
          mret (result, driverMap)
        else
          let wasEmpty := IntervalMap.empty driverMap in
          let driverMap :=
            if wasEmpty then synthesizeInitializer symbol scope driverMap
            else driverMap in
          if wasEmpty && IntervalMap.empty driverMap then
            mret (result, IntervalMap.insert bounds driver driverMap)
          else
            checkOverlaps symbol driverMap driver bounds;;
            mret (result, IntervalMap.insert bounds driver driverMap)
    end.

(** [symbolDrivers.try_emplace_and_visit(key, f, f)]: the entry of [key] is
    created empty when absent, then visited.  The visitor works on the entry
    alone; it never reaches [symbolDrivers] itself. *)
Definition try_emplace_and_visit {A} (key : Symbol)
    (f : IntervalMap.t → M (A * IntervalMap.t)) : M A :=
  st ← get;
  r ← f (entryOf st key);
  setSymbolDrivers key r.2;;
  mret r.1.

(** A loop that collects the values its body produces. *)
Fixpoint collect {A B} (l : list A) (body : A → M (list B)) : M (list B) :=
  match l with
  | [] => mret []
  | x :: rest =>
      here ← body x;
      later ← collect rest body;
      mret (here ++ later)
  end.

Definition cloneForInstance (d : ValueDriver) (instance : Symbol)
    : ValueDriver :=
  mkDriver (kind d) (prefixExpression d) instance (flags d) (source d) true
           (procCallExpression d).

(** [DriverTracker::applyInstanceSideEffect].  The call of
    [retargetIfacePort] is part of the run: it may stop at its assertion or
    at an undefined step, and [fuel] bounds its connection loop. *)
Definition applyInstanceSideEffect (fuel : nat)
    (ifacePortDriver : HierarchicalReference * ValueDriver)
    (instance : Symbol) : M unit :=
  let ref := ifacePortDriver.1 in
  match Retarget.retargetIfacePort fuel ref instance with
  | Retarget.Returns (Some target) =>
      let driver := cloneForInstance ifacePortDriver.2 instance in
      match getBounds (prefixExpression driver) instance target with
      | None => mret tt
      | Some bounds =>
          try_emplace_and_visit target (λ driverMap,
            r ← addDriver target driverMap driver bounds;
            SLANG_ASSERT AssertNoRef (bool_decide (r.1 = None));;
            mret (tt, r.2))
      end
  | Retarget.Returns None => mret tt
  | Retarget.AssertFails => failWith AssertSymbol
  | Retarget.Undefined => failWith UndefinedBehaviour
  | Retarget.NoFuel => outOfFuel
  end.

(** [DriverTracker::noteInterfacePortDriver].  The recursion through chained
    interface ports has no bound in the source; [fuel] bounds its depth
    here, and the calls of [applyInstanceSideEffect] get the fuel of the
    call they are made in.  Reading [path[0]] of an empty path is undefined
    in the source and stops the model. *)
Fixpoint noteInterfacePortDriver (fuel : nat) (ref : HierarchicalReference)
    (driver : ValueDriver) : M unit :=
  match fuel with
  | O => outOfFuel
  | S fuel' =>
      SLANG_ASSERT AssertViaIfacePort (isViaIfacePort ref);;
      SLANG_ASSERT AssertTarget (bool_decide (is_Some (target ref)));;
      SLANG_ASSERT AssertExpr (hasExpr ref);;
      match path ref with
      | [] => failWith AssertPath
      | (port, _) :: _ =>
          match getParentScope port with
          | None => failWith AssertScope
          | Some symbol =>
              SLANG_ASSERT AssertInstanceBody
                (bool_decide (symKind symbol = SymbolKind.InstanceBody));;
              st ← get;
              let state := default (mkInstanceState [] [])
                                   (instanceMap st !! symbol) in
              setInstanceState symbol
                (mkInstanceState (nonCanonicalInstances state)
                                 (ifacePortDrivers state ++ [(ref, driver)]));;
              forEach (nonCanonicalInstances state)
                      (applyInstanceSideEffect fuel (ref, driver));;
              (* If this driver's target is through another interface port
                 we should recursively follow it to the parent connection. *)
              match getConnectionAndExpr port with
              | Some (ArbitrarySymbol connRef _) =>
                  if isViaIfacePort connRef
                  then noteInterfacePortDriver fuel' (join connRef ref) driver
                  else mret tt
              | _ => mret tt
              end
          end
      end
  end.

Definition noteAll (fuel : nat)
    (ifacePortRefs : list (HierarchicalReference * ValueDriver)) : M unit :=
  forEach ifacePortRefs (λ rd, noteInterfacePortDriver fuel rd.1 rd.2).

(** The constructor [ValueDriver(kind, lsp, containingSymbol, flags)]. *)
Definition newValueDriver (driverKind : DriverKind.t) (lsp : Expression)
    (containingSymbol : Symbol) (driverFlags : N) : ValueDriver :=
  mkDriver driverKind lsp containingSymbol driverFlags
           (driverSourceOf containingSymbol) false None.

(** [DriverTracker::addDrivers]. *)
Definition addDrivers (fuel : nat) (expr : Expression)
    (driverKind : DriverKind.t) (driverFlags : N) (containingSymbol : Symbol)
    (initialLSP : option Expression) : M unit :=
  ifacePortRefs ←
    collect (visitLSPs expr containingSymbol initialLSP)
      (λ '(symbol, lsp, isLValue),
         (* If this is not an lvalue, we don't care about it. *)
         if negb isLValue then mret []
         else
           match getBounds lsp containingSymbol symbol with
           | None => mret []
           | Some bounds =>
               let driver :=
                 newValueDriver driverKind lsp containingSymbol driverFlags in
               try_emplace_and_visit symbol (λ driverMap,
                 r ← addDriver symbol driverMap driver bounds;
                 mret (match r.1 with
                       | Some ref => [(ref, driver)]
                       | None => []
                       end, r.2))
           end);
  noteAll fuel ifacePortRefs.

(** The visitor of [add(procedure)]: every driver of one symbol, in order. *)
Fixpoint addDriverList (symbol : Symbol)
    (drivers : list (ValueDriver * (Z * Z))) (driverMap : IntervalMap.t)
    : M (list (HierarchicalReference * ValueDriver) * IntervalMap.t) :=
  match drivers with
  | [] => mret ([], driverMap)
  | (driver, bounds) :: rest =>
      r ← addDriver symbol driverMap driver bounds;
      more ← addDriverList symbol rest r.2;
      mret (match r.1 with
            | Some ref => (ref, driver) :: more.1
            | None => more.1
            end, more.2)
  end.

(** [DriverTracker::add(context, driverAlloc, procedure)], on the list
    [procedure.getDrivers()]. *)
Definition add_procedure (fuel : nat)
    (procedureDrivers : list (Symbol * list (ValueDriver * (Z * Z))))
    : M unit :=
  ifacePortRefs ←
    collect procedureDrivers
      (λ '(valueSym, drivers),
         try_emplace_and_visit valueSym (addDriverList valueSym drivers));
  noteAll fuel ifacePortRefs.

Record PortConnection := mkPortConnection {
  port : Symbol;
  getExpression : option Expression
}.

(** [DriverTracker::add(context, driverAlloc, connection, containingSymbol)]. *)
Definition add_portConnection (fuel : nat) (connection : PortConnection)
    (containingSymbol : Symbol) : M unit :=
  match getExpression connection with
  | None => mret tt
  | Some expr =>
      if bad expr
         || bool_decide (symKind (port connection) = SymbolKind.InterfacePort)
      then mret tt
      else
        let direction := direction (port connection) in
        (* Input ports are not drivers. *)
        if bool_decide (direction = ArgumentDirection.In) then mret tt
        else
          let flags :=
            if bool_decide (direction = ArgumentDirection.Out)
            then DriverFlags.OutputPort else DriverFlags.None in
          let expr :=
            match expr with
            | Assignment lhs _ _ => lhs
            | _ => expr
            end in
          addDrivers fuel expr DriverKind.Continuous flags containingSymbol
                     None
  end.

(** The flags [add(portSymbol)] gives its drivers. *)
Definition portSymbolFlags (dir : ArgumentDirection.t) : N :=
  if bool_decide (dir = ArgumentDirection.In)
  then DriverFlags.InputPort else DriverFlags.None.

(** The named-value reference [add(portSymbol)] builds for an internal
    symbol. *)
Definition internalSymbolReference (is_ : Symbol) : Expression :=
  NamedValue is_
    (mkRange (location is_)
             (location is_ + N.of_nat (String.length (name is_)))).

(** [DriverTracker::add(context, driverAlloc, portSymbol)]. *)
Definition add_portSymbol (fuel : nat) (symbol : Symbol) : M unit :=
  let dir := direction symbol in
  if bool_decide (dir ≠ ArgumentDirection.In)
     && bool_decide (dir ≠ ArgumentDirection.InOut)
  then mret tt
  else
    let flags := portSymbolFlags dir in
    match getParentScope symbol with
    | None => failWith AssertScope
    | Some scope =>
        match getInternalExpr symbol with
        | Some expr =>
            addDrivers fuel expr DriverKind.Continuous flags scope None
        | None =>
            match internalSymbol symbol with
            | Some is_ =>
                addDrivers fuel (internalSymbolReference is_)
                           DriverKind.Continuous flags scope None
            | None => mret tt
            end
        end
    end.

(** [DriverTracker::add(context, driverAlloc, clockVarSymbol)]. *)
Definition add_clockVar (fuel : nat) (symbol : Symbol) : M unit :=
  (* Input clock vars don't have drivers. *)
  if bool_decide (direction symbol = ArgumentDirection.In) then mret tt
  else
    match getParentScope symbol with
    | None => failWith AssertScope
    | Some scope =>
        match getInitializer symbol with
        | Some expr =>
            addDrivers fuel expr DriverKind.Continuous DriverFlags.ClockVar
                       scope None
        | None => mret tt
        end
    end.

(** [DriverTracker::add(context, driverAlloc, expr, containingSymbol)]. *)
Definition add_expression (fuel : nat) (expr : Expression)
    (containingSymbol : Symbol) : M unit :=
  addDrivers fuel expr DriverKind.Continuous DriverFlags.None
             containingSymbol None.

(** The visitor of [add(symbolDriverList)]. *)
Fixpoint addDriverListNoRef (symbol : Symbol)
    (drivers : list (ValueDriver * (Z * Z))) (driverMap : IntervalMap.t)
    : M (unit * IntervalMap.t) :=
  match drivers with
  | [] => mret (tt, driverMap)
  | (driver, bounds) :: rest =>
      r ← addDriver symbol driverMap driver bounds;
      SLANG_ASSERT AssertNoRef (bool_decide (r.1 = None));;
      addDriverListNoRef symbol rest r.2
  end.

(** [DriverTracker::add(context, driverAlloc, symbolDriverList)]. *)
Definition add_symbolDriverList
    (symbolDriverList : list (Symbol * list (ValueDriver * (Z * Z))))
    : M unit :=
  forEach symbolDriverList
    (λ '(valueSym, drivers),
       try_emplace_and_visit valueSym (addDriverListNoRef valueSym drivers)).

(** [DriverTracker::noteNonCanonicalInstance]. *)
Definition noteNonCanonicalInstance (fuel : nat) (instance : Symbol)
    : M unit :=
  match getCanonicalBody instance with
  | None => failWith AssertCanonical
  | Some canonical =>
      st ← get;
      let state := default (mkInstanceState [] [])
                           (instanceMap st !! canonical) in
      setInstanceState canonical
        (mkInstanceState (nonCanonicalInstances state ++ [instance])
                         (ifacePortDrivers state));;
      forEach (ifacePortDrivers state)
              (λ ifacePortDriver,
                 applyInstanceSideEffect fuel ifacePortDriver instance)
  end.

(** The outer select of a prefix expression glued onto the connection
    expression (the switch of [propagateModportDriver]). *)
Definition glueOuterSelect (connectionExpr prefix : Expression)
    : option Expression :=
  match prefix with
  | ElementSelect ty _ selector sr =>
      Some (ElementSelect ty connectionExpr selector sr)
  | RangeSelect selKind ty _ l r sr =>
      Some (RangeSelect selKind ty connectionExpr l r sr)
  | MemberAccess ty _ member sr =>
      Some (MemberAccess ty connectionExpr member sr)
  | _ => None
  end.

(** [DriverTracker::propagateModportDriver]. *)
Definition propagateModportDriver (fuel : nat) (connectionExpr : Expression)
    (originalDriver : ValueDriver) : M unit :=
  let initialLSP :=
    glueOuterSelect connectionExpr (prefixExpression originalDriver) in
  addDrivers fuel connectionExpr (kind originalDriver) (flags originalDriver)
             (containingSymbol originalDriver) initialLSP.

(** One pass of [propagateModportDrivers] over the swapped-out map
    ([cvisit_all]). *)
Definition propagatePass (fuel : nat)
    (localCopy : gmap positive (list (ValueDriver * (Z * Z)))) : M unit :=
  forEach (map_to_list localCopy)
    (λ item,
       match getConnectionExpr item.1 with
       | Some expr =>
           forEach item.2
                   (λ entry, propagateModportDriver fuel expr entry.1)
       | None => mret tt
       end).

(** [DriverTracker::propagateModportDrivers].  The [while (true)] of the
    source has no bound; [fuel] counts its iterations, and the calls below
    it get what is left. *)
Fixpoint propagateModportDrivers (fuel : nat) : M unit :=
  match fuel with
  | O => outOfFuel
  | S fuel =>
      st ← get;
      let localCopy := modportPortDrivers st in
      setModportPortDrivers ∅;;
      if bool_decide (localCopy = ∅) then mret tt
      else
        propagatePass fuel localCopy;;
        propagateModportDrivers fuel
  end.

(** [DriverTracker::getDrivers]. *)
Definition getDrivers (st : Tracker) (symbol : Symbol)
    : list (ValueDriver * (Z * Z)) :=
  match symbolDrivers st !! symbol with
  | Some driverMap => (λ entry, (entry.2, entry.1)) <$> driverMap
  | None => []
  end.

End Tracker.

(** ** Operations and reachable states *)

Section Operations.
Context {design : Design}.

(** The public entry points that change the tracker. *)
Inductive Operation :=
  | AddProcedure (drivers : list (Symbol * list (ValueDriver * (Z * Z))))
  | AddPortConnection (connection : PortConnection) (containingSymbol : Symbol)
  | AddPortSymbol (symbol : Symbol)
  | AddClockVar (symbol : Symbol)
  | AddExpression (expr : Expression) (containingSymbol : Symbol)
  | AddSymbolDriverList
      (drivers : list (Symbol * list (ValueDriver * (Z * Z))))
  | NoteNonCanonicalInstance (instance : Symbol)
  | PropagateModportDrivers.

Definition runOperation (fuel : nat) (op : Operation) : M unit :=
  match op with
  | AddProcedure drivers => add_procedure fuel drivers
  | AddPortConnection connection containingSymbol =>
      add_portConnection fuel connection containingSymbol
  | AddPortSymbol symbol => add_portSymbol fuel symbol
  | AddClockVar symbol => add_clockVar fuel symbol
  | AddExpression expr containingSymbol =>
      add_expression fuel expr containingSymbol
  | AddSymbolDriverList drivers => add_symbolDriverList drivers
  | NoteNonCanonicalInstance instance =>
      noteNonCanonicalInstance fuel instance
  | PropagateModportDrivers => propagateModportDrivers fuel
  end.

(** The states a tracker can be in: it starts empty and changes only
    through operations that return. *)
Inductive reachable : Tracker → Prop :=
  | reachable_empty : reachable emptyTracker
  | reachable_step st fuel op st' :
      reachable st →
      runOperation fuel op st = Done (tt, st') →
      reachable st'.

End Operations.

(** Triples over the monad: from a state in [P], a run that returns ends in
    [Q], a run that stops at an assertion stops at one in [F], and the run
    may exhaust its fuel only if [O]. *)
Definition triple {A} (F : Assertion → Prop) (O : Prop)
    (P : Tracker → Prop) (m : M A) (Q : A → Tracker → Prop) : Prop :=
  ∀ st, P st →
    match m st with
    | Done (a, st') => Q a st'
    | Failed site => F site
    | OutOfFuel => O
    end.

(** Partial correctness. *)
Abbreviation hoare := (triple (λ _, True) True).

(** [m] terminates from [st]: it returns or stops at an assertion. *)
Definition terminates {A} (m : M A) (st : Tracker) : Prop :=
  m st ≠ OutOfFuel.

(** The diagnostic codes issued by a run that returned. *)
Definition reported {A} (r : Result (A * Tracker)) : list DiagCode :=
  match r with
  | Done (_, st) => diag_code <$> diagnostics st
  | _ => []
  end.

(** A hierarchy without ports and without scopes, for the designs in which
    no reference goes through an interface port of another instance. *)
Definition flat : Hierarchy.t := {|
  Hierarchy.findPort := λ _ _, None;
  Hierarchy.getConnection := λ _, (None, None);
  Hierarchy.instanceBody := λ s, s;
  Hierarchy.definitionKind := λ _, DefinitionKind.Other;
  Hierarchy.find := λ _ _, None;
  Hierarchy.isScope := λ _, false;
  Hierarchy.elements := λ _, [];
  Hierarchy.valid := λ _, false;
  Hierarchy.entries := λ _, [];
  Hierarchy.isAllowedInModport := λ _, false
|}.

(** ** A small design for the examples

    One instance body (symbol 1) holding: a net [n] declared
    [wire [3:0] n = 4'b0] (2); the net [a] of an input port (3) and its port
    symbol (8); a class handle [c] with an initializer (4); a static
    variable [x] (5); a modport port [y] (6) connected to the static
    variable [v] (7); and the procedures 9 and 10. *)
Module Demo.

Definition body : Symbol := 1%positive.
Definition n : Symbol := 2%positive.
Definition a : Symbol := 3%positive.
Definition c : Symbol := 4%positive.
Definition x : Symbol := 5%positive.
Definition y : Symbol := 6%positive.
Definition v : Symbol := 7%positive.
Definition portA : Symbol := 8%positive.
Definition assign1 : Symbol := 9%positive.
Definition assign2 : Symbol := 10%positive.

Definition kindOf (s : Symbol) : SymbolKind.t :=
  match s with
  | 1 => SymbolKind.InstanceBody
  | 2 | 3 => SymbolKind.Net
  | 4 | 5 | 7 => SymbolKind.Variable_
  | 6 => SymbolKind.ModportPort
  | 8 => SymbolKind.Port
  | _ => SymbolKind.Other
  end%positive.

Definition nameOf (s : Symbol) : string :=
  match s with
  | 1 => "top" | 2 => "n" | 3 | 8 => "a" | 4 => "c" | 5 => "x"
  | 6 => "y" | 7 => "v" | _ => "assign"
  end%positive.

Definition widthOf (s : Symbol) : Z :=
  match s with
  | 2 => 4%Z | 7 => 8%Z | _ => 1%Z
  end%positive.

Definition literal : Expression := OtherExpr (mkRange 0 0).

Definition initializerOf (s : Symbol) : option Expression :=
  match s with
  | 2 | 4 => Some literal
  | _ => None
  end%positive.

Definition nameRange (s : Symbol) (at_ : N) : SourceRange :=
  mkRange at_ (at_ + N.of_nat (String.length (nameOf s))).

(** The root symbol of a left-hand side. *)
Fixpoint root (e : Expression) : option Symbol :=
  match e with
  | NamedValue s _ | HierarchicalValue s _ _ => Some s
  | ElementSelect _ value _ _ | RangeSelect _ _ value _ _ _
  | MemberAccess _ value _ _ => root value
  | _ => None
  end.

Fixpoint components (e : Expression) : list Expression :=
  match e with
  | ElementSelect _ value _ _ | RangeSelect _ _ value _ _ _
  | MemberAccess _ value _ _ => e :: components value
  | _ => [e]
  end.

#[global] Instance design : Design := {|
  symKind := kindOf;
  isClass := λ s, bool_decide (s = c);
  getParentScope := λ s, if bool_decide (s = body) then None else Some body;
  getInitializer := initializerOf;
  getSelectableWidth := widthOf;
  location := λ s, (Npos s * 10)%N;
  name := nameOf;
  netTypeOf := λ _, mkNetType NetKind.Wire false "wire";
  lifetime := λ _, VariableLifetime.Static;
  getHierarchicalPath := λ s, "top." +:+ nameOf s;
  direction := λ s, if bool_decide (s = portA)
                    then ArgumentDirection.In else ArgumentDirection.Out;
  getInternalExpr := λ _, None;
  internalSymbol := λ s, if bool_decide (s = portA) then Some a else None;
  getConnectionExpr := λ s, if bool_decide (s = y)
                            then Some (NamedValue v (nameRange v 70))
                            else None;
  getConnectionAndExpr := λ _, None;
  getCanonicalBody := λ _, Some body;
  driverSourceOf := λ _, DriverSource.Other;
  allowDupInitialDrivers := false;
  visitLSPs := λ e _ initialLSP,
    match root e with
    | Some s => [(s, default e initialLSP, true)]
    | None => []
    end;
  getBounds := λ _ _ s, Some (0, widthOf s - 1);
  visitComponents := components;
  stringifyLSP := λ e _, match root e with Some s => nameOf s | None => "" end;
  join := λ _ other, other;
  hierarchy := flat
|}.

(** [assign n = 4'b1;] and friends: a whole-symbol continuous driver. *)
Definition driverOf (s : Symbol) (at_ : N) (k : DriverKind.t)
    (containing : Symbol) (fl : N) : ValueDriver :=
  mkDriver k (NamedValue s (nameRange s at_)) containing fl
           DriverSource.Other false None.

End Demo.

(** ** A design with a shared interface instance

    The module body 1 has the interface port [p] (3) and the [always_comb]
    procedure 4, which assigns [p.x].  The body is canonical for the
    instance [m1]; the instance [m2] (5) shares it, and both are connected
    to the same interface instance: the port [p] of [m2] is symbol 6, the
    interface instance is symbol 7, and its body 8 holds the variable [x]
    (2). *)
Module Shared.

Definition body : Symbol := 1%positive.
Definition x : Symbol := 2%positive.
Definition p : Symbol := 3%positive.
Definition proc : Symbol := 4%positive.
Definition m2 : Symbol := 5%positive.
Definition p2 : Symbol := 6%positive.
Definition iface : Symbol := 7%positive.
Definition ifaceBody : Symbol := 8%positive.

Definition kindOf (s : Symbol) : SymbolKind.t :=
match s with
| 1 | 8 => SymbolKind.InstanceBody
| 2 => SymbolKind.Variable_
| 3 | 6 => SymbolKind.InterfacePort
| 4 => SymbolKind.ProceduralBlock
| 5 | 7 => SymbolKind.Instance_
| _ => SymbolKind.Other
end%positive.

Definition nameOf (s : Symbol) : string :=
match s with
| 3 | 6 => "p"
| _ => "x"
end%positive.

(** The port [p] of [m2] is connected to the interface instance, in whose
    body the name [x] is found. *)
Definition instances : Hierarchy.t := {|
  Hierarchy.findPort := λ base n,
    if bool_decide (base = m2) && bool_decide (n = "p")
    then Some p2 else None;
  Hierarchy.getConnection := λ s,
    if bool_decide (s = p2) then (Some iface, None) else (None, None);
  Hierarchy.instanceBody := λ s,
    if bool_decide (s = iface) then ifaceBody else body;
  Hierarchy.definitionKind := λ b,
    if bool_decide (b = ifaceBody) then DefinitionKind.Other
    else DefinitionKind.Module_;
  Hierarchy.find := λ scope n,
    if bool_decide (scope = ifaceBody) && bool_decide (n = "x")
    then Some x else None;
  Hierarchy.isScope := λ s,
    bool_decide (kindOf s = SymbolKind.InstanceBody);
  Hierarchy.elements := λ _, [];
  Hierarchy.valid := λ _, false;
  Hierarchy.entries := λ _, [];
  Hierarchy.isAllowedInModport := λ _, false
|}.

Definition pathOf (s : Symbol) : string :=
match s with
| 4 => "top.m1.comb"
| 5 => "top.m2"
| _ => "top"
end%positive.

Definition design : Design := {|
  symKind := kindOf;
  isClass := λ _, false;
  getParentScope := λ _, Some body;
  getInitializer := λ _, None;
  getSelectableWidth := λ _, 1;
  location := λ s, (Npos s * 10)%N;
  name := nameOf;
  netTypeOf := λ _, mkNetType NetKind.Wire false "wire";
  lifetime := λ _, VariableLifetime.Static;
  getHierarchicalPath := pathOf;
  direction := λ _, ArgumentDirection.Out;
  getInternalExpr := λ _, None;
  internalSymbol := λ _, None;
  getConnectionExpr := λ _, None;
  getConnectionAndExpr := λ _, None;
  getCanonicalBody := λ _, Some body;
  driverSourceOf := λ _, DriverSource.AlwaysComb;
  allowDupInitialDrivers := false;
  visitLSPs := λ e _ initialLSP,
    match Demo.root e with
    | Some s => [(s, default e initialLSP, true)]
    | None => []
    end;
  getBounds := λ _ _ _, Some (0, 0);
  visitComponents := Demo.components;
  stringifyLSP := λ _ _, "p.x";
  join := λ _ other, other;
  hierarchy := instances
|}.

(** The reference [p.x] and the driver of [always_comb p.x = ...]. *)
Definition ref : HierarchicalReference :=
mkRef true (Some x) true [(p, SelName "p"); (x, SelName "x")].

Definition driver : ValueDriver :=
mkDriver DriverKind.Procedural (HierarchicalValue x ref (mkRange 100 103))
         proc DriverFlags.None DriverSource.AlwaysComb false None.

Definition procedureDrivers : list (Symbol * list (ValueDriver * (Z * Z))) :=
[(x, [(driver, (0, 0))])].

(** The report of the overlap between the driver and its clone for [m2],
    with the clone as the new driver, and the same with the driver as the
    new one. *)
Definition report (newPath storedPath : string) : Diagnostic :=
mkDiag x MultipleAlwaysAssigns (mkRange 100 103)
       [ArgString "p.x"; ArgProcKind DriverSource.AlwaysComb]
       [mkNote NoteFromHere2 None [ArgString newPath; ArgString storedPath]].

Definition cloneReport : Diagnostic := report "top.m2" "top.m1.comb".
Definition driverReport : Diagnostic := report "top.m1.comb" "top.m2".

(** The tracker once [m2] was registered as a non-canonical instance. *)
Definition registered : Tracker :=
mkTracker ∅ ∅ {[body := mkInstanceState [m2] []]} [].

End Shared.

(** ** A design with a cyclic modport connection

    The connection expression of the modport port [y] (6) names [y]
    itself. *)
Module Cyclic.

Definition y : Symbol := 6%positive.

Definition connection : Expression := NamedValue y (mkRange 60 61).

Definition design : Design := {|
  symKind := Demo.kindOf;
  isClass := λ _, false;
  getParentScope := λ _, Some Demo.body;
  getInitializer := λ _, None;
  getSelectableWidth := λ _, 1;
  location := λ s, (Npos s * 10)%N;
  name := Demo.nameOf;
  netTypeOf := λ _, mkNetType NetKind.Wire false "wire";
  lifetime := λ _, VariableLifetime.Static;
  getHierarchicalPath := Demo.nameOf;
  direction := λ _, ArgumentDirection.Out;
  getInternalExpr := λ _, None;
  internalSymbol := λ _, None;
  getConnectionExpr := λ s, if bool_decide (s = y) then Some connection
                            else None;
  getConnectionAndExpr := λ _, None;
  getCanonicalBody := λ _, Some Demo.body;
  driverSourceOf := λ _, DriverSource.Other;
  allowDupInitialDrivers := false;
  visitLSPs := λ e _ initialLSP,
    match Demo.root e with
    | Some s => [(s, default e initialLSP, true)]
    | None => []
    end;
  getBounds := λ _ _ _, Some (0, 0);
  visitComponents := Demo.components;
  stringifyLSP := λ _ _, "y";
  join := λ _ other, other;
  hierarchy := flat
|}.

(** The driver that re-projection submits, and the state it leaves. *)
Definition projected : ValueDriver :=
mkDriver DriverKind.Continuous connection Demo.assign1 DriverFlags.None
         DriverSource.Other false None.

Definition recorded : Tracker :=
mkTracker {[y := []]} {[y := [(projected, (0, 0))]]} ∅ [].

End Cyclic.

(** ** Definitions used in the statements *)

Definition verdict (r : Result (bool * Tracker)) : option bool :=
  match r with
  | Done (b, _) => Some b
  | _ => None
  end.

(** The driver [addDriver] makes of an initializer. *)
Definition initializerDriver {design : Design} (symbol scope : Symbol)
    (k : DriverKind.t) : ValueDriver :=
  mkDriver k
    (NamedValue symbol
       (mkRange (location symbol)
                (location symbol + N.of_nat (String.length (name symbol)))))
    scope DriverFlags.Initializer (driverSourceOf scope) false None.

Module Scenario.
Import Demo.

(** [assign a = ...;] inside the body whose input port is the net [a]. *)
Definition assignToA : Expression := NamedValue a (nameRange a 200).

Definition portThenAssign : M unit :=
  add_portSymbol 1 portA;; add_expression 1 assignToA assign1.

Definition assignThenPort : M unit :=
  add_expression 1 assignToA assign1;; add_portSymbol 1 portA.

(** [wire [3:0] n = 4'b0;] followed by [assign n = 4'b1;]. *)
Definition assignToN : Expression := NamedValue n (nameRange n 300).

Definition initializerPlusAssign : M unit :=
  add_expression 1 assignToN assign1.

Definition assignNDriver : ValueDriver :=
  driverOf n 300 DriverKind.Continuous assign1 DriverFlags.None.

(** A procedural assignment to the class handle [c]. *)
Definition assignCDriver : ValueDriver :=
  driverOf c 100 DriverKind.Procedural assign1 DriverFlags.None.

(** A driver recorded against the modport port [y]. *)
Definition assignToY : Expression := NamedValue y (nameRange y 300).

Definition assignYDriver : ValueDriver :=
  driverOf y 300 DriverKind.Continuous assign1 DriverFlags.None.

(** The driver list of one procedure: a continuous driver of [x]. *)
Definition assignXDriver : ValueDriver :=
  driverOf x 100 DriverKind.Continuous assign1 DriverFlags.None.

Definition procedureDrivers
    : list (Symbol * list (ValueDriver * (Z * Z))) :=
  [(x, [(assignXDriver, (0, 0))])].

(** The tracker after [assignYDriver] was recorded. *)
Definition recordedOnY : Tracker :=
  mkTracker {[y := []]} {[y := [(assignYDriver, (0, 0))]]} ∅ [].

(** The tracker after a procedure assigned the class handle [c]. *)
Definition classAssign : list (Symbol * list (ValueDriver * (Z * Z))) :=
  [(c, [(assignCDriver, (0, 0))])].

Definition afterClassAssign : Tracker := mkTracker {[c := []]} ∅ ∅ [].

(** The driver list of the procedure [assign1]: a procedural driver of
    [x], submitted to a tracker that holds a continuous driver of [x]. *)
Definition ownXDriver : ValueDriver :=
driverOf x 100 DriverKind.Procedural assign1 DriverFlags.None.

Definition ownDrivers : list (Symbol * list (ValueDriver * (Z * Z))) :=
[(x, [(ownXDriver, (0, 0))])].

Definition drivenX : Tracker :=
mkTracker {[x := [((0, 0), driverOf x 50 DriverKind.Continuous assign2
                                    DriverFlags.None)]]} ∅ ∅ [].
End Scenario.

(** Issuing diagnostics leaves the maps alone. *)
Definition appendDiags (st : Tracker) (ds : list Diagnostic) : Tracker :=
  mkTracker (symbolDrivers st) (modportPortDrivers st) (instanceMap st)
            (diagnostics st ++ ds).

(** A computation that only issues diagnostics: its result and the
    diagnostics it adds do not depend on the state it starts from. *)
Definition reportsOnly {A} (m : M A) : Prop :=
  ∀ st,
    m st = match m emptyTracker with
           | Done (a, e) => Done (a, appendDiags st (diagnostics e))
           | Failed site => Failed site
           | OutOfFuel => OutOfFuel
           end.

(** The diagnostics of [st'] that were issued after [st]. *)
Definition issuedSince (st st' : Tracker) (ds : list Diagnostic) : Prop :=
  diagnostics st' = diagnostics st ++ ds.

Section Derived.
Context {design : Design}.

(** The entry of a symbol as [addDriver] scans it: an empty entry first
    receives the initializer's driver, if there is one. *)
Definition withInitializer (symbol scope : Symbol) (driverMap : IntervalMap.t)
    : IntervalMap.t :=
  if IntervalMap.empty driverMap
  then synthesizeInitializer symbol scope driverMap
  else driverMap.

(** The diagnostics the overlap scan issues for a new driver. *)
Definition overlapDiagnostics (symbol : Symbol) (driverMap : IntervalMap.t)
    (driver : ValueDriver) (bounds : Z * Z) : list Diagnostic :=
  match checkOverlaps symbol driverMap driver bounds emptyTracker with
  | Done (_, e) => diagnostics e
  | _ => []
  end.

(** The side table after a driver was recorded against a modport port. *)
Definition recordedModport (st : Tracker) (symbol : Symbol)
    (driver : ValueDriver) (bounds : Z * Z) : Tracker :=
  withModportPortDrivers st
    (<[symbol := default [] (modportPortDrivers st !! symbol)
                 ++ [(driver, bounds)]]> (modportPortDrivers st)).

(** The drivers that re-projecting [d] through the connection expression
    [conn] submits: one per left-hand side that [visitLSPs] reaches. *)
Definition projectedDrivers (conn : Expression) (d : ValueDriver)
    : list (Symbol * ValueDriver) :=
  omap (λ '(t, lsp, isLValue),
          if isLValue : bool
          then Some (t, newValueDriver (kind d) lsp (containingSymbol d)
                                       (flags d))
          else None)
       (visitLSPs conn (containingSymbol d)
                  (glueOuterSelect conn (prefixExpression d))).

(** What re-projecting [d] through the connection expression [conn] hands
    to [addDriver]: the symbol, the new driver and its bounds, for each
    left-hand side with bounds that [visitLSPs] reaches. *)
Definition submitted (conn : Expression) (d : ValueDriver)
    : list (Symbol * ValueDriver * (Z * Z)) :=
  omap (λ '(t, lsp, isLValue),
          if isLValue : bool
          then
            match getBounds lsp (containingSymbol d) t with
            | Some bounds =>
                Some (t, newValueDriver (kind d) lsp (containingSymbol d)
                                        (flags d), bounds)
            | None => None
            end
          else None)
       (visitLSPs conn (containingSymbol d)
                  (glueOuterSelect conn (prefixExpression d))).

(** [resubmitted s d t d' b']: re-submitting the driver [d] recorded against
    the modport port [s] hands the driver [d'] with the bounds [b'] to the
    symbol [t], through the connection expression of [s] or, where that
    leads to a modport port again, through the connection expressions that
    follow. *)
Inductive resubmitted
    : Symbol → ValueDriver → Symbol → ValueDriver → Z * Z → Prop :=
  | resubmitted_here s conn d t d' b' :
      getConnectionExpr s = Some conn →
      (t, d', b') ∈ submitted conn d →
      resubmitted s d t d' b'
  | resubmitted_on s conn d t1 d1 b1 t d' b' :
      getConnectionExpr s = Some conn →
      (t1, d1, b1) ∈ submitted conn d →
      symKind t1 = SymbolKind.ModportPort →
      isClass t1 = false →
      resubmitted t1 d1 t d' b' →
      resubmitted s d t d' b'.

(** The tracker holds the driver [d] with the bounds [b] for [t]: in the
    side table when [t] is a modport port, in its entry otherwise. *)
Definition received (st : Tracker) (t : Symbol) (d : ValueDriver)
    (b : Z * Z) : Prop :=
  if bool_decide (symKind t = SymbolKind.ModportPort)
  then (d, b) ∈ default [] (modportPortDrivers st !! t)
  else (b, d) ∈ entryOf st t.

(** No class-typed symbol and no modport port holds a driver in the main
    map, and no class-typed symbol is a key of the side table. *)
Definition holdsNoDriver (s : Symbol) : Prop :=
  isClass s = true ∨ symKind s = SymbolKind.ModportPort.

Definition protectedEmpty (st : Tracker) : Prop :=
  (∀ s, holdsNoDriver s → entryOf st s = [])
  ∧ (∀ s, isClass s = true → modportPortDrivers st !! s = None).

End Derived.

(** [st'] holds what [st] holds, followed by drivers that satisfy [P]. *)
Definition grownBy (P : ValueDriver → Prop) (st st' : Tracker) : Prop :=
  (∀ s, ∃ ext, entryOf st' s = entryOf st s ++ ext
               ∧ Forall (λ e, P e.2) ext)
  ∧ (∀ s, ∃ ext, default [] (modportPortDrivers st' !! s)
                 = default [] (modportPortDrivers st !! s) ++ ext
                 ∧ Forall (λ e, P e.1) ext).

(** ** The modport connection graph *)

Section ConnectionGraph.
Context {design : Design}.

(** One step of the recursion of [noteInterfacePortDriver]: from a
    reference to its join with the connection of its first port. *)
Definition chainStep (ref ref' : HierarchicalReference) : Prop :=
  ∃ port sel rest connRef sr,
    path ref = (port, sel) :: rest
    ∧ getConnectionAndExpr port = Some (ArbitrarySymbol connRef sr)
    ∧ isViaIfacePort connRef = true
    ∧ ref' = join connRef ref.

(** The symbols a noted reference can be retargeted to, directly or
    along the chain of interface-port connections. *)
Inductive ifaceTarget : HierarchicalReference → Symbol → Prop :=
  | ifaceTarget_here ref fuel instance t :
      Retarget.retargetIfacePort fuel ref instance
      = Retarget.Returns (Some t) →
      ifaceTarget ref t
  | ifaceTarget_chain ref ref' t :
      chainStep ref ref' → ifaceTarget ref' t → ifaceTarget ref t.

(** [modportEdge s t]: re-projecting a driver recorded against [s] through
    the connection expression of [s] submits a driver to [t], directly or
    as an instance side effect. *)
Definition modportEdge (s t : Symbol) : Prop :=
  ∃ conn d t0 d',
    getConnectionExpr s = Some conn
    ∧ (t0, d') ∈ projectedDrivers conn d
    ∧ (t = t0 ∨ ∃ ref, ifacePortRefOf d' = Some ref ∧ ifaceTarget ref t).

(** One iteration of the connection loop of [retargetIfacePort]: from an
    interface port to the interface port it is connected to. *)
Definition portStep (s s' : Symbol) : Prop :=
  symKind s = SymbolKind.InterfacePort
  ∧ (Hierarchy.getConnection s).1 = Some s'
  ∧ symKind s' = SymbolKind.InterfacePort.

(** The connection graph is finite and acyclic: modport ports have a
    bounded rank that decreases along the edges, interface ports have one
    that decreases along their connections, and chains of interface port
    connections have a bounded depth that decreases along the steps. *)
Record Acyclic (rank : Symbol → nat) (depth : HierarchicalReference → nat)
    (bound : nat) : Prop := {
  rank_bounded : ∀ s, (rank s < bound)%nat;
  rank_decreases : ∀ s t,
    modportEdge s t → symKind t = SymbolKind.ModportPort →
    (rank t < rank s)%nat;
  port_decreases : ∀ s s', portStep s s' → (rank s' < rank s)%nat;
  depth_bounded : ∀ ref, (depth ref < bound)%nat;
  depth_decreases : ∀ ref ref',
    chainStep ref ref' → (depth ref' < depth ref)%nat
}.

(** Every key of the side table has a rank below [r]. *)
Definition keysBelow (rank : Symbol → nat) (r : nat) (st : Tracker) : Prop :=
  ∀ s, is_Some (modportPortDrivers st !! s) → (rank s < r)%nat.

End ConnectionGraph.

(** A computation that cannot run out of fuel. *)
Definition total {A} (m : M A) : Prop :=
  triple (λ _, True) False (λ _, True) m (λ _ _, True).

(** ** Submitting a driver list twice *)

(** A procedural driver of the procedure [c] that is no port. *)
Definition ownDriver (c : Symbol) (d : ValueDriver) : Prop :=
  kind d = DriverKind.Procedural
  ∧ isUnidirectionalPort d = false
  ∧ containingSymbol d = c.

#[global] Instance ownDriver_dec c d : Decision (ownDriver c d).
Proof. unfold ownDriver. apply _. Defined.

(** The entries of a map that are not [c]'s own. *)
Definition foreignEntries (c : Symbol) (m : IntervalMap.t) : IntervalMap.t :=
  filter (λ e, ¬ ownDriver c e.2) m.

Section Resubmission.
Context {design : Design}.

(** Two entries of [s] look the same to a driver of [c]: once the
    initializer is in, they hold the same foreign drivers in the same
    order. *)
Definition sameForeign (c s : Symbol) (m1 m2 : IntervalMap.t) : Prop :=
  ∀ scope, getParentScope s = Some scope →
    foreignEntries c (withInitializer s scope m1)
    = foreignEntries c (withInitializer s scope m2).

Definition sameForeignState (c : Symbol) (st1 st2 : Tracker) : Prop :=
  ∀ s, sameForeign c s (entryOf st1 s) (entryOf st2 s).

(** A per-procedure driver list as the amended claim takes it: every
    driver is [c]'s own and none goes through an interface port. *)
Definition ownDriverList (c : Symbol)
    (drivers : list (Symbol * list (ValueDriver * (Z * Z)))) : Prop :=
  Forall (λ sd, Forall (λ db, ownDriver c db.1
                              ∧ ifacePortRefOf db.1 = None) sd.2) drivers.

End Resubmission.
(** ** A design with an array of interface instances

    The module instance [m2] (16) has the body 1 with the interface port
    [p] (2), connected to the array [ifs] (3) of four interface instances
    (4 to 7); their bodies are 8 to 11 and each holds a variable [x] (12 to
    15), the first of them declared with an initializer.  The port [q] (17)
    is connected to nothing. *)
Module Arrayed.

Definition p : Symbol := 2%positive.
Definition ifs : Symbol := 3%positive.
Definition m2 : Symbol := 16%positive.
Definition q : Symbol := 17%positive.

Definition kindOf (s : Symbol) : SymbolKind.t :=
match s with
| 1 | 8 | 9 | 10 | 11 => SymbolKind.InstanceBody
| 2 | 17 => SymbolKind.InterfacePort
| 3 => SymbolKind.InstanceArray
| 4 | 5 | 6 | 7 | 16 => SymbolKind.Instance_
| _ => SymbolKind.Variable_
end%positive.

Definition nameOf (s : Symbol) : string :=
match s with
| 2 => "p" | 3 => "ifs" | 16 => "m2" | 17 => "q" | _ => "x"
end%positive.

(** The hierarchy, with the connection of [q] left open. *)
Definition instancesWith (connectionOfQ : option Symbol) : Hierarchy.t := {|
  Hierarchy.findPort := λ base n,
    if bool_decide (base = m2)
    then if bool_decide (n = "p") then Some p
         else if bool_decide (n = "q") then Some q else None
    else None;
  Hierarchy.getConnection := λ s,
    if bool_decide (s = p) then (Some ifs, None)
    else if bool_decide (s = q) then (connectionOfQ, None)
    else (None, None);
  Hierarchy.instanceBody := λ s,
    if bool_decide (s = m2) then 1%positive else (s + 4)%positive;
  Hierarchy.definitionKind := λ b,
    if bool_decide (b = 1%positive) then DefinitionKind.Module_
    else DefinitionKind.Other;
  Hierarchy.find := λ scope n,
    if bool_decide (kindOf scope = SymbolKind.InstanceBody)
       && bool_decide (n = "x")
    then Some (scope + 4)%positive else None;
  Hierarchy.isScope := λ s,
    bool_decide (kindOf s = SymbolKind.InstanceBody)
    || bool_decide (kindOf s = SymbolKind.InstanceArray);
  Hierarchy.elements := λ s,
    if bool_decide (s = ifs) then [4; 5; 6; 7]%positive else [];
  Hierarchy.valid := λ _, true;
  Hierarchy.entries := λ _, [];
  Hierarchy.isAllowedInModport := λ _, false
|}.

Definition designWith (connectionOfQ : option Symbol) : Design := {|
  symKind := kindOf;
  isClass := λ _, false;
  getParentScope := λ _, Some 1%positive;
  getInitializer := λ s, if bool_decide (s = 12%positive)
                         then Some Demo.literal else None;
  getSelectableWidth := λ _, 1;
  location := λ s, (Npos s * 10)%N;
  name := nameOf;
  netTypeOf := λ _, mkNetType NetKind.Wire false "wire";
  lifetime := λ _, VariableLifetime.Static;
  getHierarchicalPath := nameOf;
  direction := λ _, ArgumentDirection.Out;
  getInternalExpr := λ _, None;
  internalSymbol := λ _, None;
  getConnectionExpr := λ _, None;
  getConnectionAndExpr := λ _, None;
  getCanonicalBody := λ _, Some 1%positive;
  driverSourceOf := λ _, DriverSource.Other;
  allowDupInitialDrivers := false;
  visitLSPs := λ _ _ _, [];
  getBounds := λ _ _ _, Some (0, 0);
  visitComponents := Demo.components;
  stringifyLSP := λ _ _, "p.x";
  join := λ _ other, other;
  hierarchy := instancesWith connectionOfQ
|}.

Definition design : Design := designWith None.

(** The same design with [q] connected to itself. *)
Definition looped : Design := designWith (Some q).

(** The reference [p[3:1][1].x], written in the canonical body. *)
Definition ref : HierarchicalReference :=
mkRef true (Some 12%positive) true
      [(p, SelName "p"); (ifs, SelRange 1 3); (ifs, SelIndex 1);
       (12%positive, SelName "x")].

(** The reference [q.x]. *)
Definition refQ : HierarchicalReference :=
mkRef true (Some 12%positive) true
      [(q, SelName "q"); (12%positive, SelName "x")].

(** The number of interface ports a symbol is away from its connection. *)
Definition depth (s : Symbol) : nat := 0%nat.

End Arrayed.

(** ** A design with an interface port connected through itself

    As [Shared], but the connection of the interface port [p] is a
    reference through an interface port, and joining it to a reference
    gives that reference back. *)
Module Chained.

Definition connection : Expression :=
ArbitrarySymbol Shared.ref (mkRange 30 31).

Definition design : Design := {|
  symKind := Shared.kindOf;
  isClass := λ _, false;
  getParentScope := λ _, Some Shared.body;
  getInitializer := λ _, None;
  getSelectableWidth := λ _, 1;
  location := λ s, (Npos s * 10)%N;
  name := λ _, "x";
  netTypeOf := λ _, mkNetType NetKind.Wire false "wire";
  lifetime := λ _, VariableLifetime.Static;
  getHierarchicalPath := Shared.pathOf;
  direction := λ _, ArgumentDirection.Out;
  getInternalExpr := λ _, None;
  internalSymbol := λ _, None;
  getConnectionExpr := λ _, None;
  getConnectionAndExpr := λ s, if bool_decide (s = Shared.p)
                               then Some connection else None;
  getCanonicalBody := λ _, Some Shared.body;
  driverSourceOf := λ _, DriverSource.AlwaysComb;
  allowDupInitialDrivers := false;
  visitLSPs := λ e _ initialLSP,
    match Demo.root e with
    | Some s => [(s, default e initialLSP, true)]
    | None => []
    end;
  getBounds := λ _ _ _, Some (0, 0);
  visitComponents := Demo.components;
  stringifyLSP := λ _ _, "p.x";
  join := λ _ other, other;
  hierarchy := flat
|}.

End Chained.

(** ** A design in which a re-projected driver goes through an interface port

    The module body 1 has the interface port [p] (3) and the [always_comb]
    procedure 2, which assigns [p.y]; [y] (4) is a modport port without a
    connection expression.  The port [p] is itself connected through the
    interface port [pp] (18) of the parent body 19.  The instance [m2] (5)
    shares the body 1: its port [p] (6) is connected, through the interface
    port 21 of the instance around it, to the interface instance 7, whose
    body 8 holds the modport port [y] (9).  The connection
    expression of that port is [r.t], through the interface port [r] (10) of
    the body 8, with the variable [t] (11) as its target.  The interface
    instance [i2] (12) shares the body 8: its port [r] (13) is connected to
    the interface instance 14, whose body 15 holds the variable [t] (16).
    The variable [u] (17) has no constant bounds, and the connection
    expression of the modport port [z] (20) names the modport port [y] (9)
    of the interface. *)
Module Cascade.

Definition body : Symbol := 1%positive.
Definition proc : Symbol := 2%positive.
Definition p : Symbol := 3%positive.
Definition y : Symbol := 4%positive.
Definition m2 : Symbol := 5%positive.
Definition p2 : Symbol := 6%positive.
Definition iface : Symbol := 7%positive.
Definition ifaceBody : Symbol := 8%positive.
Definition y2 : Symbol := 9%positive.
Definition r : Symbol := 10%positive.
Definition t : Symbol := 11%positive.
Definition i2 : Symbol := 12%positive.
Definition r2 : Symbol := 13%positive.
Definition inner : Symbol := 14%positive.
Definition innerBody : Symbol := 15%positive.
Definition t2 : Symbol := 16%positive.
Definition u : Symbol := 17%positive.
Definition pp : Symbol := 18%positive.
Definition parentBody : Symbol := 19%positive.
Definition z : Symbol := 20%positive.
Definition p3 : Symbol := 21%positive.

Definition kindOf (s : Symbol) : SymbolKind.t :=
match s with
| 1 | 8 | 15 | 19 => SymbolKind.InstanceBody
| 2 => SymbolKind.ProceduralBlock
| 3 | 6 | 10 | 13 | 18 | 21 => SymbolKind.InterfacePort
| 4 | 9 | 20 => SymbolKind.ModportPort
| 5 | 7 | 12 | 14 => SymbolKind.Instance_
| 11 | 16 | 17 => SymbolKind.Variable_
| _ => SymbolKind.Other
end%positive.

Definition nameOf (s : Symbol) : string :=
match s with
| 3 | 6 | 21 => "p" | 4 | 9 => "y" | 10 | 13 => "r" | 11 | 16 => "t"
| 17 => "u" | 18 => "pp" | 20 => "z" | _ => "top"
end%positive.

Definition scopeOf (s : Symbol) : Symbol :=
match s with
| 9 | 10 => ifaceBody
| 16 => innerBody
| 18 => parentBody
| _ => body
end%positive.

Definition pathOf (s : Symbol) : string :=
match s with
| 2 => "top.m1.comb"
| 5 => "top.m2"
| 12 => "top.i2"
| _ => "top"
end%positive.

(** The reference [pp], the connection of [p]; the reference [p.y] of the
    assignment and its join [pp.y] with the connection; the reference [r.t]
    of the connection expression of [y]. *)
Definition connRef : HierarchicalReference :=
mkRef true (Some pp) true [(pp, SelName "pp")].

Definition ref : HierarchicalReference :=
mkRef true (Some y) true [(p, SelName "p"); (y, SelName "y")].

Definition joined : HierarchicalReference :=
mkRef true (Some y) true [(pp, SelName "pp"); (y, SelName "y")].

Definition ref2 : HierarchicalReference :=
mkRef true (Some t) true [(r, SelName "r"); (t, SelName "t")].

Definition connection : Expression :=
HierarchicalValue t ref2 (mkRange 90 93).

Definition connectionOfZ : Expression := NamedValue y2 (mkRange 200 201).

(** The visits of an expression: for an assignment, the root of the
    left-hand side as an lvalue and the root of the right-hand side as an
    rvalue; for another expression, its root as an lvalue. *)
Definition visitsOf (e : Expression) (initialLSP : option Expression)
    : list (Symbol * Expression * bool) :=
match e with
| Assignment lhs rhs _ =>
    match Demo.root lhs with Some s => [(s, lhs, true)] | None => [] end
    ++ match Demo.root rhs with Some s => [(s, rhs, false)] | None => [] end
| _ =>
    match Demo.root e with
    | Some s => [(s, default e initialLSP, true)]
    | None => []
    end
end.

Definition instances : Hierarchy.t := {|
  Hierarchy.findPort := λ base n,
    if bool_decide (base = m2) && bool_decide (n = "p") then Some p2
    else if bool_decide (base = i2) && bool_decide (n = "r") then Some r2
    else None;
  Hierarchy.getConnection := λ s,
    if bool_decide (s = p2) then (Some p3, None)
    else if bool_decide (s = p3) then (Some iface, None)
    else if bool_decide (s = r2) then (Some inner, None)
    else (None, None);
  Hierarchy.instanceBody := λ s,
    if bool_decide (s = iface) then ifaceBody
    else if bool_decide (s = inner) then innerBody
    else body;
  Hierarchy.definitionKind := λ b,
    if bool_decide (b = ifaceBody) || bool_decide (b = innerBody)
    then DefinitionKind.Other else DefinitionKind.Module_;
  Hierarchy.find := λ scope n,
    if bool_decide (scope = ifaceBody) && bool_decide (n = "y") then Some y2
    else if bool_decide (scope = innerBody) && bool_decide (n = "t")
    then Some t2 else None;
  Hierarchy.isScope := λ s,
    bool_decide (kindOf s = SymbolKind.InstanceBody);
  Hierarchy.elements := λ _, [];
  Hierarchy.valid := λ _, false;
  Hierarchy.entries := λ _, [];
  Hierarchy.isAllowedInModport := λ _, false
|}.

Definition design : Design := {|
  symKind := kindOf;
  isClass := λ _, false;
  getParentScope := λ s, Some (scopeOf s);
  getInitializer := λ _, None;
  getSelectableWidth := λ _, 1;
  location := λ s, (Npos s * 10)%N;
  name := nameOf;
  netTypeOf := λ _, mkNetType NetKind.Wire false "wire";
  lifetime := λ _, VariableLifetime.Static;
  getHierarchicalPath := pathOf;
  direction := λ _, ArgumentDirection.Out;
  getInternalExpr := λ _, None;
  internalSymbol := λ _, None;
  getConnectionExpr := λ s,
    if bool_decide (s = y2) then Some connection
    else if bool_decide (s = z) then Some connectionOfZ else None;
  getConnectionAndExpr := λ s,
    if bool_decide (s = p)
    then Some (ArbitrarySymbol connRef (mkRange 30 32)) else None;
  getCanonicalBody := λ s,
    if bool_decide (s = m2) then Some body
    else if bool_decide (s = i2) then Some ifaceBody else None;
  driverSourceOf := λ _, DriverSource.AlwaysComb;
  allowDupInitialDrivers := false;
  visitLSPs := λ e _ initialLSP, visitsOf e initialLSP;
  getBounds := λ _ _ s, if bool_decide (s = u) then None else Some (0, 0);
  visitComponents := Demo.components;
  stringifyLSP := λ e _,
    match Demo.root e with Some s => nameOf s | None => "" end;
  join := λ connRef other,
    mkRef true (target other) true (path connRef ++ tail (path other));
  hierarchy := instances
|}.

(** The driver of [always_comb p.y = ...], its clone for [m2], the driver
    that re-projecting the clone through [r.t] submits, and the clone of
    that one for [i2]. *)
Definition driver : ValueDriver :=
mkDriver DriverKind.Procedural (HierarchicalValue y ref (mkRange 100 103))
         proc DriverFlags.None DriverSource.AlwaysComb false None.

Definition clone : ValueDriver := cloneForInstance driver m2.

Definition projected : ValueDriver :=
mkDriver DriverKind.Procedural connection m2 DriverFlags.None
         DriverSource.AlwaysComb false None.

Definition secondClone : ValueDriver := cloneForInstance projected i2.

Definition procedureDrivers : list (Symbol * list (ValueDriver * (Z * Z))) :=
[(y, [(driver, (0, 0))])].

(** The tracker once [m2] and [i2] were registered as non-canonical
    instances, and once the procedure was added after that. *)
Definition registered : Tracker :=
mkTracker ∅ ∅ {[body := mkInstanceState [m2] [];
                ifaceBody := mkInstanceState [i2] []]} [].

Definition noted : Tracker :=
mkTracker
  {[y := []; y2 := []]}
  {[y := [(driver, (0, 0))]; y2 := [(clone, (0, 0))]]}
  {[body := mkInstanceState [m2] [(ref, driver)];
    ifaceBody := mkInstanceState [i2] [];
    parentBody := mkInstanceState [] [(joined, driver)]]} [].

(** A continuous driver recorded against [z]; what re-projecting it
    through the connection of [z] records against [y], and what
    re-projecting that through the connection [r.t] stores for [t]. *)
Definition driverOfZ : ValueDriver :=
mkDriver DriverKind.Continuous (NamedValue z (mkRange 210 211)) proc
         DriverFlags.None DriverSource.Continuous false None.

Definition recordedOnZ : Tracker :=
mkTracker {[z := []]} {[z := [(driverOfZ, (0, 0))]]} ∅ [].

Definition onceProjected : ValueDriver :=
mkDriver DriverKind.Continuous connectionOfZ proc DriverFlags.None
         DriverSource.AlwaysComb false None.

Definition twiceProjected : ValueDriver :=
mkDriver DriverKind.Continuous connection proc DriverFlags.None
         DriverSource.AlwaysComb false None.

(** An assignment [u = t]: [u] has no constant bounds and [t] is read
    only. *)
Definition assignment : Expression :=
Assignment (NamedValue u (mkRange 170 171)) (NamedValue t (mkRange 174 175))
           (mkRange 170 175).

(** In this design only the modport port [z] is connected to another
    modport port, only the port [p] of [m2] is connected to another
    interface port, and only the port [p] of the body is connected through
    another port. *)
Definition rank (s : Symbol) : nat :=
if bool_decide (s = z) || bool_decide (s = p2) then 1%nat else 0%nat.
Definition depth (ref : HierarchicalReference) : nat :=
match path ref with
| (3%positive, _) :: _ => 1%nat
| _ => 0%nat
end.

End Cascade.
(** ** The elementary updates of the tracker *)

(** The state of a body in the instance map, empty when the body has none:
    what [try_emplace_and_visit] hands to the visitor. *)
Definition stateOf (st : Tracker) (body : Symbol) : InstanceState :=
  default (mkInstanceState [] []) (instanceMap st !! body).

(** A driver through an interface port noted under the body of the port. *)
Definition noted (st : Tracker) (body : Symbol) (ref : HierarchicalReference)
    (d : ValueDriver) : Tracker :=
  setInstance st body
    (mkInstanceState (nonCanonicalInstances (stateOf st body))
                     (ifacePortDrivers (stateOf st body) ++ [(ref, d)])).

(** A non-canonical instance registered under its canonical body. *)
Definition registered (st : Tracker) (canonical instance : Symbol) : Tracker :=
  setInstance st canonical
    (mkInstanceState (nonCanonicalInstances (stateOf st canonical)
                      ++ [instance])
                     (ifacePortDrivers (stateOf st canonical))).

Section Updates.
Context {design : Design}.

(** A driver stored in the entry of a symbol, with the reports of the
    overlap scan. *)
Definition stored (st : Tracker) (s scope : Symbol) (d : ValueDriver)
    (b : Z * Z) : Tracker :=
  appendDiags
    (setEntry st s
       (IntervalMap.insert b d (withInitializer s scope (entryOf st s))))
    (overlapDiagnostics s (withInitializer s scope (entryOf st s)) d b).

(** A property of the tracker that is kept while drivers are added: it
    survives every elementary update but the emptying of the side table. *)
Definition kept (Inv : Tracker → Prop) : Prop :=
  (∀ st s, Inv st → Inv (setEntry st s (entryOf st s)))
  ∧ (∀ st s scope d b, Inv st → Inv (stored st s scope d b))
  ∧ (∀ st s d b, Inv st → Inv (recordedModport st s d b))
  ∧ (∀ st body ref d, Inv st → Inv (noted st body ref d))
  ∧ (∀ st canonical instance, Inv st → Inv (registered st canonical instance)).

End Updates.

(** ** Diagnostics and the symbols they are issued for *)

(** The two port-coercion warnings; every other report is an error. *)
Definition isCoercion (c : DiagCode) : bool :=
  match c with
  | InputPortCoercion | OutputPortCoercion => true
  | _ => false
  end.

(** The reports that can be made about a symbol, from what [addDriver]
    finds out about it: whether it is a net, a uwire, a user-defined net
    without resolution function. *)
Definition fitsFlags (isNet isUWire isSingleDriverUDNT : bool) (c : DiagCode)
    : bool :=
  match c with
  | InputPortAssign => negb isNet
  | InputPortCoercion | OutputPortCoercion =>
      isNet && negb isUWire && negb isSingleDriverUDNT
  | MultipleUWireDrivers => isUWire
  | MultipleUDNTDrivers => isSingleDriverUDNT && negb isUWire
  | MultipleContAssigns | MixedVarAssigns =>
      negb isUWire && negb isSingleDriverUDNT
  | ClockVarTargetAssign | MultipleAlwaysAssigns => true
  | _ => false
  end.

Section SymbolFacts.
Context {design : Design}.

Definition isUWire (s : Symbol) : bool :=
  bool_decide (symKind s = SymbolKind.Net)
  && bool_decide (netKind (netTypeOf s) = NetKind.UWire).

Definition isSingleDriverUDNT (s : Symbol) : bool :=
  bool_decide (symKind s = SymbolKind.Net)
  && bool_decide (netKind (netTypeOf s) = NetKind.UserDefined)
  && negb (hasResolutionFunction (netTypeOf s)).

(** The symbols whose drivers [addDriver] checks for overlap (its
    [checkOverlap]). *)
Definition overlapChecked (s : Symbol) : bool :=
  (VariableSymbol_isKind (symKind s)
   && bool_decide (lifetime s = VariableLifetime.Static))
  || isUWire s || isSingleDriverUDNT s
  || bool_decide (symKind s = SymbolKind.LocalAssertionVar).

Definition codeFits (s : Symbol) (c : DiagCode) : bool :=
  fitsFlags (bool_decide (symKind s = SymbolKind.Net)) (isUWire s)
            (isSingleDriverUDNT s) c.

(** The kind of the driver that [addDriver] makes of the initializer of a
    symbol, if it makes one. *)
Definition initializerKind (s : Symbol) : option DriverKind.t :=
  match getInitializer s with
  | Some _ =>
      match symKind s with
      | SymbolKind.Net => Some DriverKind.Continuous
      | SymbolKind.Variable_ | SymbolKind.ClassProperty | SymbolKind.Field =>
          Some DriverKind.Procedural
      | _ => None
      end
  | None => None
  end.

(** A reference noted under [body]: it goes through an interface port of
    that instance body and was resolved. *)
Definition notedUnder (body : Symbol) (ref : HierarchicalReference) : Prop :=
  isViaIfacePort ref = true ∧ is_Some (target ref) ∧ hasExpr ref = true
  ∧ symKind body = SymbolKind.InstanceBody
  ∧ ∃ port sel rest,
      path ref = (port, sel) :: rest ∧ getParentScope port = Some body.

End SymbolFacts.

(** [st'] holds everything [st] holds, in the same order and in front of
    what came later: the drivers of every symbol, the diagnostics, and the
    instances and drivers of every body. *)
Definition grew (st st' : Tracker) : Prop :=
  (∀ s, getDrivers st s `prefix_of` getDrivers st' s)
  ∧ dom (symbolDrivers st) ⊆ dom (symbolDrivers st')
  ∧ diagnostics st `prefix_of` diagnostics st'
  ∧ ∀ body,
      nonCanonicalInstances (stateOf st body)
        `prefix_of` nonCanonicalInstances (stateOf st' body)
      ∧ ifacePortDrivers (stateOf st body)
          `prefix_of` ifacePortDrivers (stateOf st' body).

(** A driver as [addDrivers] stores it when called with the kind [k] and the
    flags [fl]: made from these, or made of an initializer. *)
Definition madeWith (k : DriverKind.t) (fl : N) (d : ValueDriver) : Prop :=
  flags d = DriverFlags.Initializer ∨ (flags d = fl ∧ kind d = k).

(** The drivers of an entry as [getDrivers] lists them. *)
Definition listed (m : IntervalMap.t) : list (ValueDriver * (Z * Z)) :=
  (λ entry, (entry.2, entry.1)) <$> m.

(** * Properties *)

(** ** Reasoning about the monad *)

Lemma bind_Done {A B} (m : M A) (k : A → M B) st b st' :
  (m ≫= k) st = Done (b, st') ↔
  ∃ a st1, m st = Done (a, st1) ∧ k a st1 = Done (b, st').
Proof.
  unfold mbind, M_bind. split.
  - destruct (m st) as [[a st1]| |]; try discriminate. eauto.
  - intros (a & st1 & -> & Hk). exact Hk.
Qed.

Section Triples.
Context (F : Assertion → Prop) (O : Prop).

Lemma triple_ret {A} (P : Tracker → Prop) (Q : A → Tracker → Prop) a :
  (∀ st, P st → Q a st) → triple F O P (mret a) Q.
Proof. intros H st HP. by apply H. Qed.

Lemma triple_bind {A B} (P : Tracker → Prop) (R : A → Tracker → Prop)
    (Q : B → Tracker → Prop) (m : M A) (k : A → M B) :
  triple F O P m R → (∀ a, triple F O (R a) (k a) Q) →
  triple F O P (m ≫= k) Q.
Proof.
  intros Hm Hk st HP. specialize (Hm st HP).
  unfold mbind, M_bind. destruct (m st) as [[a st1]| |]; [|done..].
  by apply Hk.
Qed.

Lemma triple_weaken {A} (P P' : Tracker → Prop) (Q Q' : A → Tracker → Prop)
    (m : M A) :
  triple F O P' m Q' → (∀ st, P st → P' st) → (∀ a st, Q' a st → Q a st) →
  triple F O P m Q.
Proof.
  intros Hm HP HQ st Hst. specialize (Hm st (HP st Hst)).
  destruct (m st) as [[a st1]| |]; [|done..]. by apply HQ.
Qed.

Lemma triple_forEach {A} (Inv : Tracker → Prop) (xs : list A)
    (body : A → M unit) :
  (∀ x, x ∈ xs → triple F O Inv (body x) (λ _, Inv)) →
  triple F O Inv (forEach xs body) (λ _, Inv).
Proof.
  induction xs as [|x xs IH]; intros Hbody; simpl.
  - by apply triple_ret.
  - eapply triple_bind.
    + apply Hbody. by left.
    + intros u. apply IH. intros z Hz. apply Hbody. by right.
Qed.

Lemma triple_collect {A B} (Inv : Tracker → Prop) (Good : B → Prop)
    (xs : list A) (body : A → M (list B)) :
  (∀ x, x ∈ xs →
     triple F O Inv (body x) (λ bs st, Inv st ∧ Forall Good bs)) →
  triple F O Inv (collect xs body) (λ bs st, Inv st ∧ Forall Good bs).
Proof.
  induction xs as [|x xs IH]; intros Hbody; simpl.
  - apply triple_ret. intros st Hst. by split.
  - eapply triple_bind.
    + apply Hbody. by left.
    + intros here. simpl.
      intros st [Hst Hhere].
      assert (Hrest : triple F O Inv (collect xs body)
                             (λ bs st, Inv st ∧ Forall Good bs)).
      { apply IH. intros z Hz. apply Hbody. by right. }
      specialize (Hrest st Hst). unfold mbind, M_bind.
      destruct (collect xs body st) as [[later st1]| |]; [|done..].
      destruct Hrest as [Hst1 Hlater]. split; [done|].
      by apply Forall_app.
Qed.

Lemma triple_assert (P : Tracker → Prop) site b :
  (b = false → F site) →
  triple F O P (SLANG_ASSERT site b) (λ _ st, P st ∧ b = true).
Proof. intros HF st HP. unfold SLANG_ASSERT. destruct b; [done|by apply HF]. Qed.

Lemma triple_failWith {A} (P : Tracker → Prop) (Q : A → Tracker → Prop) site :
  F site → triple F O P (failWith site) Q.
Proof. by intros HF st HP. Qed.

Lemma triple_outOfFuel {A} (P : Tracker → Prop) (Q : A → Tracker → Prop) :
  O → triple F O P outOfFuel Q.
Proof. by intros HO st HP. Qed.

Lemma triple_seq {A} (P R : Tracker → Prop) (Q : A → Tracker → Prop)
    (m : M unit) (k : M A) :
  triple F O P m (λ _, R) → triple F O R k Q → triple F O P (m ;; k) Q.
Proof. intros Hm Hk. eapply triple_bind; [exact Hm|]. by intros []. Qed.

Lemma triple_get_bind {A} (P : Tracker → Prop) (Q : A → Tracker → Prop)
    (k : Tracker → M A) :
  (∀ st0, P st0 → triple F O (λ st, st = st0) (k st0) Q) →
  triple F O P (get ≫= k) Q.
Proof.
  intros Hk st HP. unfold mbind, M_bind, get. by apply (Hk st HP st).
Qed.

Lemma triple_setSymbolDrivers (P : Tracker → Prop) (Q : unit → Tracker → Prop)
    key m :
  (∀ st, P st → Q tt (setEntry st key m)) →
  triple F O P (setSymbolDrivers key m) Q.
Proof. intros H st HP. by apply H. Qed.

Lemma triple_setModportPortDrivers (P : Tracker → Prop)
    (Q : unit → Tracker → Prop) m :
  (∀ st, P st → Q tt (withModportPortDrivers st m)) →
  triple F O P (setModportPortDrivers m) Q.
Proof. intros H st HP. by apply H. Qed.

Lemma triple_setInstanceState (P : Tracker → Prop)
    (Q : unit → Tracker → Prop) key v :
  (∀ st, P st → Q tt (setInstance st key v)) →
  triple F O P (setInstanceState key v) Q.
Proof. intros H st HP. by apply H. Qed.

End Triples.

Lemma hoare_assert_seq {A} (P : Tracker → Prop) (Q : A → Tracker → Prop)
    site b (k : M A) :
  hoare P k Q → hoare P (SLANG_ASSERT site b ;; k) Q.
Proof.
  intros Hk. eapply triple_seq; [|exact Hk].
  eapply triple_weaken; [by apply triple_assert| done | by intros ? ? [? _]].
Qed.

(** ** The overlap report and the order of insertion *)

Section Overlap.
Context {design : Design}.

(** Whether an overlap is tolerated does not depend on which of the two
    drivers was stored first. *)
Lemma handleOverlap_verdict_symmetric symbol d1 d2 isNet isUWire isUDNT nt st :
  verdict (handleOverlap symbol d1 d2 isNet isUWire isUDNT nt st)
  = verdict (handleOverlap symbol d2 d1 isNet isUWire isUDNT nt st).
Proof.
  unfold handleOverlap, isInputPort, isUnidirectionalPort, isClockVar.
  destruct isNet, isUWire, isUDNT;
    destruct (has (flags d1) (N.lor _ _)), (has (flags d2) (N.lor _ _));
    destruct (has (flags d1) DriverFlags.InputPort),
             (has (flags d2) DriverFlags.InputPort);
    destruct (has (flags d1) DriverFlags.ClockVar),
             (has (flags d2) DriverFlags.ClockVar);
    destruct (kind d1), (kind d2); simpl; try reflexivity;
    destruct nt; simpl;
    repeat (match goal with
            | |- context [isInSingleDriverProcedure ?d] =>
                destruct (isInSingleDriverProcedure d)
            | |- context [has ?a ?b] => destruct (has a b)
            end; simpl); reflexivity.
Qed.

(** Nor does the code of the report, as long as the two drivers agree on
    the [InputPort] flag. *)
Lemma handleOverlap_code_symmetric symbol d1 d2 isNet isUWire isUDNT nt st :
  has (flags d1) DriverFlags.InputPort = has (flags d2) DriverFlags.InputPort →
  reported (handleOverlap symbol d1 d2 isNet isUWire isUDNT nt st)
  = reported (handleOverlap symbol d2 d1 isNet isUWire isUDNT nt st).
Proof.
  intros Hflag.
  unfold handleOverlap, isInputPort, isUnidirectionalPort, isClockVar.
  rewrite Hflag.
  destruct isNet, isUWire, isUDNT;
    destruct (has (flags d1) (N.lor _ _)), (has (flags d2) (N.lor _ _));
    destruct (has (flags d2) DriverFlags.InputPort);
    destruct (has (flags d1) DriverFlags.ClockVar),
             (has (flags d2) DriverFlags.ClockVar);
    destruct (kind d1), (kind d2); simpl; try reflexivity;
    destruct nt; simpl;
    repeat (match goal with
            | |- context [isInSingleDriverProcedure ?d] =>
                destruct (isInSingleDriverProcedure d)
            | |- context [has ?a ?b] => destruct (has a b)
            end; simpl);
    rewrite ?fmap_app; reflexivity.
Qed.

End Overlap.

(** ** Computations that only report *)

Lemma appendDiags_nil st : appendDiags st [] = st.
Proof. destruct st. unfold appendDiags. simpl. by rewrite app_nil_r. Qed.

Lemma appendDiags_app st ds1 ds2 :
  appendDiags (appendDiags st ds1) ds2 = appendDiags st (ds1 ++ ds2).
Proof. unfold appendDiags. simpl. by rewrite app_assoc. Qed.

Lemma reportsOnly_ret {A} (a : A) : reportsOnly (mret a).
Proof. intros st. simpl. unfold mret, M_ret. by rewrite appendDiags_nil. Qed.

Lemma reportsOnly_addDiag d : reportsOnly (addDiag d).
Proof. intros st. reflexivity. Qed.

Lemma reportsOnly_assert site b : reportsOnly (SLANG_ASSERT site b).
Proof.
  intros st. unfold SLANG_ASSERT. destruct b; [|done].
  by rewrite appendDiags_nil.
Qed.

Lemma reportsOnly_bind {A B} (m : M A) (k : A → M B) :
  reportsOnly m → (∀ a, reportsOnly (k a)) → reportsOnly (m ≫= k).
Proof.
  intros Hm Hk st. unfold mbind, M_bind.
  rewrite (Hm st). destruct (m emptyTracker) as [[a e]| |]; [|done..].
  rewrite (Hk a (appendDiags st (diagnostics e))), (Hk a e).
  destruct (k a emptyTracker) as [[b e']| |]; [|done..].
  rewrite appendDiags_app. reflexivity.
Qed.

Lemma reportsOnly_if {A} (b : bool) (m1 m2 : M A) :
  reportsOnly m1 → reportsOnly m2 → reportsOnly (if b then m1 else m2).
Proof. by destruct b. Qed.

Section Reporting.
Context {design : Design}.

Lemma handleOverlap_reportsOnly symbol curr driver isNet isUWire isUDNT nt :
  reportsOnly (handleOverlap symbol curr driver isNet isUWire isUDNT nt).
Proof.
  unfold handleOverlap.
  repeat first
    [ apply reportsOnly_ret
    | apply reportsOnly_addDiag
    | apply reportsOnly_assert
    | apply reportsOnly_bind; [|intros ?]
    | apply reportsOnly_if
    | match goal with
      | |- reportsOnly (let '(_, _) := ?p in _) => destruct p
      | |- reportsOnly (match ?p with _ => _ end) => destruct p
      end ].
Qed.

Lemma overlapLoop_reportsOnly symbol driver checkOverlap isNet isUWire isUDNT
    nt entries :
  reportsOnly (overlapLoop symbol driver checkOverlap isNet isUWire isUDNT nt
                           entries).
Proof.
  induction entries as [|curr rest IH]; simpl.
  - apply reportsOnly_ret.
  - apply reportsOnly_if; [|done].
    apply reportsOnly_bind; [apply handleOverlap_reportsOnly|].
    intros warning. apply reportsOnly_if; [done|apply reportsOnly_ret].
Qed.

(** [handleOverlap] stops at its assertion only when asked about a
    single-driver net type without being given the net type. *)
Lemma handleOverlap_terminates symbol curr driver isNet isUWire isUDNT nt st :
  (isUDNT = true → is_Some nt) →
  ∃ b st', handleOverlap symbol curr driver isNet isUWire isUDNT nt st
           = Done (b, st').
Proof.
  intros Hnt. unfold handleOverlap.
  assert (Hassert :
    negb isUDNT || bool_decide (is_Some nt) = true).
  { destruct isUDNT; [|done]. simpl. by rewrite bool_decide_eq_true_2; auto. }
  rewrite Hassert.
  repeat match goal with
         | |- context [if ?b then _ else _] => destruct b
         | |- context [let '(_, _) := ?p in _] => destruct p
         end; simpl; eauto.
Qed.

Lemma overlapLoop_terminates symbol driver checkOverlap isNet isUWire isUDNT
    nt entries st :
  (isUDNT = true → is_Some nt) →
  ∃ st', overlapLoop symbol driver checkOverlap isNet isUWire isUDNT nt
                     entries st = Done (tt, st').
Proof.
  intros Hnt. revert st.
  induction entries as [|curr rest IH]; intros st; simpl; [by eexists|].
  destruct (isProblem _ _ _); [|apply IH].
  destruct (handleOverlap_terminates symbol curr driver isNet isUWire isUDNT
              nt st Hnt) as (b & st1 & Hrun).
  unfold mbind, M_bind. rewrite Hrun.
  destruct b; [apply IH|by eexists].
Qed.

End Reporting.

(** ** What [addDriver] does, case by case *)

Section AddDriver.
Context {design : Design}.

Lemma checkOverlaps_reportsOnly symbol driverMap driver bounds :
  reportsOnly (checkOverlaps symbol driverMap driver bounds).
Proof. apply overlapLoop_reportsOnly. Qed.

Lemma checkOverlaps_run symbol driverMap driver bounds st :
  checkOverlaps symbol driverMap driver bounds st
  = Done (tt, appendDiags st
                (overlapDiagnostics symbol driverMap driver bounds)).
Proof.
  rewrite (checkOverlaps_reportsOnly symbol driverMap driver bounds st).
  unfold overlapDiagnostics.
  destruct (overlapLoop_terminates symbol driver
    ((VariableSymbol_isKind (symKind symbol)
      && bool_decide (lifetime symbol = VariableLifetime.Static))
     || (bool_decide (symKind symbol = SymbolKind.Net)
         && bool_decide (netKind (netTypeOf symbol) = NetKind.UWire))
     || (bool_decide (symKind symbol = SymbolKind.Net)
         && bool_decide (netKind (netTypeOf symbol) = NetKind.UserDefined)
         && negb (hasResolutionFunction (netTypeOf symbol)))
     || bool_decide (symKind symbol = SymbolKind.LocalAssertionVar))
    (bool_decide (symKind symbol = SymbolKind.Net))
    (bool_decide (symKind symbol = SymbolKind.Net)
     && bool_decide (netKind (netTypeOf symbol) = NetKind.UWire))
    (bool_decide (symKind symbol = SymbolKind.Net)
     && bool_decide (netKind (netTypeOf symbol) = NetKind.UserDefined)
     && negb (hasResolutionFunction (netTypeOf symbol)))
    (if bool_decide (symKind symbol = SymbolKind.Net)
     then Some (netTypeOf symbol) else None)
    (IntervalMap.find bounds driverMap) emptyTracker) as [e He].
  { destruct (bool_decide (symKind symbol = SymbolKind.Net)); [eauto|done]. }
  unfold checkOverlaps. rewrite He. by destruct e.
Qed.

Lemma overlapDiagnostics_nil symbol driver bounds :
  overlapDiagnostics symbol [] driver bounds = [].
Proof. reflexivity. Qed.

(** The four ways through [addDriver]. *)
Lemma addDriver_run symbol driverMap driver bounds st :
  addDriver symbol driverMap driver bounds st =
  if isClass symbol then Done ((None, driverMap), st)
  else
    match getParentScope symbol with
    | None => Failed AssertScope
    | Some scope =>
        if bool_decide (symKind symbol = SymbolKind.ModportPort)
        then Done ((ifacePortRefOf driver, driverMap),
                   recordedModport st symbol driver bounds)
        else
          Done ((ifacePortRefOf driver,
                 IntervalMap.insert bounds driver
                   (withInitializer symbol scope driverMap)),
                appendDiags st
                  (overlapDiagnostics symbol
                     (withInitializer symbol scope driverMap) driver bounds))
    end.
Proof.
  unfold addDriver. destruct (isClass symbol); [done|].
  destruct (getParentScope symbol) as [scope|]; [|done].
  case_bool_decide; [done|].
  unfold withInitializer.
  destruct (IntervalMap.empty driverMap) eqn:Hempty; simpl.
  - destruct (IntervalMap.empty (synthesizeInitializer _ _ _)) eqn:Hsyn.
    + destruct (synthesizeInitializer symbol scope driverMap); [|done].
      rewrite overlapDiagnostics_nil. unfold mret, M_ret.
      by rewrite appendDiags_nil.
    + unfold mbind, M_bind. by rewrite checkOverlaps_run.
  - unfold mbind, M_bind. by rewrite checkOverlaps_run.
Qed.

End AddDriver.

(** ** C1: the port coercion report and the order of insertion *)


(** C1.  On a plain net driven by its input port and by one continuous
    assignment, the code reports [InputPortCoercion] when the port's driver
    is stored first and [OutputPortCoercion] when it is stored second: the
    code chosen by [handleOverlap] looks at the flags of the stored driver
    only, so it depends on the order of insertion. *)
Lemma handleOverlap_code_depends_on_order :
  reported (Scenario.portThenAssign emptyTracker) = [InputPortCoercion]
  ∧ reported (Scenario.assignThenPort emptyTracker)
    = [OutputPortCoercion].
Proof. split; vm_compute; reflexivity. Qed.

(** ** C2: initializer of a plain net and one continuous assignment *)

Section PlainNet.
Context {design : Design}.


Lemma find_Forall (P : ValueDriver → Prop) bounds (m : IntervalMap.t) :
  Forall P m.*2 → Forall P (IntervalMap.find bounds m).
Proof.
  unfold IntervalMap.find. rewrite !Forall_fmap, !Forall_forall.
  intros H e He. apply H. by apply list_elem_of_filter in He as [_ He].
Qed.

(** A scan that meets no problem changes nothing. *)
Lemma overlapLoop_no_problem symbol driver checkOverlap isNet isUWire isUDNT
    nt entries st :
  Forall (λ curr, isProblem checkOverlap curr driver = false) entries →
  overlapLoop symbol driver checkOverlap isNet isUWire isUDNT nt entries st
  = Done (tt, st).
Proof.
  induction 1 as [|curr rest Hcurr _ IH]; simpl; [done|].
  by rewrite Hcurr.
Qed.

(** C2 (amended).  The first driver of a net with an initializer gets a
    [Continuous], [Initializer]-flagged driver over [0, width-1] stored
    before it; when the net is neither a uwire nor a user-defined net
    without resolution function, and the new driver is not a unidirectional
    port, the two are stored side by side and nothing is reported. *)
Theorem plain_net_initializer_is_not_reported
    symbol scope driver bounds st :
  symKind symbol = SymbolKind.Net →
  isClass symbol = false →
  getParentScope symbol = Some scope →
  is_Some (getInitializer symbol) →
  netKind (netTypeOf symbol) ≠ NetKind.UWire →
  (netKind (netTypeOf symbol) = NetKind.UserDefined →
   hasResolutionFunction (netTypeOf symbol) = true) →
  isUnidirectionalPort driver = false →
  addDriver symbol [] driver bounds st
  = Done ((ifacePortRefOf driver,
           [((0, getSelectableWidth symbol - 1),
             initializerDriver symbol scope DriverKind.Continuous);
            (bounds, driver)]), st).
Proof.
  intros Hkind Hclass Hscope [init Hinit] Huwire Hudnt Hport.
  unfold addDriver, checkOverlaps. rewrite Hclass, Hscope, Hkind. simpl.
  unfold synthesizeInitializer. rewrite Hkind, Hinit. simpl.
  rewrite (bool_decide_eq_false_2 _ Huwire). simpl.
  assert (Hu : bool_decide (netKind (netTypeOf symbol) = NetKind.UserDefined)
               && negb (hasResolutionFunction (netTypeOf symbol)) = false).
  { case_bool_decide as Hk; [|done]. by rewrite (Hudnt Hk). }
  rewrite Hu. simpl.
  unfold mbind, M_bind. rewrite overlapLoop_no_problem; [reflexivity|].
  apply find_Forall. repeat constructor. simpl.
  unfold isProblem. rewrite Hport. reflexivity.
Qed.

End PlainNet.

(** C2, as stated, fails: on [wire [3:0] n = 4'b0;] followed by
    [assign n = 4'b1;] the initializer's continuous driver is stored over
    [0,3] before the explicit one, and no [MultipleContAssigns] is
    reported. *)
Lemma initializer_plus_assign_reports_nothing :
  (∃ st,
     Scenario.initializerPlusAssign emptyTracker = Done (tt, st)
     ∧ getDrivers st Demo.n
       = [(initializerDriver Demo.n Demo.body DriverKind.Continuous, (0, 3));
          (Scenario.assignNDriver, (0, 3))])
  ∧ MultipleContAssigns ∉ reported (Scenario.initializerPlusAssign emptyTracker).
Proof.
  split.
  - eexists. split; vm_compute; reflexivity.
  - vm_compute. apply not_elem_of_nil.
Qed.

Lemma plain_net_initializer_witness :
  addDriver Demo.n [] Scenario.assignNDriver (0, 3) emptyTracker
  = Done ((None,
           [((0, 3), initializerDriver Demo.n Demo.body DriverKind.Continuous);
            ((0, 3), Scenario.assignNDriver)]), emptyTracker).
Proof.
  apply (plain_net_initializer_is_not_reported
           (design := Demo.design) Demo.n Demo.body Scenario.assignNDriver
           (0, 3) emptyTracker);
    [reflexivity | reflexivity | reflexivity | by eexists | discriminate
    | discriminate | reflexivity].
Defined.

(** ** C6: when an initializer driver is synthesized *)

Section Initializer.
Context {design : Design}.

(** C6 (amended).  For a symbol whose declared type is not a class type,
    [addDriver] returns whenever the symbol has a parent scope, and the
    entry it returns starts with a synthesized [Initializer] driver over
    [0, selectableWidth-1] ([Continuous] for a net, [Procedural] for a
    variable, class property or field), stored before the incoming driver,
    exactly when the entry was empty, the symbol has an initializer and its
    kind is one of those four; otherwise the entry only gains the incoming
    driver, or nothing for a modport port. *)
Theorem initializer_synthesized_iff symbol scope driverMap driver bounds st :
  isClass symbol = false →
  getParentScope symbol = Some scope →
  ∃ r st',
    addDriver symbol driverMap driver bounds st = Done (r, st') ∧
    if IntervalMap.empty driverMap
       && bool_decide (is_Some (getInitializer symbol))
       && bool_decide (symKind symbol ∈ [SymbolKind.Net; SymbolKind.Variable_;
                                         SymbolKind.ClassProperty;
                                         SymbolKind.Field])
    then
      r.2 = [((0, getSelectableWidth symbol - 1),
              initializerDriver symbol scope
                (if bool_decide (symKind symbol = SymbolKind.Net)
                 then DriverKind.Continuous else DriverKind.Procedural));
             (bounds, driver)]
    else
      r.2 = IntervalMap.insert bounds driver driverMap
      ∨ (symKind symbol = SymbolKind.ModportPort ∧ r.2 = driverMap).
Proof.
  intros Hclass Hscope. rewrite addDriver_run, Hclass, Hscope.
  case_bool_decide as Hmodport.
  { eexists _, _. split; [reflexivity|]. rewrite Hmodport. simpl.
    rewrite andb_false_r. by right. }
  eexists _, _. split; [reflexivity|]. simpl.
  unfold withInitializer, synthesizeInitializer.
  destruct driverMap as [|e driverMap]; simpl; [|by left].
  destruct (getInitializer symbol) as [init|] eqn:Hinit; simpl.
  - destruct (symKind symbol); simpl; try (by left); reflexivity.
  - left. by destruct (symKind symbol).
Qed.

End Initializer.

(** C6, as stated, fails: the class handle [c] is a variable with an
    initializer and its entry is empty, yet no driver is synthesized (nor
    is the incoming one stored). *)
Lemma class_typed_variable_gets_no_initializer_driver :
  symKind Demo.c = SymbolKind.Variable_
  ∧ is_Some (getInitializer Demo.c)
  ∧ addDriver Demo.c [] Scenario.assignCDriver (0, 0) emptyTracker
    = Done ((None, []), emptyTracker).
Proof. split; [reflexivity|]. split; [by eexists|]. reflexivity. Qed.

Lemma initializer_synthesized_witness :
  ∃ r st',
    addDriver Demo.n [] Scenario.assignNDriver (0, 3) emptyTracker
    = Done (r, st')
    ∧ r.2 = [((0, 3), initializerDriver Demo.n Demo.body DriverKind.Continuous);
             ((0, 3), Scenario.assignNDriver)].
Proof.
  exact (initializer_synthesized_iff (design := Demo.design) Demo.n Demo.body
           [] Scenario.assignNDriver (0, 3) emptyTracker eq_refl eq_refl).
Defined.

(** ** C3: drivers from side effects *)

Section SideEffects.
Context {design : Design}.

Lemma addDriver_sideEffect s m d b st :
  isFromSideEffect d = true →
  match addDriver s m d b st with
  | Done (r, st') => r.1 = None ∧ instanceMap st' = instanceMap st
  | Failed site => site = AssertScope
  | OutOfFuel => False
  end.
Proof.
  intros Hd. rewrite addDriver_run.
  assert (Href : ifacePortRefOf d = None).
  { unfold ifacePortRefOf. by rewrite Hd. }
  destruct (isClass s); [done|].
  destruct (getParentScope s); [|done].
  case_bool_decide; simpl; by rewrite Href.
Qed.

Lemma addDriverList_sideEffect s ds :
  Forall (λ db, isFromSideEffect db.1 = true) ds →
  ∀ m st,
    match addDriverList s ds m st with
    | Done (r, st') => r.1 = [] ∧ instanceMap st' = instanceMap st
    | Failed site => site = AssertScope
    | OutOfFuel => False
    end.
Proof.
  induction 1 as [|[d b] ds Hd _ IH]; intros m st; simpl; [done|].
  unfold mbind, M_bind.
  pose proof (addDriver_sideEffect s m d b st Hd) as H.
  destruct (addDriver s m d b st) as [[r st1]|site|]; [|done..].
  destruct H as [Hr Hst1]. specialize (IH r.2 st1).
  destruct (addDriverList s ds r.2 st1) as [[more st2]|site|]; [|done..].
  simpl. rewrite Hr. by destruct IH as [-> ->].
Qed.

Lemma collectVisits_sideEffect drivers :
  Forall (λ sd, Forall (λ db, isFromSideEffect db.1 = true) sd.2) drivers →
  ∀ st,
    match collect drivers
            (λ '(valueSym, ds),
               try_emplace_and_visit valueSym (addDriverList valueSym ds))
            st with
    | Done (refs, st') => refs = [] ∧ instanceMap st' = instanceMap st
    | Failed site => site = AssertScope
    | OutOfFuel => False
    end.
Proof.
  induction 1 as [|[s ds] drivers Hds _ IH]; intros st; simpl; [done|].
  unfold try_emplace_and_visit, mbind, M_bind, get.
  pose proof (addDriverList_sideEffect s ds Hds (entryOf st s) st) as H.
  destruct (addDriverList s ds (entryOf st s) st) as [[r st1]|site|];
    [|done..].
  simpl. destruct H as [Hr Hst1].
  specialize (IH (setEntry st1 s r.2)).
  destruct (collect drivers _ (setEntry st1 s r.2)) as [[later st2]|site|];
    [|done..].
  destruct IH as [-> Hst2]. simpl. rewrite Hr. split; [done|].
  by rewrite Hst2.
Qed.

(** Re-projection makes its drivers anew: none carries the flag. *)
Lemma projectedDrivers_unflagged conn d t d' :
  (t, d') ∈ projectedDrivers conn d → isFromSideEffect d' = false.
Proof.
  unfold projectedDrivers. intros Hin.
  apply list_elem_of_omap in Hin as ([[t0 lsp] isLValue] & _ & Hsome).
  destruct isLValue; [|done]. by injection Hsome as <- <-.
Qed.

(** C3 (amended).  A driver whose [isFromSideEffect] is set skips the
    pre-scan, whatever its prefix expression: [addDriver] hands back no
    hierarchical reference for it and leaves the instance map as it was.  So
    [applyInstanceSideEffect], whose clone always carries the flag, never
    trips its assertion that no reference came back, never reaches
    [noteInterfacePortDriver] (it needs fuel for the walk of
    [retargetIfacePort] only) and leaves the instance map as it was; and a
    driver list made of such drivers goes through [add(procedure)] without a
    single call of [noteInterfacePortDriver] (no fuel is needed) and without
    a change of the instance map.  The flag stays with the driver that
    carries it: the drivers that re-projection makes of a flagged driver
    recorded against a modport port do not carry it. *)
Theorem side_effect_driver_is_not_noted_itself
    symbol driverMap driver bounds st :
  isFromSideEffect driver = true →
  ifacePortRefOf driver = None
  ∧ match addDriver symbol driverMap driver bounds st with
    | Done (r, st') => r.1 = None ∧ instanceMap st' = instanceMap st
    | Failed site => site = AssertScope
    | OutOfFuel => False
    end
  ∧ (∀ fuel ifacePortDriver instance st0,
       isFromSideEffect (cloneForInstance ifacePortDriver.2 instance) = true
       ∧ match applyInstanceSideEffect fuel ifacePortDriver instance st0 with
         | Done (_, st') => instanceMap st' = instanceMap st0
         | Failed site => site ≠ AssertNoRef
         | OutOfFuel =>
             Retarget.retargetIfacePort fuel ifacePortDriver.1 instance
             = Retarget.NoFuel
         end)
  ∧ (∀ drivers st0,
       Forall (λ sd, Forall (λ db, isFromSideEffect db.1 = true) sd.2)
              drivers →
       match add_procedure 0 drivers st0 with
       | Done (_, st') => instanceMap st' = instanceMap st0
       | Failed site => site = AssertScope
       | OutOfFuel => False
       end)
  ∧ (∀ conn t d',
       (t, d') ∈ projectedDrivers conn driver →
       isFromSideEffect d' = false).
Proof.
  intros Hflag.
  split; [unfold ifacePortRefOf; by rewrite Hflag|].
  split; [by apply addDriver_sideEffect|]. split; [|split].
  - intros fuel [ref d] instance st0. split; [reflexivity|].
    unfold applyInstanceSideEffect. simpl.
    destruct (Retarget.retargetIfacePort fuel ref instance)
      as [[target|]| | |]; [|done..].
    destruct (getBounds _ _ _) as [b|]; [|done].
    unfold try_emplace_and_visit, mbind, M_bind, get.
    pose proof (addDriver_sideEffect target (entryOf st0 target)
                  (cloneForInstance d instance) b st0 eq_refl) as Hadd.
    destruct (addDriver _ _ _ _ st0) as [[r st1]|site|]; [|by subst|done].
    destruct Hadd as [Hr Hinst]. rewrite Hr. simpl. by rewrite <- Hinst.
  - intros drivers st0 Hall. unfold add_procedure, mbind, M_bind.
    pose proof (collectVisits_sideEffect drivers Hall st0) as H.
    destruct (collect drivers _ st0) as [[refs st1]|site|]; [|done..].
    destruct H as [-> Hst1]. exact Hst1.
  - intros conn t d'. apply projectedDrivers_unflagged.
Qed.

End SideEffects.

(** On the driver of [p.x] the flag decides: the pre-scan finds the
    reference [p.x] for the driver, and nothing for its clone. *)
Lemma side_effect_driver_witness :
  ifacePortRefOf (design := Shared.design) Shared.driver = Some Shared.ref
  ∧ ifacePortRefOf (design := Shared.design)
      (cloneForInstance Shared.driver Shared.m2) = None
  ∧ match addDriver (design := Shared.design) Shared.x []
            (cloneForInstance Shared.driver Shared.m2) (0, 0) emptyTracker with
    | Done (r, st') => r.1 = None ∧ instanceMap st' = instanceMap emptyTracker
    | Failed site => site = AssertScope
    | OutOfFuel => False
    end.
Proof.
  split; [reflexivity|].
  destruct (side_effect_driver_is_not_noted_itself (design := Shared.design)
              Shared.x [] (cloneForInstance Shared.driver Shared.m2) (0, 0)
              emptyTracker eq_refl)
    as (H1 & H2 & _).
  exact (conj H1 H2).
Defined.

(** C3, as stated, fails: a side-effect driver can cause
    [noteInterfacePortDriver] to run and a second fan-out to happen.  Adding
    the procedure that assigns [p.y] makes [applyInstanceSideEffect] record
    a clone for [m2] against the modport port [y] of the interface; the
    clone carries the flag.  [propagateModportDrivers] re-submits it through
    the connection [r.t] of that port as a new driver without the flag,
    which is noted under the body of the interface and cloned in turn for
    the instance [i2]. *)
Lemma side_effect_clone_is_noted_after_propagation :
  (noteNonCanonicalInstance (design := Cascade.design) 1 Cascade.m2;;
   noteNonCanonicalInstance (design := Cascade.design) 1 Cascade.i2;;
   add_procedure (design := Cascade.design) 2 Cascade.procedureDrivers)
    emptyTracker
  = Done (tt, Cascade.noted)
  ∧ isFromSideEffect Cascade.clone = true
  ∧ modportPortDrivers Cascade.noted !! Cascade.y2
    = Some [(Cascade.clone, (0, 0))]
  ∧ instanceMap Cascade.noted !! Cascade.ifaceBody
    = Some (mkInstanceState [Cascade.i2] [])
  ∧ ∃ st',
      propagateModportDrivers (design := Cascade.design) 2 Cascade.noted
      = Done (tt, st')
      ∧ instanceMap st' !! Cascade.ifaceBody
        = Some (mkInstanceState [Cascade.i2]
                  [(Cascade.ref2, Cascade.projected)])
      ∧ containingSymbol Cascade.projected = Cascade.m2
      ∧ getDrivers st' Cascade.t2 = [(Cascade.secondClone, (0, 0))].
Proof.
  split; [vm_compute; reflexivity|]. split; [reflexivity|].
  split; [vm_compute; reflexivity|]. split; [vm_compute; reflexivity|].
  eexists. split; [vm_compute; reflexivity|].
  split; [vm_compute; reflexivity|]. split; vm_compute; reflexivity.
Qed.

(** ** Entries without connection expression *)

Section Drained.
Context {design : Design}.

Lemma forEach_skip {A} (xs : list A) (body : A → M unit) st :
  (∀ x, x ∈ xs → body x st = Done (tt, st)) →
  forEach xs body st = Done (tt, st).
Proof.
  induction xs as [|x xs IH]; intros Hbody; [done|]. simpl.
  unfold mbind, M_bind. rewrite (Hbody x) by by left.
  apply IH. intros z Hz. apply Hbody. by right.
Qed.

(** A pass over entries whose modport ports have no connection expression
    drops them without any effect. *)
Lemma propagatePass_unconnected fuel localCopy st :
  (∀ s ds, localCopy !! s = Some ds → getConnectionExpr s = None) →
  propagatePass fuel localCopy st = Done (tt, st).
Proof.
  intros Hnone. unfold propagatePass. apply forEach_skip.
  intros [s ds] Hin. apply elem_of_map_to_list in Hin. simpl.
  by rewrite (Hnone s ds Hin).
Qed.

End Drained.

(** ** Invariants of the tracker

    A property [Inv] of the tracker that survives the elementary updates
    survives every operation, provided the drivers that are stored satisfy
    [StoreOk] and the references that are noted satisfy [RefOk]. *)

Lemma setEntry_setEntry st k m1 m2 :
  setEntry (setEntry st k m1) k m2 = setEntry st k m2.
Proof. unfold setEntry. simpl. by rewrite insert_insert_eq. Qed.

Lemma entryOf_setEntry st k m : entryOf (setEntry st k m) k = m.
Proof. unfold entryOf, setEntry. simpl. by rewrite lookup_insert_eq. Qed.

Lemma entryOf_setEntry_ne st k k' m :
  k ≠ k' → entryOf (setEntry st k m) k' = entryOf st k'.
Proof. intros. unfold entryOf, setEntry. simpl. by rewrite lookup_insert_ne. Qed.

Lemma setEntry_appendDiags st k m ds :
  setEntry (appendDiags st ds) k m = appendDiags (setEntry st k m) ds.
Proof. reflexivity. Qed.

Lemma setEntry_withModportPortDrivers st k m mp :
  setEntry (withModportPortDrivers st mp) k m
  = withModportPortDrivers (setEntry st k m) mp.
Proof. reflexivity. Qed.

Section Invariant.
Context {design : Design}.
Context (Inv : Tracker → Prop).
Context (StoreOk : Symbol → ValueDriver → Prop).
Context (RefOk : HierarchicalReference → ValueDriver → Prop).

Hypothesis Inv_touch : ∀ st s, Inv st → Inv (setEntry st s (entryOf st s)).
Hypothesis Inv_store : ∀ st s scope d b,
  Inv st → StoreOk s d → isClass s = false → getParentScope s = Some scope →
  symKind s ≠ SymbolKind.ModportPort →
  Inv (setEntry st s
         (IntervalMap.insert b d (withInitializer s scope (entryOf st s)))).
Hypothesis Inv_record : ∀ st s d b,
  Inv st → StoreOk s d → isClass s = false →
  symKind s = SymbolKind.ModportPort →
  Inv (recordedModport st s d b).
Hypothesis Inv_diags : ∀ st ds, Inv st → Inv (appendDiags st ds).
Hypothesis Inv_instance : ∀ st k v, Inv st → Inv (setInstance st k v).

Hypothesis Ref_clone : ∀ fuel ref d instance t,
  RefOk ref d →
  Retarget.retargetIfacePort fuel ref instance = Retarget.Returns (Some t) →
  StoreOk t (cloneForInstance d instance).
Hypothesis Ref_join : ∀ ref d port sel rest connRef sr,
  RefOk ref d → path ref = (port, sel) :: rest →
  getConnectionAndExpr port = Some (ArbitrarySymbol connRef sr) →
  isViaIfacePort connRef = true →
  RefOk (join connRef ref) d.
Hypothesis Store_ref : ∀ s d ref,
  StoreOk s d → ifacePortRefOf d = Some ref → RefOk ref d.

(** While a visitor runs over the entry of [s], the entry it holds is not
    yet written back: the invariant is stated on the state with the entry
    in place. *)
Lemma addDriver_preserves s m d b :
  StoreOk s d →
  hoare (λ st, Inv (setEntry st s m)) (addDriver s m d b)
        (λ r st', Inv (setEntry st' s r.2)
                  ∧ (r.1 = None ∨ r.1 = ifacePortRefOf d)).
Proof.
  intros Hok st HInv. rewrite addDriver_run.
  destruct (isClass s) eqn:Hclass; [by auto|].
  destruct (getParentScope s) as [scope|] eqn:Hscope; [|done].
  case_bool_decide as Hmodport; simpl.
  - split; [|by right].
    unfold recordedModport. rewrite setEntry_withModportPortDrivers.
    by apply (Inv_record (setEntry st s m) s d b).
  - split; [|by right].
    rewrite setEntry_appendDiags. apply Inv_diags.
    rewrite <- (setEntry_setEntry st s m).
    rewrite <- (entryOf_setEntry st s m) at 2.
    by apply Inv_store.
Qed.

Lemma visit_preserves {A} s (f : IntervalMap.t → M (A * IntervalMap.t))
    (Q : A → Prop) :
  (∀ m, hoare (λ st, Inv (setEntry st s m)) (f m)
              (λ r st', Inv (setEntry st' s r.2) ∧ Q r.1)) →
  hoare Inv (try_emplace_and_visit s f) (λ a st, Inv st ∧ Q a).
Proof.
  intros Hf st HInv. unfold try_emplace_and_visit, mbind, M_bind, get.
  specialize (Hf (entryOf st s) st (Inv_touch st s HInv)).
  destruct (f (entryOf st s) st) as [[r st1]| |]; [|done..].
  exact Hf.
Qed.

Lemma applyInstanceSideEffect_preserves fuel ref d instance :
  RefOk ref d →
  hoare Inv (applyInstanceSideEffect fuel (ref, d) instance) (λ _, Inv).
Proof.
  intros Hok. unfold applyInstanceSideEffect. simpl.
  destruct (Retarget.retargetIfacePort fuel ref instance)
    as [[t|]| | |] eqn:Ht;
    [|by apply triple_ret|by apply triple_failWith..
     |by apply triple_outOfFuel].
  destruct (getBounds _ _ _) as [b|]; [|by apply triple_ret].
  eapply triple_weaken;
    [apply (visit_preserves t _ (λ _, True))| done | by intros ? ? [? _]].
  intros m. eapply triple_bind.
  - apply addDriver_preserves. by eapply Ref_clone.
  - intros r. simpl. eapply triple_bind.
    + apply triple_assert. done.
    + intros u. apply triple_ret. by intros st [[H _] _].
Qed.

Lemma noteInterfacePortDriver_preserves fuel ref d :
  RefOk ref d →
  hoare Inv (noteInterfacePortDriver fuel ref d) (λ _, Inv).
Proof.
  revert ref. induction fuel as [|fuel IH]; intros ref Hok; simpl.
  { by apply triple_outOfFuel. }
  do 3 apply hoare_assert_seq.
  destruct (path ref) as [|[port sel] rest] eqn:Hpath;
    [by apply triple_failWith|].
  destruct (getParentScope port) as [symbol|]; [|by apply triple_failWith].
  apply hoare_assert_seq.
  apply triple_get_bind. intros st0 Hst0.
  eapply (triple_seq _ _ _ Inv).
  { apply triple_setInstanceState. intros st ->. by apply Inv_instance. }
  eapply (triple_seq _ _ _ Inv).
  { apply triple_forEach. intros instance _.
    by apply applyInstanceSideEffect_preserves. }
  destruct (getConnectionAndExpr port) as [[]|] eqn:Hconn;
    try (by apply triple_ret).
  destruct (isViaIfacePort hierRef) eqn:Hvia; [|by apply triple_ret].
  apply IH. by eapply Ref_join.
Qed.

Lemma noteAll_preserves fuel refs :
  Forall (λ rd, RefOk rd.1 rd.2) refs →
  hoare Inv (noteAll fuel refs) (λ _, Inv).
Proof.
  intros Hrefs. apply triple_forEach. intros [ref d] Hin.
  apply noteInterfacePortDriver_preserves.
  by apply (proj1 (Forall_forall _ _) Hrefs (ref, d)).
Qed.

Lemma addDrivers_preserves fuel expr k fl containing initialLSP :
  (∀ s lsp, (s, lsp, true) ∈ visitLSPs expr containing initialLSP →
            StoreOk s (newValueDriver k lsp containing fl)) →
  hoare Inv (addDrivers fuel expr k fl containing initialLSP) (λ _, Inv).
Proof.
  intros Hok. unfold addDrivers.
  eapply triple_bind.
  - apply (triple_collect _ _ Inv (λ rd, RefOk rd.1 rd.2)).
    intros [[s lsp] isLValue] Hin.
    destruct isLValue; simpl; [|apply triple_ret; by intros].
    destruct (getBounds lsp containing s) as [b|];
      [|apply triple_ret; by intros].
    apply visit_preserves. intros m.
    eapply triple_bind; [apply addDriver_preserves; by apply Hok|].
    intros r. apply triple_ret. intros st [HInv Href]. split; [done|].
    simpl. destruct (r.1) as [ref|] eqn:Hr; [|done].
    repeat constructor. simpl. destruct Href as [?|Href]; [done|].
    eapply Store_ref; [by apply Hok|]. by rewrite <- Href.
  - intros refs. intros st [HInv Hrefs].
    by apply noteAll_preserves.
Qed.

Lemma addDriverList_preserves s ds m :
  Forall (λ db, StoreOk s db.1) ds →
  hoare (λ st, Inv (setEntry st s m)) (addDriverList s ds m)
        (λ r st', Inv (setEntry st' s r.2)
                  ∧ Forall (λ rd, RefOk rd.1 rd.2) r.1).
Proof.
  intros Hds. revert m.
  induction Hds as [|[d b] ds Hd Hds IH]; intros m; simpl.
  { apply triple_ret. by intros. }
  eapply triple_bind; [by apply addDriver_preserves|].
  intros r. simpl.
  intros st [HInv Href].
  specialize (IH (r.2) st HInv). unfold mbind, M_bind.
  destruct (addDriverList s ds r.2 st) as [[more st1]| |]; [|done..].
  destruct IH as [HInv1 Hmore]. simpl. split; [done|].
  destruct (r.1) as [ref|] eqn:Hr; [|done].
  constructor; [|done]. simpl. destruct Href as [?|Href]; [done|].
  eapply Store_ref; [exact Hd|]. by rewrite <- Href.
Qed.

Lemma add_procedure_preserves fuel drivers :
  Forall (λ sd, Forall (λ db, StoreOk sd.1 db.1) sd.2) drivers →
  hoare Inv (add_procedure fuel drivers) (λ _, Inv).
Proof.
  intros Hok. unfold add_procedure. eapply triple_bind.
  - apply (triple_collect _ _ Inv (λ rd, RefOk rd.1 rd.2)).
    intros [s ds] Hin. apply visit_preserves. intros m.
    apply addDriverList_preserves.
    by apply (proj1 (Forall_forall _ _) Hok (s, ds)).
  - intros refs st [HInv Hrefs]. by apply noteAll_preserves.
Qed.

Lemma addDriverListNoRef_preserves s ds m :
  Forall (λ db, StoreOk s db.1) ds →
  hoare (λ st, Inv (setEntry st s m)) (addDriverListNoRef s ds m)
        (λ r st', Inv (setEntry st' s r.2) ∧ True).
Proof.
  intros Hds. revert m.
  induction Hds as [|[d b] ds Hd Hds IH]; intros m; simpl.
  { apply triple_ret. by intros. }
  eapply triple_bind; [by apply addDriver_preserves|].
  intros r. simpl. apply hoare_assert_seq.
  eapply triple_weaken; [apply (IH r.2)| by intros st [? _] | done].
Qed.

Lemma add_symbolDriverList_preserves drivers :
  Forall (λ sd, Forall (λ db, StoreOk sd.1 db.1) sd.2) drivers →
  hoare Inv (add_symbolDriverList drivers) (λ _, Inv).
Proof.
  intros Hok. unfold add_symbolDriverList. apply triple_forEach.
  intros [s ds] Hin.
  eapply triple_weaken;
    [apply (visit_preserves s _ (λ _, True))| done | by intros ? ? [? _]].
  intros m. apply addDriverListNoRef_preserves.
  by apply (proj1 (Forall_forall _ _) Hok (s, ds)).
Qed.

Lemma noteNonCanonicalInstance_preserves fuel instance :
  (∀ st k v, Inv st → instanceMap st !! k = Some v →
             Forall (λ rd, RefOk rd.1 rd.2) (ifacePortDrivers v)) →
  hoare Inv (noteNonCanonicalInstance fuel instance) (λ _, Inv).
Proof.
  intros Hrefs. unfold noteNonCanonicalInstance.
  destruct (getCanonicalBody instance) as [canonical|];
    [|by apply triple_failWith].
  apply triple_get_bind. intros st0 Hst0.
  eapply (triple_seq _ _ _ Inv).
  { apply triple_setInstanceState. intros st ->. by apply Inv_instance. }
  apply triple_forEach. intros [ref d] Hin.
  apply applyInstanceSideEffect_preserves.
  destruct (instanceMap st0 !! canonical) as [v|] eqn:Hv; simpl in Hin.
  - by apply (proj1 (Forall_forall _ _) (Hrefs st0 canonical v Hst0 Hv)
                     (ref, d)).
  - by apply elem_of_nil in Hin.
Qed.

Lemma elem_of_projectedDrivers conn d t lsp :
  (t, lsp, true) ∈ visitLSPs conn (containingSymbol d)
                     (glueOuterSelect conn (prefixExpression d)) →
  (t, newValueDriver (kind d) lsp (containingSymbol d) (flags d))
    ∈ projectedDrivers conn d.
Proof.
  intros Hin. unfold projectedDrivers. apply list_elem_of_omap.
  exists (t, lsp, true). by split.
Qed.

Lemma propagateModportDriver_preserves fuel conn d :
  (∀ t d', (t, d') ∈ projectedDrivers conn d → StoreOk t d') →
  hoare Inv (propagateModportDriver fuel conn d) (λ _, Inv).
Proof.
  intros Hok. unfold propagateModportDriver.
  apply addDrivers_preserves. intros t lsp Hin.
  apply Hok. by apply elem_of_projectedDrivers.
Qed.

Lemma propagatePass_preserves fuel localCopy :
  (∀ s ds conn d b t d',
     localCopy !! s = Some ds → getConnectionExpr s = Some conn →
     (d, b) ∈ ds → (t, d') ∈ projectedDrivers conn d → StoreOk t d') →
  hoare Inv (propagatePass fuel localCopy) (λ _, Inv).
Proof.
  intros Hok. unfold propagatePass. apply triple_forEach.
  intros [s ds] Hin. simpl. apply elem_of_map_to_list in Hin.
  destruct (getConnectionExpr s) as [conn|] eqn:Hconn;
    [|by apply triple_ret].
  apply triple_forEach. intros [d b] Hd. simpl.
  apply propagateModportDriver_preserves. intros t d' Ht.
  by eapply Hok.
Qed.

Lemma propagateModportDrivers_preserves fuel :
  (∀ st, Inv st → Inv (withModportPortDrivers st ∅)) →
  (∀ s conn d t d',
     getConnectionExpr s = Some conn →
     (t, d') ∈ projectedDrivers conn d → StoreOk t d') →
  hoare Inv (propagateModportDrivers fuel) (λ _, Inv).
Proof.
  intros Hclear Hok. induction fuel as [|fuel IH]; simpl.
  { by apply triple_outOfFuel. }
  apply triple_get_bind. intros st0 Hst0.
  eapply (triple_seq _ _ _ Inv).
  { apply triple_setModportPortDrivers. intros st ->. by apply Hclear. }
  case_bool_decide; [by apply triple_ret|].
  eapply (triple_seq _ _ _ Inv); [|exact IH].
  apply propagatePass_preserves. intros s ds conn d b t d' _ Hconn _ Ht.
  by eapply Hok.
Qed.

End Invariant.

(** ** No driver on class-typed symbols and modport ports *)

Section Protected.
Context {design : Design}.

Lemma protectedEmpty_preserved fuel op :
  hoare protectedEmpty (runOperation fuel op) (λ _, protectedEmpty).
Proof.
  assert (Htouch : ∀ st s, protectedEmpty st →
                           protectedEmpty (setEntry st s (entryOf st s))).
  { intros st s [H1 H2]. split; [|done]. intros s' Hs'.
    destruct (decide (s = s')) as [->|Hne].
    - rewrite entryOf_setEntry. by apply H1.
    - rewrite entryOf_setEntry_ne by done. by apply H1. }
  assert (Hstore : ∀ st s scope d b,
            protectedEmpty st → True → isClass s = false →
            getParentScope s = Some scope →
            symKind s ≠ SymbolKind.ModportPort →
            protectedEmpty
              (setEntry st s
                 (IntervalMap.insert b d
                    (withInitializer s scope (entryOf st s))))).
  { intros st s scope d b [H1 H2] _ Hclass _ Hmodport. split; [|done].
    intros s' Hs'. destruct (decide (s = s')) as [->|Hne].
    - destruct Hs' as [Hs'|Hs']; congruence.
    - rewrite entryOf_setEntry_ne by done. by apply H1. }
  assert (Hrecord : ∀ st s d b,
            protectedEmpty st → True → isClass s = false →
            symKind s = SymbolKind.ModportPort →
            protectedEmpty (recordedModport st s d b)).
  { intros st s d b [H1 H2] _ Hclass _. split; [done|].
    intros s' Hs'. simpl. rewrite lookup_insert_ne; [by apply H2|].
    congruence. }
  assert (Hdiags : ∀ st ds, protectedEmpty st →
                            protectedEmpty (appendDiags st ds)) by done.
  assert (Hinst : ∀ st k v, protectedEmpty st →
                            protectedEmpty (setInstance st k v)) by done.
  assert (Hadd : ∀ fuel expr k fl containing initialLSP,
            hoare protectedEmpty
                  (addDrivers fuel expr k fl containing initialLSP)
                  (λ _, protectedEmpty)).
  { intros. by apply (addDrivers_preserves protectedEmpty (λ _ _, True)
                        (λ _ _, True)). }
  destruct op; simpl.
  - apply (add_procedure_preserves protectedEmpty (λ _ _, True)
             (λ _ _, True)); try done.
    apply Forall_forall. intros sd _. by apply Forall_forall.
  - unfold add_portConnection.
    destruct (getExpression connection) as [expr|]; [|by apply triple_ret].
    destruct (_ || _); [by apply triple_ret|].
    case_bool_decide; [by apply triple_ret|]. apply Hadd.
  - unfold add_portSymbol. destruct (_ && _); [by apply triple_ret|].
    destruct (getParentScope symbol); [|by apply triple_failWith].
    destruct (getInternalExpr symbol); [apply Hadd|].
    destruct (internalSymbol symbol); [apply Hadd|by apply triple_ret].
  - unfold add_clockVar. case_bool_decide; [by apply triple_ret|].
    destruct (getParentScope symbol); [|by apply triple_failWith].
    destruct (getInitializer symbol); [apply Hadd|by apply triple_ret].
  - apply Hadd.
  - apply (add_symbolDriverList_preserves protectedEmpty (λ _ _, True));
      try done.
    apply Forall_forall. intros sd _. by apply Forall_forall.
  - apply (noteNonCanonicalInstance_preserves protectedEmpty (λ _ _, True)
             (λ _ _, True)); try done.
    intros. by apply Forall_forall.
  - apply (propagateModportDrivers_preserves protectedEmpty (λ _ _, True)
             (λ _ _, True)); try done.
    intros st [H1 H2]. split; [done|]. intros s _. apply lookup_empty.
Qed.

Lemma reachable_protectedEmpty st : reachable st → protectedEmpty st.
Proof.
  induction 1 as [|st fuel op st' _ IH Hrun].
  - split; intros s _; reflexivity.
  - pose proof (protectedEmpty_preserved fuel op st IH) as H.
    by rewrite Hrun in H.
Qed.

End Protected.

(** ** C9: class-typed symbols *)

Section ClassTyped.
Context {design : Design}.

(** C9 (amended).  In every reachable state a class-typed symbol holds no
    driver: its entry in [symbolDrivers] is absent or empty, it is not a key
    of [modportPortDrivers], and [getDrivers] returns nothing for it. *)
Theorem class_typed_symbol_holds_no_driver st s :
  reachable st →
  isClass s = true →
  (symbolDrivers st !! s = None ∨ symbolDrivers st !! s = Some [])
  ∧ modportPortDrivers st !! s = None
  ∧ getDrivers st s = [].
Proof.
  intros Hreach Hclass.
  destruct (reachable_protectedEmpty st Hreach) as [Hentry Hside].
  specialize (Hentry s (or_introl Hclass)). specialize (Hside s Hclass).
  unfold entryOf in Hentry. unfold getDrivers.
  destruct (symbolDrivers st !! s) as [m|]; simpl in *; subst; auto.
Qed.

(** C10.  [getDrivers] is a total function; it returns the empty list for a
    symbol without entry, and in every reachable state it returns the empty
    list for a modport port, whatever was recorded against the port. *)
Theorem getDrivers_of_unknown_or_modport_port st s :
  reachable st →
  (symbolDrivers st !! s = None → getDrivers st s = [])
  ∧ (symKind s = SymbolKind.ModportPort → getDrivers st s = []).
Proof.
  intros Hreach. split.
  - intros Hnone. unfold getDrivers.
    by destruct (symbolDrivers st !! s).
  - intros Hmodport.
    destruct (reachable_protectedEmpty st Hreach) as [Hentry _].
    specialize (Hentry s (or_intror Hmodport)).
    unfold entryOf in Hentry. unfold getDrivers.
    destruct (symbolDrivers st !! s) as [m|]; simpl in *; by subst.
Qed.

End ClassTyped.

Lemma reachable_afterClassAssign : reachable Scenario.afterClassAssign.
Proof.
  apply (reachable_step emptyTracker 1 (AddProcedure Scenario.classAssign));
    [apply reachable_empty | vm_compute; reflexivity].
Qed.

(** C9, as stated, fails: after a procedure assigned the class handle [c],
    [c] is a key of [symbolDrivers] (with an empty entry), because
    [try_emplace_and_visit] creates the entry before [addDriver] runs. *)
Lemma class_typed_symbol_is_a_key :
  reachable Scenario.afterClassAssign
  ∧ isClass Demo.c = true
  ∧ Demo.c ∈ dom (symbolDrivers Scenario.afterClassAssign).
Proof.
  split; [apply reachable_afterClassAssign|]. split; [reflexivity|].
  apply elem_of_dom. by exists [].
Qed.

Lemma class_typed_symbol_witness :
  (symbolDrivers Scenario.afterClassAssign !! Demo.c = None
   ∨ symbolDrivers Scenario.afterClassAssign !! Demo.c = Some [])
  ∧ modportPortDrivers Scenario.afterClassAssign !! Demo.c = None
  ∧ getDrivers Scenario.afterClassAssign Demo.c = [].
Proof.
  apply (class_typed_symbol_holds_no_driver (design := Demo.design)).
  - apply (reachable_step emptyTracker 1
             (AddProcedure Scenario.classAssign));
      [apply reachable_empty | vm_compute; reflexivity].
  - reflexivity.
Defined.

Lemma getDrivers_modport_port_witness :
  modportPortDrivers Scenario.recordedOnY !! Demo.y
  = Some [(Scenario.assignYDriver, (0, 0))]
  ∧ getDrivers Scenario.recordedOnY Demo.y = [].
Proof.
  split; [reflexivity|].
  apply (getDrivers_of_unknown_or_modport_port (design := Demo.design)).
  - apply (reachable_step emptyTracker 1
             (AddExpression Scenario.assignToY Demo.assign1));
      [apply reachable_empty | vm_compute; reflexivity].
  - reflexivity.
Defined.

(** ** C8: the port symbol as a driver *)

Section PortSymbol.
Context {design : Design}.

Lemma grownBy_refl P st : grownBy P st st.
Proof. split; intros s; exists []; by rewrite app_nil_r. Qed.

(** Whatever [addDrivers] stores is a driver it made from its arguments, a
    clone of one, or an initializer's driver. *)
Lemma addDrivers_grownBy fuel expr k fl containing initialLSP st0 :
  hoare (grownBy (λ d, flags d = DriverFlags.Initializer ∨ flags d = fl) st0)
        (addDrivers fuel expr k fl containing initialLSP)
        (λ _, grownBy (λ d, flags d = DriverFlags.Initializer ∨ flags d = fl)
                      st0).
Proof.
  set (P := λ d, flags d = DriverFlags.Initializer ∨ flags d = fl).
  apply (addDrivers_preserves (grownBy P st0) (λ _ d, P d) (λ _ d, P d)).
  - intros st s [H1 H2]. split; [|done]. intros s'.
    destruct (decide (s = s')) as [->|Hne].
    + rewrite entryOf_setEntry. apply H1.
    + rewrite entryOf_setEntry_ne by done. apply H1.
  - intros st s scope d b [H1 H2] Hd _ _ _. split; [|done]. intros s'.
    destruct (decide (s = s')) as [->|Hne].
    + rewrite entryOf_setEntry. destruct (H1 s') as (ext & Hext & HP).
      unfold withInitializer, IntervalMap.insert.
      destruct (entryOf st s') as [|e m] eqn:Hentry; simpl.
      * symmetry in Hext. apply app_eq_nil in Hext as [-> ->].
        exists (synthesizeInitializer s' scope [] ++ [(b, d)]).
        split; [done|]. apply Forall_app. split; [|by apply Forall_singleton].
        unfold synthesizeInitializer, addInitializer, IntervalMap.insert.
        destruct (symKind s'), (getInitializer s'); simpl;
          first [by apply Forall_nil | apply Forall_singleton; by left].
      * exists (ext ++ [(b, d)]). split.
        { by rewrite app_assoc, <- Hext. }
        apply Forall_app. split; [done|by apply Forall_singleton].
    + rewrite entryOf_setEntry_ne by done. apply H1.
  - intros st s d b [H1 H2] Hd _ _. split; [done|]. intros s'. simpl.
    destruct (decide (s = s')) as [->|Hne].
    + rewrite lookup_insert_eq. simpl.
      destruct (H2 s') as (ext & Hext & HP).
      exists (ext ++ [(d, b)]). split.
      { by rewrite Hext, app_assoc. }
      apply Forall_app. split; [done|by apply Forall_singleton].
    + rewrite lookup_insert_ne by done. apply H2.
  - done.
  - done.
  - intros _ ref d instance t Hd _. exact Hd.
  - intros. done.
  - intros. done.
  - intros s lsp _. by right.
Qed.

(** C8 (amended).  A port symbol whose direction is neither [In] nor
    [InOut] records nothing.  Otherwise every driver the call stores, apart
    from synthesized initializer drivers, carries the flags of the port,
    among which [InputPort] is set exactly when the direction is [In].  A
    port without internal expression but with an internal symbol drives a
    named-value reference to that symbol whose source range starts at the
    symbol's location and spans the symbol's name. *)
Theorem add_portSymbol_records fuel symbol st :
  (direction symbol ≠ ArgumentDirection.In →
   direction symbol ≠ ArgumentDirection.InOut →
   add_portSymbol fuel symbol st = Done (tt, st))
  ∧ (has (portSymbolFlags (direction symbol)) DriverFlags.InputPort = true
     ↔ direction symbol = ArgumentDirection.In)
  ∧ (∀ st', add_portSymbol fuel symbol st = Done (tt, st') →
            grownBy (λ d, flags d = DriverFlags.Initializer
                          ∨ flags d = portSymbolFlags (direction symbol))
                    st st')
  ∧ (∀ scope is_,
       direction symbol = ArgumentDirection.In
       ∨ direction symbol = ArgumentDirection.InOut →
       getParentScope symbol = Some scope →
       getInternalExpr symbol = None →
       internalSymbol symbol = Some is_ →
       add_portSymbol fuel symbol st
       = addDrivers fuel
           (NamedValue is_
              (mkRange (location is_)
                       (location is_
                        + N.of_nat (String.length (name is_)))))
           DriverKind.Continuous (portSymbolFlags (direction symbol))
           scope None st).
Proof.
  split; [|split; [|split]].
  - intros Hin Hinout. unfold add_portSymbol.
    by rewrite !bool_decide_eq_true_2.
  - unfold portSymbolFlags. case_bool_decide; split; done.
  - intros st' Hrun.
    assert (H : hoare (grownBy (λ d, flags d = DriverFlags.Initializer
                                     ∨ flags d
                                       = portSymbolFlags (direction symbol))
                               st)
                      (add_portSymbol fuel symbol)
                      (λ _, grownBy (λ d, flags d = DriverFlags.Initializer
                                          ∨ flags d
                                            = portSymbolFlags
                                                (direction symbol)) st)).
    { unfold add_portSymbol. destruct (_ && _); [by apply triple_ret|].
      destruct (getParentScope symbol); [|by apply triple_failWith].
      destruct (getInternalExpr symbol); [apply addDrivers_grownBy|].
      destruct (internalSymbol symbol);
        [apply addDrivers_grownBy|by apply triple_ret]. }
    specialize (H st (grownBy_refl _ st)). by rewrite Hrun in H.
  - intros scope is_ Hdir Hscope Hexpr His. unfold add_portSymbol.
    rewrite Hscope, Hexpr, His.
    destruct Hdir as [-> | ->]; reflexivity.
Qed.

End PortSymbol.

(** C8, as stated, fails: the reference synthesized for the internal net
    [a] of the input port spans the name of [a], from its location 30 to
    31; it is not a zero-length range. *)
Lemma internal_symbol_reference_spans_the_name :
  ∃ st,
    add_portSymbol 1 Demo.portA emptyTracker = Done (tt, st)
    ∧ (λ e, (sourceRange (prefixExpression e.1), flags e.1))
        <$> getDrivers st Demo.a
      = [(mkRange 30 31, DriverFlags.InputPort)]
    ∧ range_end (mkRange 30 31) ≠ range_start (mkRange 30 31).
Proof.
  eexists. split; [vm_compute; reflexivity|]. split; [reflexivity|done].
Qed.
(** ** The walk of [retargetIfacePort] *)

Section Retargeting.
Import Retarget Hierarchy.
Context {design : Design}.

Lemma size_t_small x : 0 ≤ x < 2 ^ 64 → size_t x = x.
Proof. intros H. unfold size_t. by apply Z.mod_small. Qed.

Lemma size_t_int32 x : int32 x → 0 ≤ x → size_t x = x.
Proof. unfold int32. intros H1 H2. apply size_t_small. lia. Qed.

Lemma followConnections_other fuel s modport :
  symKind s ≠ SymbolKind.InterfacePort →
  followConnections fuel (Some s) modport = Some (Some s, modport).
Proof. intros H. destruct fuel; simpl; by rewrite bool_decide_eq_false_2. Qed.

Lemma enterScope_array arr modport :
  symKind arr = SymbolKind.InstanceArray →
  enterScope arr modport = inr (arr, modport, Some (elements arr)).
Proof. intros H. unfold enterScope. by rewrite H. Qed.

(** One turn of the loop on an array whose elements are selected. *)
Lemma walk_selected fuel elem rest arr modport selected :
  symKind arr = SymbolKind.InstanceArray →
  walk fuel (elem :: rest) (Some arr) modport (Some selected)
  = match elem.2 with
    | SelIndex index =>
        if (index <? 0) || (Z.of_nat (length selected) <=? size_t index)
        then Returns None
        else
          match selected !! Z.to_nat (size_t index) with
          | Some element => walk fuel rest (Some element) modport None
          | None => Undefined
          end
    | SelRange first second =>
        if (first <? 0) || (Z.of_nat (length selected) <=? size_t second)
        then Returns None
        else if (Z.of_nat (length selected) <=? size_t first)
                || (Z.of_nat (length selected) <=? size_t second)
        then Returns None
        else
          match subspan selected (size_t first)
                  (size_t (size_t (second - first) + 1)) with
          | Some narrowed =>
              walk fuel rest (Some arr) modport (Some narrowed)
          | None => Undefined
          end
    | SelName n =>
        match lookupName arr n with
        | inl stop => stop
        | inr next => walk fuel rest next modport None
        end
    end.
Proof.
  intros Hkind. cbn [walk].
  rewrite followConnections_other by (rewrite Hkind; discriminate).
  reflexivity.
Qed.

Lemma walk_array fuel elem rest arr modport :
  symKind arr = SymbolKind.InstanceArray →
  walk fuel (elem :: rest) (Some arr) modport None
  = walk fuel (elem :: rest) (Some arr) modport (Some (elements arr)).
Proof.
  intros Hkind. cbn [walk].
  rewrite followConnections_other by (rewrite Hkind; discriminate).
  by rewrite enterScope_array.
Qed.

(** An ordered range within the span selects that part of it. *)
Lemma subspan_ordered (s : list Symbol) l r :
  0 ≤ l ≤ r → r < Z.of_nat (length s) → int32 r →
  subspan s (size_t l) (size_t (size_t (r - l) + 1))
  = Some (take (Z.to_nat (r - l + 1)) (drop (Z.to_nat l) s)).
Proof.
  unfold int32. intros Hlr Hr H32.
  rewrite (size_t_small l), (size_t_small (r - l)) by lia.
  rewrite (size_t_small (r - l + 1)) by lia.
  unfold subspan, dynamic_extent.
  rewrite (proj2 (Z.ltb_ge _ _)) by lia.
  rewrite (proj2 (Z.eqb_neq _ _)) by lia.
  by rewrite (proj2 (Z.leb_le _ _)) by lia.
Qed.

Lemma range_checks_pass (s : list Symbol) l r :
  0 ≤ l ≤ r → r < Z.of_nat (length s) → int32 r →
  (l <? 0) || (Z.of_nat (length s) <=? size_t r) = false
  ∧ (Z.of_nat (length s) <=? size_t l) || (Z.of_nat (length s) <=? size_t r)
    = false.
Proof.
  unfold int32. intros Hlr Hr H32.
  rewrite (size_t_small l), (size_t_small r) by lia.
  rewrite (proj2 (Z.ltb_ge _ _)) by lia.
  by rewrite !(proj2 (Z.leb_gt _ _)) by lia.
Qed.

Lemma length_narrowed (s : list Symbol) l r :
  0 ≤ l ≤ r → r < Z.of_nat (length s) →
  Z.of_nat (length (take (Z.to_nat (r - l + 1)) (drop (Z.to_nat l) s)))
  = r - l + 1.
Proof. intros Hlr Hr. rewrite length_take, length_drop. lia. Qed.

Lemma lookup_narrowed (s : list Symbol) l r i :
  0 ≤ l ≤ r → 0 ≤ i ≤ r - l →
  take (Z.to_nat (r - l + 1)) (drop (Z.to_nat l) s) !! Z.to_nat i
  = s !! Z.to_nat (l + i).
Proof.
  intros Hlr Hi. rewrite lookup_take_lt by lia. rewrite lookup_drop.
  f_equal. lia.
Qed.

Lemma take_drop_narrow (s : list Symbol) (n l n' l' : nat) :
  (l' + n' ≤ n)%nat →
  take n' (drop l' (take n (drop l s))) = take n' (drop (l + l') s).
Proof.
  intros H. apply list_eq. intros i.
  destruct (decide (i < n')%nat).
  - rewrite !lookup_take_lt by lia. rewrite !lookup_drop.
    rewrite lookup_take_lt by lia. rewrite lookup_drop. f_equal. lia.
  - by rewrite !lookup_take_ge by lia.
Qed.

(** X25.  An element select that follows a range select [l:r] of an instance
    array picks element [l + i] of the array when [0 ≤ i ≤ r - l], and
    makes the function return null otherwise. *)
Theorem range_select_then_element_select
    fuel rest arr modport e1 e2 l r i :
  symKind arr = SymbolKind.InstanceArray →
  0 ≤ l ≤ r → r < Z.of_nat (length (elements arr)) →
  int32 r → int32 i →
  walk fuel ((e1, SelRange l r) :: (e2, SelIndex i) :: rest)
       (Some arr) modport None
  = if (0 <=? i) && (i <=? r - l)
    then walk fuel ((e2, SelIndex (l + i)) :: rest) (Some arr) modport None
    else Returns None.
Proof.
  intros Hkind Hlr Hr Hr32 Hi32.
  rewrite !walk_array, !walk_selected by done. cbn [snd].
  destruct (range_checks_pass (elements arr) l r Hlr Hr Hr32) as [-> ->].
  rewrite subspan_ordered by done.
  rewrite walk_selected by done. cbn [snd].
  rewrite length_narrowed by done.
  unfold int32 in *.
  destruct (Z.leb_spec 0 i) as [Hi0|Hi0]; simpl.
  - rewrite (proj2 (Z.ltb_ge i 0)) by lia. simpl.
    rewrite (size_t_small i) by lia.
    destruct (Z.leb_spec i (r - l)) as [Hi1|Hi1].
    + rewrite (proj2 (Z.leb_gt _ _)) by lia.
      rewrite (proj2 (Z.ltb_ge (l + i) 0)) by lia. simpl.
      rewrite (size_t_small (l + i)) by lia.
      rewrite (proj2 (Z.leb_gt _ _)) by lia.
      by rewrite lookup_narrowed by lia.
    + by rewrite (proj2 (Z.leb_le _ _)) by lia.
  - by rewrite (proj2 (Z.ltb_lt i 0)) by lia.
Qed.

(** X26.  Two range selects in a row compose: [l':r'] within [l:r] is the range
    [l + l' : l + r'] of the array, and null is returned when the second
    range does not lie within the first. *)
Theorem range_select_then_range_select
    fuel rest arr modport e1 e2 l r l' r' :
  symKind arr = SymbolKind.InstanceArray →
  0 ≤ l ≤ r → r < Z.of_nat (length (elements arr)) →
  l' ≤ r' → int32 r → int32 l' → int32 r' →
  walk fuel ((e1, SelRange l r) :: (e2, SelRange l' r') :: rest)
       (Some arr) modport None
  = if (0 <=? l') && (r' <=? r - l)
    then walk fuel ((e2, SelRange (l + l') (l + r')) :: rest)
              (Some arr) modport None
    else Returns None.
Proof.
  intros Hkind Hlr Hr Hlr' Hr32 Hl32' Hr32'.
  rewrite !walk_array, !walk_selected by done. cbn [snd].
  destruct (range_checks_pass (elements arr) l r Hlr Hr Hr32) as [-> ->].
  rewrite subspan_ordered by done.
  rewrite walk_selected by done. cbn [snd].
  rewrite length_narrowed by done.
  unfold int32 in *.
  destruct (Z.leb_spec 0 l') as [Hl0|Hl0]; simpl.
  - rewrite (proj2 (Z.ltb_ge l' 0)) by lia. simpl.
    rewrite (size_t_small l'), (size_t_small r') by lia.
    destruct (Z.leb_spec r' (r - l)) as [Hr1|Hr1].
    + rewrite !(proj2 (Z.leb_gt _ _)) by lia. simpl.
      assert (Hsub : ∀ s : list Symbol,
                s = take (Z.to_nat (r - l + 1))
                         (drop (Z.to_nat l) (elements arr)) →
                subspan s l' (size_t (size_t (r' - l') + 1))
                = Some (take (Z.to_nat (r' - l' + 1))
                             (drop (Z.to_nat (l + l')) (elements arr)))).
      { intros s ->.
        rewrite <- (size_t_small l') at 1 by lia.
        rewrite subspan_ordered; [| lia | rewrite length_narrowed; lia
                                  | unfold int32; lia].
        f_equal. rewrite take_drop_narrow by lia. do 2 f_equal. lia. }
      rewrite (Hsub _ eq_refl).
      destruct (range_checks_pass (elements arr) (l + l') (l + r'))
        as [-> ->]; [lia | lia | unfold int32; lia |].
      rewrite subspan_ordered by (unfold int32; lia).
      do 3 f_equal. f_equal. lia.
    + by rewrite (proj2 (Z.leb_le _ _)) by lia.
  - by rewrite (proj2 (Z.ltb_lt l' 0)) by lia.
Qed.

Lemma size_t_negative x : - 2 ^ 64 ≤ x < 0 → size_t x = x + 2 ^ 64.
Proof.
  intros H. unfold size_t. symmetry.
  apply (Z.mod_unique x (2 ^ 64) (-1) (x + 2 ^ 64)); lia.
Qed.

(** X27.  A range select whose right bound lies below its left bound: the count
    handed to [subspan] wraps around.  One below, the selection is empty;
    two below, the count is [dynamic_extent] and everything from the left
    bound on is selected; further below, [subspan] is called outside its
    precondition. *)
Theorem reversed_range_select fuel rest arr modport e l r :
  symKind arr = SymbolKind.InstanceArray →
  0 ≤ r < l → l < Z.of_nat (length (elements arr)) →
  Z.of_nat (length (elements arr)) < 2 ^ 63 →
  walk fuel ((e, SelRange l r) :: rest) (Some arr) modport None
  = if l - r =? 1 then walk fuel rest (Some arr) modport (Some [])
    else if l - r =? 2
    then walk fuel rest (Some arr) modport
              (Some (drop (Z.to_nat l) (elements arr)))
    else Undefined.
Proof.
  intros Hkind Hrl Hl Hsize.
  rewrite walk_array, walk_selected by done. cbn [snd].
  rewrite (size_t_small l), (size_t_small r) by lia.
  rewrite (proj2 (Z.ltb_ge l 0)) by lia.
  rewrite !(proj2 (Z.leb_gt _ _)) by lia. cbn [orb].
  rewrite (size_t_negative (r - l)) by lia.
  unfold subspan, dynamic_extent.
  rewrite (proj2 (Z.ltb_ge _ _)) by lia.
  destruct (Z.eqb_spec (l - r) 1) as [H1|H1].
  { replace (r - l + 2 ^ 64 + 1) with (2 ^ 64) by lia.
    unfold size_t. rewrite Z.mod_same by lia.
    rewrite (proj2 (Z.eqb_neq _ _)) by lia.
    by rewrite (proj2 (Z.leb_le _ _)) by lia. }
  rewrite (size_t_small (r - l + 2 ^ 64 + 1)) by lia.
  destruct (Z.eqb_spec (l - r) 2) as [H2|H2].
  { by rewrite (proj2 (Z.eqb_eq _ _)) by lia. }
  rewrite (proj2 (Z.eqb_neq _ _)) by lia.
  by rewrite (proj2 (Z.leb_gt _ _)) by lia.
Qed.

(** *** The walk stays within what the language defines *)

Lemma enterScope_defined symbol modport stop :
  enterScope symbol modport = inl stop → stop ≠ Undefined.
Proof.
  unfold enterScope.
  repeat (case_bool_decide || case_match); intros [= <-]; discriminate.
Qed.

Lemma lookupName_defined symbol n stop :
  (∀ s, symKind s = SymbolKind.Modport → is_Some (getParentScope s)) →
  lookupName symbol n = inl stop → stop ≠ Undefined.
Proof.
  intros Hparent. unfold lookupName.
  destruct (find symbol n); [done|].
  case_bool_decide as Hkind; [|done].
  destruct (Hparent symbol Hkind) as [parent ->].
  repeat case_match; intros [= <-]; discriminate.
Qed.

(** A read that follows the check of its index lies within the span. *)
Lemma checked_read_defined (sel : list Symbol) index (k : Symbol → Outcome) :
  int32 index →
  (∀ element, k element ≠ Undefined) →
  (if (index <? 0) || (Z.of_nat (length sel) <=? size_t index)
   then Returns None
   else match sel !! Z.to_nat (size_t index) with
        | Some element => k element
        | None => Undefined
        end) ≠ Undefined.
Proof.
  intros H32 Hk.
  destruct (Z.ltb_spec index 0) as [|Hindex]; [done|]. cbn [orb].
  rewrite (size_t_int32 index) by done.
  destruct (Z.leb_spec (Z.of_nat (length sel)) index) as [|Hlen]; [done|].
  destruct (lookup_lt_is_Some_2 sel (Z.to_nat index)) as [element ->];
    [lia|apply Hk].
Qed.

Lemma walk_defined fuel elems :
  (∀ s, symKind s = SymbolKind.Modport → is_Some (getParentScope s)) →
  Forall (λ e, orderedSelector e.2) elems →
  ∀ symbol modport selected,
    walk fuel elems symbol modport selected ≠ Undefined.
Proof.
  intros Hparent. induction 1 as [|elem rest Helem _ IH];
    intros symbol modport selected; [done|].
  cbn [walk].
  destruct (followConnections fuel symbol modport) as [[[s|] m]|]; [|done..].
  assert (Hturn : ∀ s' m' a',
    match elem.2 with
    | SelIndex index =>
        match a' with
        | Some sel =>
            if (index <? 0) || (Z.of_nat (length sel) <=? size_t index)
            then Returns None
            else
              match sel !! Z.to_nat (size_t index) with
              | Some element => walk fuel rest (Some element) m' None
              | None => Undefined
              end
        | None =>
            if bool_decide (symKind s' = SymbolKind.GenerateBlockArray)
            then
              if negb (valid s') || (index <? 0)
                 || (Z.of_nat (length (entries s')) <=? size_t index)
              then Returns None
              else
                match entries s' !! Z.to_nat (size_t index) with
                | Some entry => walk fuel rest (Some entry) m' None
                | None => Undefined
                end
            else Returns None
        end
    | SelRange first second =>
        match a' with
        | None => Returns None
        | Some sel =>
            if (first <? 0) || (Z.of_nat (length sel) <=? size_t second)
            then Returns None
            else if (Z.of_nat (length sel) <=? size_t first)
                    || (Z.of_nat (length sel) <=? size_t second)
            then Returns None
            else
              match subspan sel (size_t first)
                      (size_t (size_t (second - first) + 1)) with
              | Some narrowed => walk fuel rest (Some s') m' (Some narrowed)
              | None => Undefined
              end
        end
    | SelName n =>
        match lookupName s' n with
        | inl stop => stop
        | inr next => walk fuel rest next m' None
        end
    end ≠ Undefined).
  { intros s' m' a'. destruct (elem.2) as [index|first second|n];
      simpl in Helem.
    - destruct a' as [sel|].
      + by apply checked_read_defined.
      + case_bool_decide; [|done].
        destruct (negb (valid s')); [done|]. cbn [orb].
        by apply checked_read_defined.
    - destruct a' as [sel|]; [|done].
      destruct Helem as (H1 & H2 & H12). unfold int32 in *.
      destruct (Z.ltb_spec first 0) as [|Hfirst]; [done|]. cbn [orb].
      rewrite (size_t_small first), (size_t_small second) by lia.
      destruct (Z.leb_spec (Z.of_nat (length sel)) second); [done|].
      destruct (Z.leb_spec (Z.of_nat (length sel)) first); [done|].
      cbn [orb].
      rewrite <- (size_t_small first) at 1 by lia.
      rewrite subspan_ordered by (unfold int32; lia). apply IH.
    - destruct (lookupName s' n) as [stop|next] eqn:Hlook; [|apply IH].
      by eapply lookupName_defined. }
  destruct selected as [sel|].
  - exact (Hturn s m (Some sel)).
  - destruct (enterScope s m) as [stop|[[s' m'] a']] eqn:Henter.
    + by eapply enterScope_defined.
    + exact (Hturn s' m' a').
Qed.

(** X28.  With a non-empty path whose selectors are [int32_t] values and whose
    ranges have their bounds in order, and with every modport inside a
    scope, [retargetIfacePort] never leaves defined behaviour: no span is
    narrowed beyond its end, no element is read outside its span and no
    null scope is dereferenced. *)
Theorem retargetIfacePort_stays_defined fuel ref base :
  (∀ s, symKind s = SymbolKind.Modport → is_Some (getParentScope s)) →
  path ref ≠ [] →
  Forall (λ e, orderedSelector e.2) (path ref) →
  Retarget.retargetIfacePort fuel ref base ≠ Undefined.
Proof.
  intros Hparent Hpath Hsel. unfold Retarget.retargetIfacePort.
  destruct (_ || _); [done|].
  destruct (path ref) as [|first rest]; [done|].
  destruct (findPort base (name first.1)); [|done].
  apply walk_defined; [done|]. by inversion Hsel.
Qed.

(** *** Termination of the walk *)

Section Chains.
Context (depth : Symbol → nat).
Hypothesis depth_decreases : ∀ s s',
  symKind s = SymbolKind.InterfacePort →
  (getConnection s).1 = Some s' →
  symKind s' = SymbolKind.InterfacePort →
  (depth s' < depth s)%nat.

Lemma followConnections_enough fuel :
  ∀ symbol modport,
    (∀ s, symbol = Some s → symKind s = SymbolKind.InterfacePort →
          (depth s < fuel)%nat) →
    ∃ r, ∀ fuel', (fuel ≤ fuel')%nat →
           followConnections fuel' symbol modport = Some r.
Proof.
  induction fuel as [|fuel IH]; intros symbol modport Hdepth.
  - destruct symbol as [s|].
    + destruct (decide (symKind s = SymbolKind.InterfacePort)) as [Hk|Hk].
      * specialize (Hdepth s eq_refl Hk). lia.
      * eexists. intros fuel' _. by apply followConnections_other.
    + eexists. intros [|fuel'] _; reflexivity.
  - destruct symbol as [s|].
    + destruct (decide (symKind s = SymbolKind.InterfacePort)) as [Hk|Hk].
      * destruct (IH (getConnection s).1 (getConnection s).2) as [r Hr].
        { intros s' Hs' Hk'.
          pose proof (depth_decreases s s' Hk Hs' Hk').
          specialize (Hdepth s eq_refl Hk). lia. }
        exists r. intros [|fuel'] Hfuel; [lia|]. simpl.
        rewrite bool_decide_eq_true_2 by done. apply Hr. lia.
      * eexists. intros fuel' _. by apply followConnections_other.
    + eexists. intros [|fuel'] _; reflexivity.
Qed.

Lemma walk_enough bound fuel elems :
  (∀ s, (depth s < bound)%nat) → (bound ≤ fuel)%nat →
  ∀ symbol modport selected,
    walk fuel elems symbol modport selected
    = walk bound elems symbol modport selected
    ∧ walk bound elems symbol modport selected ≠ NoFuel.
Proof.
  intros Hbound Hfuel.
  induction elems as [|elem rest IH]; intros symbol modport selected;
    [done|].
  cbn [walk].
  destruct (followConnections_enough bound symbol modport) as [r Hr].
  { intros s _ _. apply Hbound. }
  rewrite (Hr fuel Hfuel), (Hr bound) by lia.
  destruct r as [[s|] m]; [|done].
  destruct (match selected with
            | Some _ => inr (s, m, selected)
            | None => enterScope s m
            end) as [stop|[[s' m'] a']] eqn:Henter.
  { split; [done|]. destruct selected; [done|].
    unfold enterScope in Henter.
    repeat (case_bool_decide || case_match); by simplify_eq. }
  destruct (elem.2) as [index|first second|n].
  - repeat case_match; try done; apply IH.
  - repeat case_match; try done; apply IH.
  - destruct (lookupName s' n) as [stop|next] eqn:Hlook; [|apply IH].
    split; [done|]. unfold lookupName in Hlook.
    repeat (case_bool_decide || case_match); by simplify_eq.
Qed.

End Chains.

(** X29.  When the chains of interface ports connected to interface ports are
    bounded, [retargetIfacePort] terminates: with [bound] units of fuel or
    more it never runs out, and its outcome does not depend on the fuel. *)
Theorem retargetIfacePort_terminates depth bound ref base :
  (∀ s, (depth s < bound)%nat) →
  (∀ s s', symKind s = SymbolKind.InterfacePort →
           (getConnection s).1 = Some s' →
           symKind s' = SymbolKind.InterfacePort →
           (depth s' < depth s)%nat) →
  ∃ outcome,
    outcome ≠ NoFuel
    ∧ ∀ fuel, (bound ≤ fuel)%nat →
        Retarget.retargetIfacePort fuel ref base = outcome.
Proof.
  intros Hbound Hdec.
  exists (Retarget.retargetIfacePort bound ref base). split.
  - unfold Retarget.retargetIfacePort.
    destruct (_ || _); [done|].
    destruct (path ref) as [|first rest]; [done|].
    destruct (findPort base (name first.1)); [|done].
    by apply (walk_enough depth Hdec bound bound).
  - intros fuel Hfuel. unfold Retarget.retargetIfacePort.
    destruct (_ || _); [done|].
    destruct (path ref) as [|first rest]; [done|].
    destruct (findPort base (name first.1)); [|done].
    by apply (walk_enough depth Hdec bound fuel).
Qed.

(** *** What the walk reads of the reference *)

Lemma walk_selectors fuel elems elems' :
  elems.*2 = elems'.*2 →
  ∀ symbol modport selected,
    walk fuel elems symbol modport selected
    = walk fuel elems' symbol modport selected.
Proof.
  revert elems'. induction elems as [|elem rest IH];
    intros [|elem' rest'] Heq symbol modport selected; try done.
  injection Heq as Hsel Hrest. cbn [walk]. rewrite Hsel.
  repeat case_match; try done; by apply IH.
Qed.

(** X30.  [retargetIfacePort] reads a reference only through its shape: two
    references that agree on going through an interface port and on having
    a target, whose paths start with symbols of the same name and go on with
    the same selectors, are retargeted alike; the symbols along the path
    and the target itself are never read. *)
Theorem retargetIfacePort_reads_the_shape fuel ref ref' base :
  shape ref = shape ref' →
  Retarget.retargetIfacePort fuel ref base
  = Retarget.retargetIfacePort fuel ref' base.
Proof.
  unfold shape. intros [= Hvia Htarget Hhead Htail].
  unfold Retarget.retargetIfacePort. rewrite Hvia, Htarget.
  destruct (_ || _); [done|].
  destruct (path ref) as [|first rest], (path ref') as [|first' rest'];
    try done.
  simpl in Hhead, Htail. injection Hhead as ->.
  destruct (findPort base (name first'.1)); [|done].
  by apply walk_selectors.
Qed.

End Retargeting.

(** The examples: the reference [p[3:1][1].x] retargeted to [m2] ends at the
    [x] of the third interface instance. *)
Lemma range_select_then_element_select_witness :
  Retarget.walk (design := Arrayed.design) 1
    [(Arrayed.ifs, SelRange 1 3); (Arrayed.ifs, SelIndex 1);
     (12%positive, SelName "x")] (Some Arrayed.ifs) None None
  = Retarget.walk (design := Arrayed.design)
      1 [(Arrayed.ifs, SelIndex 2); (12%positive, SelName "x")]
      (Some Arrayed.ifs) None None
  ∧ Retarget.retargetIfacePort (design := Arrayed.design)
      1 Arrayed.ref Arrayed.m2
    = Retarget.Returns (Some 14%positive).
Proof.
  split; [|reflexivity].
  apply (range_select_then_element_select (design := Arrayed.design)
           1 [(12%positive, SelName "x")]
           Arrayed.ifs None Arrayed.ifs Arrayed.ifs 1 3 1);
    [reflexivity | lia | simpl; lia | unfold Retarget.int32; lia
    | unfold Retarget.int32; lia].
Defined.

Lemma range_select_then_range_select_witness :
  Retarget.walk (design := Arrayed.design) 1
    [(Arrayed.ifs, SelRange 1 3); (Arrayed.ifs, SelRange 1 2);
     (Arrayed.ifs, SelIndex 0); (12%positive, SelName "x")]
    (Some Arrayed.ifs) None None
  = Retarget.walk (design := Arrayed.design)
      1 [(Arrayed.ifs, SelRange 2 3); (Arrayed.ifs, SelIndex 0);
         (12%positive, SelName "x")]
      (Some Arrayed.ifs) None None.
Proof.
  apply (range_select_then_range_select (design := Arrayed.design)
           1
           [(Arrayed.ifs, SelIndex 0); (12%positive, SelName "x")]
           Arrayed.ifs None Arrayed.ifs Arrayed.ifs 1 3 1 2);
    [reflexivity | lia | simpl; lia | lia | unfold Retarget.int32; lia
    | unfold Retarget.int32; lia | unfold Retarget.int32; lia].
Defined.

(** The range [3:1] of the four instances selects the last one. *)
Lemma reversed_range_select_witness :
  Retarget.walk (design := Arrayed.design) 1
    [(Arrayed.ifs, SelRange 3 1); (Arrayed.ifs, SelIndex 0)]
    (Some Arrayed.ifs) None None
  = Retarget.Returns (Some 7%positive).
Proof.
  rewrite (reversed_range_select (design := Arrayed.design)
             1 [(Arrayed.ifs, SelIndex 0)]
             Arrayed.ifs None Arrayed.ifs 3 1);
    [reflexivity | reflexivity | lia | simpl; lia | simpl; lia].
Defined.

Lemma retargetIfacePort_stays_defined_witness :
  Retarget.retargetIfacePort (design := Arrayed.design)
    1 Arrayed.ref Arrayed.m2
  ≠ Retarget.Undefined.
Proof.
  apply (retargetIfacePort_stays_defined (design := Arrayed.design)
           1 Arrayed.ref Arrayed.m2).
  - intros s _. by exists 1%positive.
  - discriminate.
  - repeat constructor; unfold Retarget.int32; simpl; lia.
Defined.

Lemma retargetIfacePort_terminates_witness :
  ∃ outcome,
    outcome ≠ Retarget.NoFuel
    ∧ ∀ fuel, (1 ≤ fuel)%nat →
        Retarget.retargetIfacePort (design := Arrayed.design)
          fuel Arrayed.ref Arrayed.m2
        = outcome.
Proof.
  apply (retargetIfacePort_terminates (design := Arrayed.design)
           Arrayed.depth 1 Arrayed.ref
           Arrayed.m2).
  - intros s. unfold Arrayed.depth. lia.
  - intros s s' Hs Hconn Hs'. exfalso. simpl in *.
    repeat case_bool_decide; simplify_eq; simpl in *; try done.
    injection Hconn as <-. discriminate.
Defined.

(** A port connected to itself keeps the loop over the connections going:
    no amount of fuel is enough. *)
Remark self_connected_port_diverges fuel :
  Retarget.retargetIfacePort (design := Arrayed.looped) fuel Arrayed.refQ
    Arrayed.m2
  = Retarget.NoFuel.
Proof.
  unfold Retarget.retargetIfacePort. simpl.
  assert (H : Retarget.followConnections (design := Arrayed.looped) fuel
                (Some Arrayed.q) None
              = None).
  { induction fuel as [|fuel IH]; [reflexivity|exact IH]. }
  cbn [Retarget.walk]. by rewrite H.
Qed.

Lemma retargetIfacePort_reads_the_shape_witness :
  Retarget.retargetIfacePort (design := Arrayed.design)
    1 Arrayed.ref Arrayed.m2
  = Retarget.retargetIfacePort (design := Arrayed.design)
      1
      (mkRef true (Some 13%positive) false
             [(Arrayed.p, SelIndex 0); (1%positive, SelRange 1 3);
              (1%positive, SelIndex 1); (1%positive, SelName "x")])
      Arrayed.m2.
Proof.
  apply (retargetIfacePort_reads_the_shape (design := Arrayed.design)
          ).
  reflexivity.
Defined.

(** ** C5: termination of the propagation *)

Section Termination.
Context {design : Design}.
Local Open Scope nat_scope.

Lemma total_ret {A} (a : A) : total (mret a).
Proof. by apply triple_ret. Qed.

Lemma total_bind {A B} (m : M A) (k : A → M B) :
  total m → (∀ a, total (k a)) → total (m ≫= k).
Proof. intros Hm Hk. eapply triple_bind; [exact Hm|]. intros a. apply Hk. Qed.

Lemma total_forEach {A} (xs : list A) (body : A → M unit) :
  (∀ x, x ∈ xs → total (body x)) → total (forEach xs body).
Proof. intros H. by apply (triple_forEach _ _ (λ _, True)). Qed.

Lemma total_collect {A B} (xs : list A) (body : A → M (list B)) :
  (∀ x, x ∈ xs → total (body x)) → total (collect xs body).
Proof.
  intros H. induction xs as [|x xs IH]; simpl; [apply total_ret|].
  apply total_bind; [apply H; by left|]. intros here.
  apply total_bind; [|intros; apply total_ret].
  apply IH. intros z Hz. apply H. by right.
Qed.

Lemma total_assert site b : total (SLANG_ASSERT site b).
Proof. intros st _. unfold SLANG_ASSERT. by destruct b. Qed.

Lemma total_addDriver s m d b : total (addDriver s m d b).
Proof.
  intros st _. rewrite addDriver_run.
  destruct (isClass s); [done|]. destruct (getParentScope s); [|done].
  by case_bool_decide.
Qed.

Lemma total_visit {A} s (f : IntervalMap.t → M (A * IntervalMap.t)) :
  (∀ m, total (f m)) → total (try_emplace_and_visit s f).
Proof.
  intros Hf. unfold try_emplace_and_visit.
  apply total_bind; [done|]. intros st0.
  apply total_bind; [apply Hf|]. intros r.
  apply total_bind; [done|]. intros u. apply total_ret.
Qed.

Section WithDepth.
Context (depth : HierarchicalReference → nat).
Context (rank : Symbol → nat) (bound : nat).
Hypothesis depth_decreases :
  ∀ ref ref', chainStep ref ref' → depth ref' < depth ref.
Hypothesis rank_bounded : ∀ s, rank s < bound.
Hypothesis port_decreases : ∀ s s', portStep s s' → rank s' < rank s.

(** The connection loop of [retargetIfacePort] ends within [bound]
    iterations. *)
Lemma retargetIfacePort_enough fuel ref base :
  bound ≤ fuel →
  Retarget.retargetIfacePort fuel ref base ≠ Retarget.NoFuel.
Proof.
  intros Hfuel. unfold Retarget.retargetIfacePort.
  destruct (_ || _); [done|].
  destruct (path ref) as [|first rest]; [done|].
  destruct (Hierarchy.findPort base (name first.1)) as [s|]; [|done].
  destruct (walk_enough rank (λ s s' H1 H2 H3,
                                port_decreases s s' (conj H1 (conj H2 H3)))
              bound fuel rest rank_bounded Hfuel (Some s) None None)
    as [-> Hwalk].
  exact Hwalk.
Qed.

Lemma total_applyInstanceSideEffect fuel ifacePortDriver instance :
  bound ≤ fuel →
  total (applyInstanceSideEffect fuel ifacePortDriver instance).
Proof.
  intros Hfuel. unfold applyInstanceSideEffect.
  pose proof (retargetIfacePort_enough fuel ifacePortDriver.1 instance Hfuel)
    as Hwalk.
  destruct (Retarget.retargetIfacePort _ _ _) as [[target|]| | |];
    [|apply total_ret|done..].
  destruct (getBounds _ _ _); [|apply total_ret].
  apply total_visit. intros m.
  apply total_bind; [apply total_addDriver|]. intros r.
  apply total_bind; [apply total_assert|]. intros u. apply total_ret.
Qed.

Lemma total_noteInterfacePortDriver fuel ref d :
  depth ref + bound ≤ fuel → total (noteInterfacePortDriver fuel ref d).
Proof.
  revert ref. induction fuel as [|fuel IH]; intros ref Hfuel.
  { pose proof (rank_bounded 1%positive). lia. }
  simpl.
  do 3 (apply total_bind; [apply total_assert|]; intros ?).
  destruct (path ref) as [|[port sel] rest] eqn:Hpath; [done|].
  destruct (getParentScope port) as [symbol|]; [|done].
  apply total_bind; [apply total_assert|]. intros ?.
  apply total_bind; [done|]. intros st0.
  apply total_bind; [done|]. intros ?.
  apply total_bind.
  { apply total_forEach. intros. apply total_applyInstanceSideEffect. lia. }
  intros ?.
  destruct (getConnectionAndExpr port) as [[]|] eqn:Hconn;
    try apply total_ret.
  destruct (isViaIfacePort hierRef) eqn:Hvia; [|apply total_ret].
  apply IH.
  assert (depth (join hierRef ref) < depth ref); [|lia].
  apply depth_decreases. by exists port, sel, rest, hierRef, sr.
Qed.

Lemma total_addDrivers fuel expr k fl containing initialLSP :
  (∀ ref, depth ref < bound) → 2 * bound ≤ fuel →
  total (addDrivers fuel expr k fl containing initialLSP).
Proof.
  intros Hbound Hfuel. unfold addDrivers. apply total_bind.
  - apply total_collect. intros [[s lsp] isLValue] _.
    destruct isLValue; simpl; [|apply total_ret].
    destruct (getBounds lsp containing s); [|apply total_ret].
    apply total_visit. intros m.
    apply total_bind; [apply total_addDriver|]. intros r. apply total_ret.
  - intros refs. apply total_forEach. intros [ref d] _.
    apply total_noteInterfacePortDriver. specialize (Hbound ref). simpl. lia.
Qed.

Lemma total_propagatePass fuel localCopy :
  (∀ ref, depth ref < bound) → 2 * bound ≤ fuel →
  total (propagatePass fuel localCopy).
Proof.
  intros Hbound Hfuel. apply total_forEach. intros [s ds] _. simpl.
  destruct (getConnectionExpr s); [|apply total_ret].
  apply total_forEach. intros [d b] _.
  by apply total_addDrivers.
Qed.

End WithDepth.

Section WithRank.
Context (rank : Symbol → nat).
Hypothesis rank_decreases : ∀ s t,
  modportEdge s t → symKind t = SymbolKind.ModportPort → rank t < rank s.
Hypothesis port_decreases : ∀ s s', portStep s s' → rank s' < rank s.

(** A pass over entries of rank at most [r] records only against modport
    ports of rank below [r]. *)
Lemma propagatePass_keysBelow fuel localCopy r :
  (∀ s, is_Some (localCopy !! s) → rank s < S r) →
  hoare (keysBelow rank r) (propagatePass fuel localCopy)
        (λ _, keysBelow rank r).
Proof.
  intros Hkeys.
  set (RefOk := λ (ref : HierarchicalReference) (_ : ValueDriver),
         ∀ t, ifaceTarget ref t → symKind t = SymbolKind.ModportPort →
              rank t < r).
  set (StoreOk := λ (t : Symbol) (d : ValueDriver),
         (symKind t = SymbolKind.ModportPort → rank t < r)
         ∧ ∀ ref, ifacePortRefOf d = Some ref → RefOk ref d).
  apply (propagatePass_preserves (keysBelow rank r) StoreOk RefOk).
  - done.
  - done.
  - intros st s d b Hst [Hrank _] _ Hmodport s' Hs'.
    simpl in Hs'. destruct (decide (s = s')) as [<-|Hne].
    + by apply Hrank.
    + rewrite lookup_insert_ne in Hs' by done. by apply Hst.
  - done.
  - done.
  - intros fuel' ref d instance t Hok Hretarget. split.
    + intros Hmodport. apply (Hok t); [|done].
      by apply (ifaceTarget_here ref fuel' instance).
    + intros ref'. unfold ifacePortRefOf. simpl. done.
  - intros ref d port sel rest connRef sr Hok Hpath Hconn Hvia t Ht.
    apply (Hok t). eapply ifaceTarget_chain; [|exact Ht].
    by exists port, sel, rest, connRef, sr.
  - intros s d ref [_ Hok] Href. by apply Hok.
  - intros s ds conn d b t d' Hs Hconn _ Ht.
    assert (Hrank : rank s < S r) by (apply Hkeys; by rewrite Hs).
    split.
    + intros Hmodport.
      assert (rank t < rank s); [|lia].
      apply rank_decreases; [|done]. exists conn, d, t, d'. auto.
    + intros ref Href t' Ht' Hmodport.
      assert (rank t' < rank s); [|lia].
      apply rank_decreases; [|done]. exists conn, d, t, d'.
      split; [done|]. split; [done|]. right. by exists ref.
Qed.

Context (depth : HierarchicalReference → nat) (bound : nat).
Hypothesis rank_bounded : ∀ s, rank s < bound.
Hypothesis depth_bounded : ∀ ref, depth ref < bound.
Hypothesis depth_decreases :
  ∀ ref ref', chainStep ref ref' → depth ref' < depth ref.

Lemma propagateModportDrivers_loop r :
  ∀ fuel st,
    keysBelow rank r st → 2 * bound + r < fuel →
    terminates (propagateModportDrivers fuel) st.
Proof.
  induction r as [|r IH]; intros fuel st Hkeys Hfuel;
    (destruct fuel as [|fuel]; [lia|]); unfold terminates; simpl;
    unfold mbind, M_bind, get, setModportPortDrivers.
  - rewrite bool_decide_eq_true_2; [done|].
    apply map_eq. intros s. rewrite lookup_empty.
    destruct (modportPortDrivers st !! s) eqn:Hs; [|done].
    assert (rank s < 0) by (apply Hkeys; by rewrite Hs). lia.
  - case_bool_decide as Hempty; [done|].
    pose proof (total_propagatePass depth rank bound depth_decreases
                  rank_bounded port_decreases fuel (modportPortDrivers st)
                  depth_bounded ltac:(lia)
                  (withModportPortDrivers st ∅) I) as Htotal.
    pose proof (propagatePass_keysBelow fuel (modportPortDrivers st) r Hkeys
                  (withModportPortDrivers st ∅)) as Hpass.
    destruct (propagatePass fuel (modportPortDrivers st)
                (withModportPortDrivers st ∅)) as [[[] st1]| |]; [|done..].
    apply IH; [|lia]. apply Hpass.
    intros s Hs. simpl in Hs. rewrite lookup_empty in Hs.
    by destruct Hs.
Qed.

End WithRank.

(** C5.  When the connection graph is finite and acyclic -- the modport
    connections, the chains of interface port connections that
    [noteInterfacePortDriver] follows, and the connections between interface
    ports that the loop of [retargetIfacePort] follows --
    [propagateModportDrivers] terminates from every state, with all the
    calls it makes: with at least [3 * bound + 1] units of fuel it never
    runs out. *)
Theorem propagateModportDrivers_terminates rank depth bound st :
  Acyclic rank depth bound →
  ∃ fuel, ∀ fuel', fuel ≤ fuel' →
    terminates (propagateModportDrivers fuel') st.
Proof.
  intros [Hrank Hedge Hport Hdepth Hchain]. exists (3 * bound + 1).
  intros fuel' Hfuel.
  apply (propagateModportDrivers_loop rank Hedge Hport depth bound Hrank
           Hdepth Hchain bound).
  - intros s _. apply Hrank.
  - lia.
Qed.

End Termination.

(** ** C7: submitting the same driver list twice *)

Section Twice.
Context {design : Design}.
Context (c : Symbol).

Lemma isProblem_own checkOverlap curr d :
  ownDriver c curr → ownDriver c d → isProblem checkOverlap curr d = false.
Proof.
  intros (Hk1 & Hu1 & Hc1) (Hk2 & Hu2 & Hc2). unfold isProblem.
  rewrite Hu1, Hu2, Hk1, Hk2, Hc1, Hc2. simpl.
  destruct checkOverlap; [|done].
  by rewrite (bool_decide_eq_false_2 (c ≠ c)) by (by intros H).
Qed.

(** The scan only looks at the entries that are foreign to the new driver. *)
Lemma overlapLoop_foreign symbol d checkOverlap isNet isUWire isUDNT nt
    entries st :
  ownDriver c d →
  overlapLoop symbol d checkOverlap isNet isUWire isUDNT nt entries st
  = overlapLoop symbol d checkOverlap isNet isUWire isUDNT nt
                (filter (λ e, ¬ ownDriver c e) entries) st.
Proof.
  intros Hd. revert st. induction entries as [|curr rest IH]; intros st.
  { done. }
  rewrite filter_cons. destruct (decide (¬ ownDriver c curr)) as [Hf|Ho].
  - simpl. destruct (isProblem checkOverlap curr d); [|apply IH].
    unfold mbind, M_bind.
    destruct (handleOverlap _ _ _ _ _ _ _ st) as [[[] st1]| |];
      [apply IH | done..].
  - apply dec_stable in Ho. simpl.
    rewrite (isProblem_own checkOverlap curr d Ho Hd). apply IH.
Qed.

Lemma find_foreignEntries bounds m :
  IntervalMap.find bounds (foreignEntries c m)
  = filter (λ e, ¬ ownDriver c e) (IntervalMap.find bounds m).
Proof.
  unfold IntervalMap.find, foreignEntries.
  induction m as [|e m IH]; [done|].
  destruct (decide (¬ ownDriver c e.2)) as [Hf|Ho];
    destruct (decide (IntervalMap.overlaps e.1 bounds = true)) as [Hov|Hov].
  - rewrite (filter_cons_True (λ e, ¬ ownDriver c e.2)) by done.
    rewrite !(filter_cons_True (λ e, IntervalMap.overlaps e.1 bounds = true))
      by done.
    rewrite !fmap_cons, filter_cons_True by done. by rewrite IH.
  - rewrite (filter_cons_True (λ e, ¬ ownDriver c e.2)) by done.
    rewrite !(filter_cons_False (λ e, IntervalMap.overlaps e.1 bounds = true))
      by done.
    exact IH.
  - rewrite (filter_cons_False (λ e, ¬ ownDriver c e.2)) by done.
    rewrite (filter_cons_True (λ e, IntervalMap.overlaps e.1 bounds = true))
      by done.
    rewrite fmap_cons, filter_cons_False by done. exact IH.
  - rewrite (filter_cons_False (λ e, ¬ ownDriver c e.2)) by done.
    rewrite (filter_cons_False (λ e, IntervalMap.overlaps e.1 bounds = true))
      by done.
    exact IH.
Qed.

Lemma overlapDiagnostics_foreign symbol m d bounds :
  ownDriver c d →
  overlapDiagnostics symbol m d bounds
  = overlapDiagnostics symbol (foreignEntries c m) d bounds.
Proof.
  intros Hd. unfold overlapDiagnostics, checkOverlaps.
  rewrite find_foreignEntries.
  by rewrite (overlapLoop_foreign symbol d _ _ _ _ _
                (IntervalMap.find bounds m) emptyTracker Hd).
Qed.

Lemma withInitializer_insert s scope bounds d m :
  withInitializer s scope (IntervalMap.insert bounds d m)
  = IntervalMap.insert bounds d m.
Proof.
  unfold withInitializer, IntervalMap.insert. by destruct m.
Qed.

Lemma foreignEntries_insert bounds d m :
  ownDriver c d →
  foreignEntries c (IntervalMap.insert bounds d m) = foreignEntries c m.
Proof.
  intros Hd. unfold foreignEntries, IntervalMap.insert.
  rewrite filter_app, filter_cons. simpl.
  destruct (decide (¬ ownDriver c d)); [done|]. by rewrite app_nil_r.
Qed.

(** Storing one of [c]'s own drivers does not change what the entry looks
    like to [c]. *)
Lemma sameForeign_store s scope bounds d m :
  ownDriver c d → getParentScope s = Some scope →
  sameForeign c s m (IntervalMap.insert bounds d (withInitializer s scope m)).
Proof.
  intros Hd Hscope scope' Hscope'.
  assert (scope' = scope) as -> by congruence.
  by rewrite withInitializer_insert, foreignEntries_insert.
Qed.

Lemma sameForeign_refl s m : sameForeign c s m m.
Proof. by intros scope _. Qed.

Lemma sameForeign_trans s m1 m2 m3 :
  sameForeign c s m1 m2 → sameForeign c s m2 m3 → sameForeign c s m1 m3.
Proof.
  intros H12 H23 scope Hscope. by rewrite (H12 scope), (H23 scope).
Qed.

(** One driver of the list, stored from two states that look the same:
    the same diagnostics are issued, and the entries still look the same. *)
Lemma addDriver_twice s d bounds mA mB stA stB r stA' :
  ownDriver c d → ifacePortRefOf d = None →
  sameForeign c s mA mB →
  addDriver s mA d bounds stA = Done (r, stA') →
  ∃ mB' stB' ds,
    addDriver s mB d bounds stB = Done ((None, mB'), stB')
    ∧ r.1 = None
    ∧ issuedSince stA stA' ds ∧ issuedSince stB stB' ds
    ∧ symbolDrivers stA' = symbolDrivers stA
    ∧ symbolDrivers stB' = symbolDrivers stB
    ∧ sameForeign c s r.2 mB'.
Proof.
  intros Hd Href Hsame. rewrite !addDriver_run, Href.
  unfold issuedSince.
  destruct (isClass s) eqn:Hclass.
  { intros [= <- <-]. exists mB, stB, []. rewrite !app_nil_r.
    split_and!; done. }
  destruct (getParentScope s) as [scope|] eqn:Hscope; [|done].
  case_bool_decide as Hmodport.
  { intros [= <- <-]. eexists mB, _, []. rewrite !app_nil_r.
    split_and!; done. }
  intros [= <- <-].
  eexists _, _, (overlapDiagnostics s (withInitializer s scope mA) d bounds).
  split_and!; try done.
  - rewrite (overlapDiagnostics_foreign s (withInitializer s scope mB))
      by done.
    rewrite <- (Hsame scope Hscope).
    by rewrite <- (overlapDiagnostics_foreign s (withInitializer s scope mA))
      by done.
  - simpl. intros scope' Hscope'.
    assert (scope' = scope) as -> by congruence.
    rewrite !withInitializer_insert, !foreignEntries_insert by done.
    by apply Hsame.
Qed.

Lemma addDriverList_twice s ds :
  Forall (λ db, ownDriver c db.1 ∧ ifacePortRefOf db.1 = None) ds →
  ∀ mA mB stA stB r stA',
    sameForeign c s mA mB →
    addDriverList s ds mA stA = Done (r, stA') →
    ∃ mB' stB' dx,
      addDriverList s ds mB stB = Done (([], mB'), stB')
      ∧ r.1 = []
      ∧ issuedSince stA stA' dx ∧ issuedSince stB stB' dx
      ∧ symbolDrivers stA' = symbolDrivers stA
      ∧ symbolDrivers stB' = symbolDrivers stB
      ∧ sameForeign c s r.2 mB'.
Proof.
  unfold issuedSince.
  induction 1 as [|[d b] ds [Hd Href] _ IH]; intros mA mB stA stB r stA' Hsame;
    simpl.
  { intros [= <- <-]. exists mB, stB, []. rewrite !app_nil_r.
    split_and!; done. }
  intros Hrun. apply bind_Done in Hrun as (r1 & stA1 & Hadd & Hrun).
  apply bind_Done in Hrun as (more & stA2 & Hrest & Hrun).
  injection Hrun as <- <-.
  destruct (addDriver_twice s d b mA mB stA stB r1 stA1 Hd Href Hsame Hadd)
    as (mB1 & stB1 & d1 & HaddB & Hr1 & HdA & HdB & HsA & HsB & Hsame1).
  destruct (IH r1.2 mB1 stA1 stB1 more stA2 Hsame1 Hrest)
    as (mB2 & stB2 & d2 & HrestB & Hmore & HdA2 & HdB2 & HsA2 & HsB2 & Hsame2).
  exists mB2, stB2, (d1 ++ d2).
  unfold mbind, M_bind. rewrite HaddB. simpl. rewrite HrestB. simpl.
  rewrite Hr1, Hmore. simpl.
  split_and!; try done.
  - by rewrite HdA2, HdA, app_assoc.
  - by rewrite HdB2, HdB, app_assoc.
  - congruence.
  - congruence.
Qed.

Lemma sameForeignState_setEntry stA stB stA1 stB1 s mA mB :
  sameForeignState c stA stB →
  symbolDrivers stA1 = symbolDrivers stA →
  symbolDrivers stB1 = symbolDrivers stB →
  sameForeign c s mA mB →
  sameForeignState c (setEntry stA1 s mA) (setEntry stB1 s mB).
Proof.
  intros Hsim HA HB Hsame s'. destruct (decide (s = s')) as [<-|Hne].
  - by rewrite !entryOf_setEntry.
  - rewrite !entryOf_setEntry_ne by done.
    unfold entryOf. rewrite HA, HB. apply Hsim.
Qed.

Lemma visitList_twice s ds stA stB refs stA' :
  Forall (λ db, ownDriver c db.1 ∧ ifacePortRefOf db.1 = None) ds →
  sameForeignState c stA stB →
  try_emplace_and_visit s (addDriverList s ds) stA = Done (refs, stA') →
  ∃ stB' dx,
    try_emplace_and_visit s (addDriverList s ds) stB = Done ([], stB')
    ∧ refs = []
    ∧ issuedSince stA stA' dx ∧ issuedSince stB stB' dx
    ∧ sameForeignState c stA' stB'.
Proof.
  intros Hds Hsim. unfold try_emplace_and_visit, mbind, M_bind, get.
  destruct (addDriverList s ds (entryOf stA s) stA) as [[r stA1]| |] eqn:HrunA;
    [|done..].
  simpl. intros [= <- <-].
  destruct (addDriverList_twice s ds Hds (entryOf stA s) (entryOf stB s)
              stA stB r stA1 (Hsim s) HrunA)
    as (mB' & stB1 & dx & HrunB & Hr & HdA & HdB & HsA & HsB & Hsame).
  exists (setEntry stB1 s mB'), dx. rewrite HrunB. simpl.
  split_and!; try done.
  by apply (sameForeignState_setEntry stA stB).
Qed.

Lemma collectVisits_twice drivers :
  ownDriverList c drivers →
  ∀ stA stB refs stA',
    sameForeignState c stA stB →
    collect drivers
      (λ '(valueSym, ds),
         try_emplace_and_visit valueSym (addDriverList valueSym ds)) stA
    = Done (refs, stA') →
    ∃ stB' dx,
      collect drivers
        (λ '(valueSym, ds),
           try_emplace_and_visit valueSym (addDriverList valueSym ds)) stB
      = Done ([], stB')
      ∧ refs = []
      ∧ issuedSince stA stA' dx ∧ issuedSince stB stB' dx
      ∧ sameForeignState c stA' stB'.
Proof.
  unfold issuedSince.
  induction 1 as [|[s ds] drivers Hds _ IH]; intros stA stB refs stA' Hsim;
    simpl.
  { intros [= <- <-]. exists stB, []. rewrite !app_nil_r. split_and!; done. }
  intros Hrun. apply bind_Done in Hrun as (here & stA1 & Hhere & Hrun).
  apply bind_Done in Hrun as (later & stA2 & Hlater & Hrun).
  injection Hrun as <- <-.
  destruct (visitList_twice s ds stA stB here stA1 Hds Hsim Hhere)
    as (stB1 & d1 & HhereB & -> & HdA & HdB & Hsim1).
  destruct (IH stA1 stB1 later stA2 Hsim1 Hlater)
    as (stB2 & d2 & HlaterB & -> & HdA2 & HdB2 & Hsim2).
  exists stB2, (d1 ++ d2). unfold mbind, M_bind.
  rewrite HhereB. simpl. rewrite HlaterB. simpl.
  unfold issuedSince in *.
  split_and!; try done.
  - by rewrite HdA2, HdA, app_assoc.
  - by rewrite HdB2, HdB, app_assoc.
Qed.

(** Submitting [c]'s own drivers leaves every entry looking the same to
    [c]. *)
Lemma add_procedure_sameForeign fuel drivers st :
  ownDriverList c drivers →
  hoare (sameForeignState c st) (add_procedure fuel drivers)
        (λ _, sameForeignState c st).
Proof.
  intros Hown.
  apply (add_procedure_preserves (sameForeignState c st)
           (λ _ d, ownDriver c d ∧ ifacePortRefOf d = None)
           (λ _ _, False)).
  - intros st' s Hsim s'. destruct (decide (s = s')) as [<-|Hne].
    + rewrite entryOf_setEntry. apply Hsim.
    + rewrite entryOf_setEntry_ne by done. apply Hsim.
  - intros st' s scope d b Hsim [Hd _] _ Hscope _ s'.
    destruct (decide (s = s')) as [<-|Hne].
    + rewrite entryOf_setEntry.
      eapply sameForeign_trans; [apply Hsim|].
      by apply sameForeign_store.
    + rewrite entryOf_setEntry_ne by done. apply Hsim.
  - done.
  - done.
  - done.
  - done.
  - done.
  - intros s d ref [_ Href]. congruence.
  - exact Hown.
Qed.

(** C7 (amended).  When every driver of the list is a procedural driver of
    one and the same procedure, carries neither port flag and does not go
    through an interface port, a second submission of the list that
    follows a first one returns as well and issues the same diagnostics, in
    the same order. *)
Theorem resubmission_reports_the_same fuel drivers st st1 :
  ownDriverList c drivers →
  add_procedure fuel drivers st = Done (tt, st1) →
  ∃ st2 ds,
    add_procedure fuel drivers st1 = Done (tt, st2)
    ∧ issuedSince st st1 ds
    ∧ issuedSince st1 st2 ds.
Proof.
  intros Hown Hrun.
  assert (Hsim : sameForeignState c st st1).
  { pose proof (add_procedure_sameForeign fuel drivers st Hown st) as H.
    rewrite Hrun in H. apply H. intros s. apply sameForeign_refl. }
  unfold add_procedure in *.
  apply bind_Done in Hrun as (refs & stA & Hcollect & Hnote).
  destruct (collectVisits_twice drivers Hown st st1 refs stA Hsim Hcollect)
    as (st2 & ds & HcollectB & -> & HdA & HdB & _).
  injection Hnote as <-.
  exists st2, ds. unfold mbind, M_bind. rewrite HcollectB. done.
Qed.

End Twice.

(** ** The examples of C5 and C7 *)

(** In [Cascade] the re-projected driver goes the same way whatever driver
    was recorded: to [t] through the reference [r.t], or to the modport
    port [y] and through no interface port. *)
Lemma Cascade_projected d t0 d' :
  (t0, d') ∈ projectedDrivers (design := Cascade.design) Cascade.connection d →
  t0 = Cascade.t
  ∧ ifacePortRefOf (design := Cascade.design) d' = Some Cascade.ref2.
Proof.
  unfold projectedDrivers. simpl. intros Hin.
  apply list_elem_of_singleton in Hin. injection Hin as -> ->.
  split; [done|]. unfold ifacePortRefOf. simpl.
  by destruct (prefixExpression d).
Qed.

Lemma Cascade_projectedOfZ d t0 d' :
  (t0, d') ∈ projectedDrivers (design := Cascade.design)
               Cascade.connectionOfZ d →
  t0 = Cascade.y2 ∧ ifacePortRefOf (design := Cascade.design) d' = None.
Proof.
  unfold projectedDrivers. simpl. intros Hin.
  apply list_elem_of_singleton in Hin. injection Hin as -> ->.
  split; [done|]. unfold ifacePortRefOf. simpl.
  by destruct (prefixExpression d).
Qed.

Lemma Cascade_ifaceTarget t :
  ifaceTarget (design := Cascade.design) Cascade.ref2 t → t = Cascade.t2.
Proof.
  inversion 1 as [ref fuel instance t' Hwalk|
                  ref ref' t' (port & sel & rest & connRef & sr & Hpath
                               & Hconn & _)]; subst.
  - unfold Retarget.retargetIfacePort in Hwalk. simpl in Hwalk.
    rewrite andb_false_r, andb_true_r in Hwalk.
    destruct (bool_decide (instance = Cascade.i2)); [|done].
    destruct fuel as [|fuel]; [done|]. simpl in Hwalk.
    rewrite followConnections_other in Hwalk by done.
    by injection Hwalk as <-.
  - injection Hpath as <- _ _. done.
Qed.

Lemma Cascade_acyclic : Acyclic (design := Cascade.design)
                                Cascade.rank Cascade.depth 2.
Proof.
  split.
  - intros s. unfold Cascade.rank. destruct (_ || _); lia.
  - intros s t (conn & d & t0 & d' & Hconn & Hin & Ht) Hmodport.
    simpl in Hconn. case_bool_decide as Hs.
    + injection Hconn as <-.
      apply Cascade_projected in Hin as [-> Href].
      destruct Ht as [->|(ref & Href' & Ht)]; [done|].
      rewrite Href in Href'. injection Href' as <-.
      by apply Cascade_ifaceTarget in Ht as ->.
    + case_bool_decide as Hz; [|done]. injection Hconn as <-.
      apply Cascade_projectedOfZ in Hin as [-> Href].
      destruct Ht as [->|(ref & Href' & _)]; [|congruence].
      subst s. unfold Cascade.rank. simpl. lia.
  - intros s s' (Hs & Hconn & Hs'). simpl in Hconn.
    repeat case_bool_decide; simpl in Hconn; simplify_eq; try done.
    unfold Cascade.rank. simpl. lia.
  - intros ref. unfold Cascade.depth. repeat case_match; lia.
  - intros ref ref' (port & sel & rest & connRef & sr & Hpath & Hconn & _
                     & ->).
    simpl in Hconn. case_bool_decide as Hport; [|done].
    injection Hconn as <- _. unfold Cascade.depth. rewrite Hpath, Hport.
    simpl. lia.
Qed.

(** The propagation from [Cascade.noted] re-projects the clone through an
    interface port: [noteInterfacePortDriver] and the walk of
    [retargetIfacePort] are part of the run. *)
Lemma propagateModportDrivers_terminates_witness :
  ∃ fuel, ∀ fuel', (fuel ≤ fuel')%nat →
    terminates (propagateModportDrivers (design := Cascade.design) fuel')
               Cascade.noted.
Proof.
  exact (propagateModportDrivers_terminates (design := Cascade.design)
           Cascade.rank Cascade.depth 2 Cascade.noted Cascade_acyclic).
Defined.

(** Without acyclicity the loop need not end: when the connection
    expression of a modport port names the port itself, every pass records
    the driver again, and no amount of fuel suffices. *)
Lemma cyclic_connection_diverges fuel :
  propagateModportDrivers (design := Cyclic.design) fuel Cyclic.recorded
  = OutOfFuel.
Proof.
  induction fuel as [|fuel IH]; [done|]. simpl.
  unfold mbind, M_bind, get, setModportPortDrivers.
  rewrite bool_decide_eq_false_2 by (by vm_compute).
  assert (Hpass :
    propagatePass (design := Cyclic.design) fuel
                  (modportPortDrivers Cyclic.recorded)
                  (withModportPortDrivers Cyclic.recorded ∅)
    = Done (tt, Cyclic.recorded)) by (vm_compute; reflexivity).
  by rewrite Hpass.
Qed.

(** C7, as stated, fails.  A driver list with a continuous driver of the
    static variable [x] reports nothing the first time and
    [MultipleContAssigns] the second time, the driver meeting its own
    stored copy.  And the list of an [always_comb] procedure that drives a
    variable through an interface port, in a body shared by a second
    instance, reports the overlap with the clone once the first time and
    twice the second time, once of them with the roles exchanged. *)
Lemma resubmission_reports_more :
  (∃ st1 st2,
     add_procedure 1 Scenario.procedureDrivers emptyTracker = Done (tt, st1)
     ∧ add_procedure 1 Scenario.procedureDrivers st1 = Done (tt, st2)
     ∧ diagnostics st1 = []
     ∧ diag_code <$> diagnostics st2 = [MultipleContAssigns])
  ∧ (∃ st1 st2,
       add_procedure (design := Shared.design) 2 Shared.procedureDrivers
                     Shared.registered = Done (tt, st1)
       ∧ add_procedure (design := Shared.design) 2 Shared.procedureDrivers
                       st1 = Done (tt, st2)
       ∧ diagnostics st1 = [Shared.cloneReport]
       ∧ diagnostics st2
         = [Shared.cloneReport; Shared.driverReport; Shared.cloneReport]
       ∧ Shared.driverReport ∉ diagnostics st1).
Proof.
  split.
  - eexists _, _. split; [vm_compute; reflexivity|].
    split; [vm_compute; reflexivity|]. split; reflexivity.
  - eexists _, _. split; [vm_compute; reflexivity|].
    split; [vm_compute; reflexivity|]. split; [reflexivity|].
    split; [reflexivity|].
    simpl. intros Hin. apply list_elem_of_singleton in Hin. discriminate.
Qed.

Lemma resubmission_witness :
  ∃ st1 st2 ds,
    add_procedure 1 Scenario.ownDrivers Scenario.drivenX = Done (tt, st1)
    ∧ add_procedure 1 Scenario.ownDrivers st1 = Done (tt, st2)
    ∧ issuedSince Scenario.drivenX st1 ds
    ∧ issuedSince st1 st2 ds
    ∧ diag_code <$> ds = [MixedVarAssigns].
Proof.
  assert (Hown : ownDriverList Demo.assign1 Scenario.ownDrivers).
  { repeat constructor. }
  assert (Hrun : ∃ st1,
            add_procedure 1 Scenario.ownDrivers Scenario.drivenX
            = Done (tt, st1)
            ∧ diag_code <$> diagnostics st1 = [MixedVarAssigns]).
  { eexists. split; [vm_compute; reflexivity|reflexivity]. }
  destruct Hrun as (st1 & Hrun & Hcodes).
  destruct (resubmission_reports_the_same (design := Demo.design)
              Demo.assign1 1 Scenario.ownDrivers Scenario.drivenX st1
              Hown Hrun) as (st2 & ds & Hrun2 & Hds1 & Hds2).
  exists st1, st2, ds. split_and!; try done.
  unfold issuedSince in Hds1. simpl in Hds1. by rewrite <- Hds1.
Defined.
(** ** Every operation is made of elementary updates

    The operations change the tracker only by creating an empty entry,
    storing a driver in an entry (with the reports of the overlap scan),
    recording a driver against a modport port, noting a driver under the
    body of an interface port, registering a non-canonical instance, and
    emptying the side table.  A property that survives these six updates
    holds in every reachable state. *)

Section Elementary.
Context {design : Design}.
Context (Inv : Tracker → Prop).

Hypothesis Inv_touch : ∀ st s, Inv st → Inv (setEntry st s (entryOf st s)).
Hypothesis Inv_stored : ∀ st s scope d b,
  Inv st → isClass s = false → getParentScope s = Some scope →
  symKind s ≠ SymbolKind.ModportPort →
  Inv (stored st s scope d b).
Hypothesis Inv_recorded : ∀ st s d b,
  Inv st → isClass s = false → is_Some (getParentScope s) →
  symKind s = SymbolKind.ModportPort →
  Inv (recordedModport st s d b).
Hypothesis Inv_noted : ∀ st ref d port sel rest body,
  Inv st → isViaIfacePort ref = true → is_Some (target ref) →
  hasExpr ref = true → path ref = (port, sel) :: rest →
  getParentScope port = Some body →
  symKind body = SymbolKind.InstanceBody →
  Inv (noted st body ref d).
Hypothesis Inv_registered : ∀ st canonical instance,
  Inv st → getCanonicalBody instance = Some canonical →
  Inv (registered st canonical instance).
Hypothesis Inv_cleared : ∀ st, Inv st → Inv (withModportPortDrivers st ∅).

Lemma addDriver_elementary s m d b :
  hoare (λ st, Inv (setEntry st s m)) (addDriver s m d b)
        (λ r st', Inv (setEntry st' s r.2)).
Proof.
  intros st HInv. rewrite addDriver_run.
  destruct (isClass s) eqn:Hclass; [done|].
  destruct (getParentScope s) as [scope|] eqn:Hscope; [|done].
  case_bool_decide as Hmodport; simpl.
  - unfold recordedModport. rewrite setEntry_withModportPortDrivers.
    apply (Inv_recorded (setEntry st s m) s d b); by eauto.
  - pose proof (Inv_stored (setEntry st s m) s scope d b HInv Hclass Hscope
                  Hmodport) as H.
    unfold stored in H.
    by rewrite entryOf_setEntry, setEntry_setEntry in H.
Qed.

Lemma visit_elementary {A} s (f : IntervalMap.t → M (A * IntervalMap.t)) :
  (∀ m, hoare (λ st, Inv (setEntry st s m)) (f m)
              (λ r st', Inv (setEntry st' s r.2))) →
  hoare Inv (try_emplace_and_visit s f) (λ _, Inv).
Proof.
  intros Hf st HInv. unfold try_emplace_and_visit, mbind, M_bind, get.
  specialize (Hf (entryOf st s) st (Inv_touch st s HInv)).
  by destruct (f (entryOf st s) st) as [[r st1]| |].
Qed.

Lemma applyInstanceSideEffect_elementary fuel ifacePortDriver instance :
  hoare Inv (applyInstanceSideEffect fuel ifacePortDriver instance)
        (λ _, Inv).
Proof.
  unfold applyInstanceSideEffect.
  destruct (Retarget.retargetIfacePort _ _ instance) as [[t|]| | |];
    [|by apply triple_ret|by apply triple_failWith..
     |by apply triple_outOfFuel].
  destruct (getBounds _ _ _) as [b|]; [|by apply triple_ret].
  apply visit_elementary. intros m. eapply triple_bind.
  - apply addDriver_elementary.
  - intros r. simpl. apply hoare_assert_seq. by apply triple_ret.
Qed.

Lemma hoare_assert_true {A} (P : Tracker → Prop) (Q : A → Tracker → Prop)
    site b (k : M A) :
  (b = true → hoare P k Q) → hoare P (SLANG_ASSERT site b ;; k) Q.
Proof.
  intros Hk. destruct b; [|done]. intros st HP. by apply (Hk eq_refl).
Qed.

Lemma noteInterfacePortDriver_elementary fuel ref d :
  hoare Inv (noteInterfacePortDriver fuel ref d) (λ _, Inv).
Proof.
  revert ref. induction fuel as [|fuel IH]; intros ref; simpl.
  { by apply triple_outOfFuel. }
  apply hoare_assert_true. intros Hvia.
  apply hoare_assert_true. intros Htarget%bool_decide_eq_true.
  apply hoare_assert_true. intros Hexpr.
  destruct (path ref) as [|[port sel] rest] eqn:Hpath;
    [by apply triple_failWith|].
  destruct (getParentScope port) as [body|] eqn:Hscope;
    [|by apply triple_failWith].
  apply hoare_assert_true. intros Hbody%bool_decide_eq_true.
  apply triple_get_bind. intros st0 Hst0.
  eapply (triple_seq _ _ _ Inv).
  { apply triple_setInstanceState. intros st ->.
    by apply (Inv_noted st0 ref d port sel rest body). }
  eapply (triple_seq _ _ _ Inv).
  { apply triple_forEach. intros instance _.
    apply applyInstanceSideEffect_elementary. }
  destruct (getConnectionAndExpr port) as [[]|];
    try (by apply triple_ret).
  destruct (isViaIfacePort hierRef); [apply IH|by apply triple_ret].
Qed.

Lemma noteAll_elementary fuel refs :
  hoare Inv (noteAll fuel refs) (λ _, Inv).
Proof.
  apply triple_forEach. intros [ref d] _.
  apply noteInterfacePortDriver_elementary.
Qed.

Lemma hoare_collect {A B} (xs : list A) (body : A → M (list B)) :
  (∀ x, x ∈ xs → hoare Inv (body x) (λ _, Inv)) →
  hoare Inv (collect xs body) (λ _, Inv).
Proof.
  intros Hbody.
  eapply triple_weaken;
    [apply (triple_collect _ _ Inv (λ _, True))| done | by intros ? ? [? _]].
  intros x Hx. eapply triple_weaken; [by apply Hbody | done |].
  intros bs st Hst. split; [done|]. by apply Forall_forall.
Qed.

Lemma addDrivers_elementary fuel expr k fl containing initialLSP :
  hoare Inv (addDrivers fuel expr k fl containing initialLSP) (λ _, Inv).
Proof.
  unfold addDrivers. eapply triple_bind.
  - apply hoare_collect. intros [[s lsp] isLValue] _.
    destruct isLValue; simpl; [|by apply triple_ret].
    destruct (getBounds lsp containing s) as [b|]; [|by apply triple_ret].
    apply visit_elementary. intros m.
    eapply triple_bind; [apply addDriver_elementary|].
    intros r. by apply triple_ret.
  - intros refs. apply noteAll_elementary.
Qed.

Lemma addDriverList_elementary s ds :
  ∀ m, hoare (λ st, Inv (setEntry st s m)) (addDriverList s ds m)
             (λ r st', Inv (setEntry st' s r.2)).
Proof.
  induction ds as [|[d b] ds IH]; intros m; simpl.
  { by apply triple_ret. }
  eapply triple_bind; [apply addDriver_elementary|].
  intros r. simpl. eapply triple_bind; [apply IH|].
  intros more. by apply triple_ret.
Qed.

Lemma add_procedure_elementary fuel drivers :
  hoare Inv (add_procedure fuel drivers) (λ _, Inv).
Proof.
  unfold add_procedure. eapply triple_bind.
  - apply hoare_collect. intros [s ds] _.
    apply visit_elementary. apply addDriverList_elementary.
  - intros refs. apply noteAll_elementary.
Qed.

Lemma addDriverListNoRef_elementary s ds :
  ∀ m, hoare (λ st, Inv (setEntry st s m)) (addDriverListNoRef s ds m)
             (λ r st', Inv (setEntry st' s r.2)).
Proof.
  induction ds as [|[d b] ds IH]; intros m; simpl.
  { by apply triple_ret. }
  eapply triple_bind; [apply addDriver_elementary|].
  intros r. simpl. apply hoare_assert_seq. apply IH.
Qed.

Lemma add_symbolDriverList_elementary drivers :
  hoare Inv (add_symbolDriverList drivers) (λ _, Inv).
Proof.
  unfold add_symbolDriverList. apply triple_forEach. intros [s ds] _.
  apply visit_elementary. apply addDriverListNoRef_elementary.
Qed.

Lemma noteNonCanonicalInstance_elementary fuel instance :
  hoare Inv (noteNonCanonicalInstance fuel instance) (λ _, Inv).
Proof.
  unfold noteNonCanonicalInstance.
  destruct (getCanonicalBody instance) as [canonical|] eqn:Hcanonical;
    [|by apply triple_failWith].
  apply triple_get_bind. intros st0 Hst0.
  eapply (triple_seq _ _ _ Inv).
  { apply triple_setInstanceState. intros st ->.
    by apply (Inv_registered st0 canonical instance). }
  apply triple_forEach. intros ifacePortDriver _.
  apply applyInstanceSideEffect_elementary.
Qed.

Lemma propagatePass_elementary fuel localCopy :
  hoare Inv (propagatePass fuel localCopy) (λ _, Inv).
Proof.
  unfold propagatePass. apply triple_forEach. intros [s ds] _. simpl.
  destruct (getConnectionExpr s) as [conn|]; [|by apply triple_ret].
  apply triple_forEach. intros [d b] _. apply addDrivers_elementary.
Qed.

Lemma propagateModportDrivers_elementary fuel :
  hoare Inv (propagateModportDrivers fuel) (λ _, Inv).
Proof.
  induction fuel as [|fuel IH]; simpl.
  { by apply triple_outOfFuel. }
  apply triple_get_bind. intros st0 Hst0.
  eapply (triple_seq _ _ _ Inv).
  { apply triple_setModportPortDrivers. intros st ->. by apply Inv_cleared. }
  case_bool_decide; [by apply triple_ret|].
  eapply (triple_seq _ _ _ Inv); [|exact IH].
  apply propagatePass_elementary.
Qed.

Lemma runOperation_elementary fuel op :
  hoare Inv (runOperation fuel op) (λ _, Inv).
Proof.
  destruct op; simpl.
  - apply add_procedure_elementary.
  - unfold add_portConnection.
    destruct (getExpression connection) as [expr|]; [|by apply triple_ret].
    destruct (_ || _); [by apply triple_ret|].
    case_bool_decide; [by apply triple_ret|]. apply addDrivers_elementary.
  - unfold add_portSymbol. destruct (_ && _); [by apply triple_ret|].
    destruct (getParentScope symbol); [|by apply triple_failWith].
    destruct (getInternalExpr symbol); [apply addDrivers_elementary|].
    destruct (internalSymbol symbol);
      [apply addDrivers_elementary|by apply triple_ret].
  - unfold add_clockVar. case_bool_decide; [by apply triple_ret|].
    destruct (getParentScope symbol); [|by apply triple_failWith].
    destruct (getInitializer symbol);
      [apply addDrivers_elementary|by apply triple_ret].
  - apply addDrivers_elementary.
  - apply add_symbolDriverList_elementary.
  - apply noteNonCanonicalInstance_elementary.
  - apply propagateModportDrivers_elementary.
Qed.

Lemma reachable_elementary st :
  Inv emptyTracker → reachable st → Inv st.
Proof.
  intros Hempty. induction 1 as [|st fuel op st' _ IH Hrun]; [done|].
  pose proof (runOperation_elementary fuel op st IH) as H.
  by rewrite Hrun in H.
Qed.

End Elementary.
(** ** What [handleOverlap] reports *)

Section Reports.
Context {design : Design}.

(** A report made by [handleOverlap] for [symbol]. *)
Lemma handleOverlap_report symbol curr driver isNet isUWire isUDNT nt st :
  (isUDNT = true → is_Some nt) →
  ∃ b ds,
    handleOverlap symbol curr driver isNet isUWire isUDNT nt st
    = Done (b, appendDiags st ds)
    ∧ (ds = [] ∧ b = true
       ∨ ∃ dg, ds = [dg] ∧ diag_symbol dg = symbol
               ∧ b = isCoercion (diag_code dg)
               ∧ fitsFlags isNet isUWire isUDNT (diag_code dg) = true).
Proof.
  intros Hnt.
  rewrite (handleOverlap_reportsOnly symbol curr driver isNet isUWire isUDNT
             nt st).
  assert (H : ∃ b e,
    handleOverlap symbol curr driver isNet isUWire isUDNT nt emptyTracker
    = Done (b, e)
    ∧ (diagnostics e = [] ∧ b = true
       ∨ ∃ dg, diagnostics e = [dg] ∧ diag_symbol dg = symbol
               ∧ b = isCoercion (diag_code dg)
               ∧ fitsFlags isNet isUWire isUDNT (diag_code dg) = true)).
  { unfold handleOverlap, isInputPort, isUnidirectionalPort, isClockVar.
    assert (Hassert : negb isUDNT || bool_decide (is_Some nt) = true).
    { destruct isUDNT; [|done]. simpl.
      by rewrite bool_decide_eq_true_2; auto. }
    rewrite Hassert. clear Hassert Hnt.
    destruct isNet, isUWire, isUDNT;
      destruct (has (flags curr) (N.lor _ _)),
               (has (flags driver) (N.lor _ _));
      destruct (has (flags curr) DriverFlags.InputPort),
               (has (flags driver) DriverFlags.InputPort);
      destruct (has (flags curr) DriverFlags.ClockVar),
               (has (flags driver) DriverFlags.ClockVar);
      destruct (kind curr), (kind driver); simpl;
      repeat (match goal with
              | |- context [isInSingleDriverProcedure ?d] =>
                  destruct (isInSingleDriverProcedure d)
              | |- context [has ?a ?b] => destruct (has a b)
              end; simpl);
      eexists _, _; (split; [reflexivity|]); simpl;
      first [ by left | right; eexists; by split_and! ]. }
  destruct H as (b & e & -> & H). by exists b, (diagnostics e).
Qed.

(** The reports of the scan of [addDriver]: warnings first, then at most
    one error, at which the scan stops. *)
Lemma overlapLoop_report symbol driver checkOverlap isNet isUWire isUDNT nt
    entries st :
  (isUDNT = true → is_Some nt) →
  ∃ ws es,
    overlapLoop symbol driver checkOverlap isNet isUWire isUDNT nt entries st
    = Done (tt, appendDiags st (ws ++ es))
    ∧ Forall (λ dg, diag_symbol dg = symbol
                    ∧ isCoercion (diag_code dg) = true
                    ∧ fitsFlags isNet isUWire isUDNT (diag_code dg) = true)
             ws
    ∧ Forall (λ dg, diag_symbol dg = symbol
                    ∧ isCoercion (diag_code dg) = false
                    ∧ fitsFlags isNet isUWire isUDNT (diag_code dg) = true)
             es
    ∧ (length es ≤ 1)%nat
    ∧ (entries = [] → ws = [] ∧ es = []).
Proof.
  intros Hnt. revert st.
  induction entries as [|curr rest IH]; intros st; simpl.
  { exists [], []. rewrite appendDiags_nil. repeat split; simpl; auto. }
  destruct (isProblem checkOverlap curr driver).
  - destruct (handleOverlap_report symbol curr driver isNet isUWire isUDNT nt
                st Hnt) as (b & ds & Hrun & Hds).
    unfold mbind, M_bind. rewrite Hrun.
    destruct Hds as [[-> ->]|(dg & -> & Hsym & -> & Hfits)].
    + rewrite appendDiags_nil.
      destruct (IH st) as (ws & es & -> & Hws & Hes & Hlen & _).
      exists ws, es. by repeat split.
    + destruct (isCoercion (diag_code dg)) eqn:Hco.
      * destruct (IH (appendDiags st [dg]))
          as (ws & es & -> & Hws & Hes & Hlen & _).
        exists (dg :: ws), es. rewrite appendDiags_app.
        repeat split; try done. by constructor.
      * exists [], [dg].
        repeat split; simpl; auto; try done; by repeat constructor.
  - destruct (IH st) as (ws & es & -> & Hws & Hes & Hlen & _).
    exists ws, es. by repeat split.
Qed.

Lemma overlapDiagnostics_report symbol driverMap driver bounds :
  ∃ ws es,
    overlapDiagnostics symbol driverMap driver bounds = ws ++ es
    ∧ Forall (λ dg, diag_symbol dg = symbol
                    ∧ isCoercion (diag_code dg) = true
                    ∧ codeFits symbol (diag_code dg) = true) ws
    ∧ Forall (λ dg, diag_symbol dg = symbol
                    ∧ isCoercion (diag_code dg) = false
                    ∧ codeFits symbol (diag_code dg) = true) es
    ∧ (length es ≤ 1)%nat
    ∧ (IntervalMap.find bounds driverMap = [] → ws = [] ∧ es = []).
Proof.
  unfold overlapDiagnostics, checkOverlaps.
  match goal with
  | |- context [overlapLoop symbol driver ?co ?isNet ?uw ?ud ?nt ?en ?st] =>
      destruct (overlapLoop_report symbol driver co isNet uw ud nt en st)
        as (ws & es & -> & Hws & Hes & Hlen & Hnil)
  end.
  { destruct (bool_decide (symKind symbol = SymbolKind.Net)); [eauto|done]. }
  exists ws, es. split; [done|]. split; [exact Hws|]. split; [exact Hes|].
  split; [exact Hlen|exact Hnil].
Qed.

(** X3.  [handleOverlap] issues at most one diagnostic, about the symbol it was
    called for, and its result tells how bad it was: [false] exactly when
    the diagnostic is an error, [true] when nothing was issued or a
    port-coercion warning. *)
Theorem handleOverlap_verdict_is_severity
    symbol curr driver isNet isUWire isUDNT nt st :
  (isUDNT = true → is_Some nt) →
  ∃ b ds,
    handleOverlap symbol curr driver isNet isUWire isUDNT nt st
    = Done (b, appendDiags st ds)
    ∧ (length ds ≤ 1)%nat
    ∧ Forall (λ dg, diag_symbol dg = symbol) ds
    ∧ (b = true ↔ Forall (λ dg, isCoercion (diag_code dg) = true) ds)
    ∧ (b = false → ∃ dg, ds = [dg] ∧ isCoercion (diag_code dg) = false).
Proof.
  intros Hnt.
  destruct (handleOverlap_report symbol curr driver isNet isUWire isUDNT nt
              st Hnt) as (b & ds & Hrun & Hds).
  exists b, ds. split; [done|].
  destruct Hds as [[-> ->]|(dg & -> & Hsym & -> & _)].
  - repeat split; try done. simpl. lia.
  - repeat split; try done.
    + by repeat constructor.
    + intros H. by repeat constructor.
    + by intros [H _]%Forall_cons.
    + intros H. by exists dg.
Qed.

End Reports.

Lemma handleOverlap_verdict_is_severity_witness :
  ∃ b ds,
    handleOverlap Demo.x Scenario.assignXDriver Scenario.ownXDriver
                  false false false None emptyTracker
    = Done (b, appendDiags emptyTracker ds)
    ∧ (length ds ≤ 1)%nat
    ∧ Forall (λ dg, diag_symbol dg = Demo.x) ds
    ∧ (b = true ↔ Forall (λ dg, isCoercion (diag_code dg) = true) ds)
    ∧ (b = false → ∃ dg, ds = [dg] ∧ isCoercion (diag_code dg) = false).
Proof.
  apply (handleOverlap_verdict_is_severity (design := Demo.design)).
  discriminate.
Defined.

(** ** What one call of [addDriver] does *)

Section OneInsertion.
Context {design : Design}.

(** X1.  [addDriver] stops at an assertion only for a symbol that is not
    class-typed and has no parent scope; the assertion on the net type
    inside [handleOverlap] never stops it, and it needs no fuel. *)
Theorem addDriver_fails_only_without_scope s m d b st :
  (addDriver s m d b st = Failed AssertScope
   ↔ isClass s = false ∧ getParentScope s = None)
  ∧ (∀ site, addDriver s m d b st = Failed site → site = AssertScope)
  ∧ addDriver s m d b st ≠ OutOfFuel.
Proof.
  rewrite addDriver_run.
  destruct (isClass s).
  { split_and!; [split; [done|by intros [??]] | done | done]. }
  destruct (getParentScope s) as [scope|].
  - case_bool_decide;
      (split_and!; [split; [done|by intros [??]] | done | done]).
  - split_and!; [done | by intros site [= <-] | done].
Qed.

(** X2.  One insertion reports at most one error, and reports it last: the
    diagnostics that a call of [addDriver] issues are all about the symbol,
    they are port-coercion warnings except possibly the last one, and a
    symbol that is no net gets at most one diagnostic per insertion. *)
Theorem addDriver_reports_at_most_one_error s m d b st r st' :
  addDriver s m d b st = Done (r, st') →
  ∃ warnings errors,
    diagnostics st' = diagnostics st ++ warnings ++ errors
    ∧ Forall (λ dg, diag_symbol dg = s ∧ isCoercion (diag_code dg) = true)
             warnings
    ∧ Forall (λ dg, diag_symbol dg = s ∧ isCoercion (diag_code dg) = false)
             errors
    ∧ (length errors ≤ 1)%nat
    ∧ (symKind s ≠ SymbolKind.Net → warnings = []).
Proof.
  rewrite addDriver_run.
  destruct (isClass s).
  { intros [= _ <-]. exists [], []. rewrite app_nil_r.
    repeat split; simpl; auto. }
  destruct (getParentScope s) as [scope|]; [|done].
  case_bool_decide.
  { intros [= _ <-]. exists [], []. simpl. rewrite app_nil_r.
    repeat split; simpl; auto. }
  intros [= _ <-]. simpl.
  destruct (overlapDiagnostics_report s (withInitializer s scope m) d b)
    as (ws & es & -> & Hws & Hes & Hlen & _).
  exists ws, es. split; [done|]. split; [|split; [|split; [done|]]].
  - eapply Forall_impl; [exact Hws|]. by intros dg (? & ? & _).
  - eapply Forall_impl; [exact Hes|]. by intros dg (? & ? & _).
  - intros Hkind. destruct ws as [|dg ws]; [done|].
    apply Forall_cons in Hws as [(_ & Hco & Hfits) _].
    unfold codeFits in Hfits.
    rewrite (bool_decide_eq_false_2 _ Hkind) in Hfits.
    by destruct (diag_code dg).
Qed.

(** X5.  On a symbol whose drivers are not checked for overlap, nothing is
    reported as long as the stored drivers and the new one are all
    unidirectional-port drivers or all are not. *)
Theorem unchecked_symbol_tolerates_overlap s scope m d b st :
  isClass s = false →
  getParentScope s = Some scope →
  symKind s ≠ SymbolKind.ModportPort →
  overlapChecked s = false →
  Forall (λ e, isUnidirectionalPort e.2 = isUnidirectionalPort d)
         (withInitializer s scope m) →
  addDriver s m d b st
  = Done ((ifacePortRefOf d,
           IntervalMap.insert b d (withInitializer s scope m)), st).
Proof.
  intros Hclass Hscope Hmodport Hchecked Hports.
  rewrite addDriver_run, Hclass, Hscope.
  rewrite (bool_decide_eq_false_2 _ Hmodport).
  assert (Hnone : overlapDiagnostics s (withInitializer s scope m) d b = []).
  { unfold overlapDiagnostics, checkOverlaps.
    rewrite overlapLoop_no_problem; [done|].
    apply find_Forall. rewrite Forall_fmap.
    eapply Forall_impl; [exact Hports|]. intros [bounds curr] Hcurr.
    simpl in *. unfold isProblem. rewrite Hcurr.
    rewrite eqb_reflx. simpl.
    unfold overlapChecked, isUWire, isSingleDriverUDNT in Hchecked.
    by rewrite Hchecked. }
  by rewrite Hnone, appendDiags_nil.
Qed.

End OneInsertion.

Lemma addDriver_reports_at_most_one_error_witness :
  ∃ warnings errors,
    diagnostics
      (mkTracker ∅ ∅ ∅
         [mkDiag Demo.x MixedVarAssigns (mkRange 100 101) [ArgString "x"]
                 [mkNote NoteAssignedHere (Some (mkRange 50 51)) []]])
    = diagnostics emptyTracker ++ warnings ++ errors
    ∧ Forall (λ dg, diag_symbol dg = Demo.x
                    ∧ isCoercion (diag_code dg) = true) warnings
    ∧ Forall (λ dg, diag_symbol dg = Demo.x
                    ∧ isCoercion (diag_code dg) = false) errors
    ∧ (length errors ≤ 1)%nat
    ∧ (symKind Demo.x ≠ SymbolKind.Net → warnings = []).
Proof.
  apply (addDriver_reports_at_most_one_error (design := Demo.design) Demo.x
           [((0, 0), Demo.driverOf Demo.x 50 DriverKind.Continuous
                       Demo.assign2 DriverFlags.None)]
           Scenario.ownXDriver (0, 0) emptyTracker
           (None,
            [((0, 0), Demo.driverOf Demo.x 50 DriverKind.Continuous
                        Demo.assign2 DriverFlags.None);
             ((0, 0), Scenario.ownXDriver)])).
  vm_compute. reflexivity.
Defined.

Lemma unchecked_symbol_tolerates_overlap_witness :
  addDriver Demo.n [((0, 3), Scenario.assignNDriver)]
            (Demo.driverOf Demo.n 400 DriverKind.Continuous Demo.assign2
                           DriverFlags.None) (2, 3) emptyTracker
  = Done ((None,
           [((0, 3), Scenario.assignNDriver);
            ((2, 3), Demo.driverOf Demo.n 400 DriverKind.Continuous
                                   Demo.assign2 DriverFlags.None)]),
          emptyTracker).
Proof.
  apply (unchecked_symbol_tolerates_overlap (design := Demo.design) Demo.n
           Demo.body [((0, 3), Scenario.assignNDriver)]
           (Demo.driverOf Demo.n 400 DriverKind.Continuous Demo.assign2
                          DriverFlags.None) (2, 3) emptyTracker);
    [reflexivity | reflexivity | discriminate | reflexivity |].
  repeat constructor.
Defined.

(** ** Ports, initializers and the order of the two drivers *)

Section PortsAndInitializers.
Context {design : Design}.

Lemma has_lor f a b : has f (N.lor a b) = has f a || has f b.
Proof.
  unfold has. rewrite N.land_lor_distr_r.
  destruct (N.eqb_spec (N.land f a) 0) as [Ha|Ha],
           (N.eqb_spec (N.land f b) 0) as [Hb|Hb]; simpl.
  - by rewrite Ha, Hb.
  - rewrite Ha. simpl. by apply negb_true_iff, N.eqb_neq.
  - apply negb_true_iff, N.eqb_neq. intros [? _]%N.lor_eq_0_iff. done.
  - apply negb_true_iff, N.eqb_neq. intros [? _]%N.lor_eq_0_iff. done.
Qed.

Lemma isUnidirectionalPort_false d :
  isUnidirectionalPort d = false →
  has (flags d) DriverFlags.InputPort = false
  ∧ has (flags d) DriverFlags.OutputPort = false.
Proof.
  unfold isUnidirectionalPort. rewrite has_lor. by intros [??]%orb_false_iff.
Qed.

(** X4.  When exactly one of two overlapping drivers is a port driver, an output
    port on a plain net or an input port on a variable, [handleOverlap]
    issues the same diagnostic, with the same ranges and the same verdict,
    whichever of the two is the stored one. *)
Theorem port_report_does_not_depend_on_order
    symbol port other isNet isUWire isUDNT nt st :
  isUnidirectionalPort other = false →
  (isNet = true →
   isUWire = false ∧ isUDNT = false
   ∧ has (flags port) DriverFlags.InputPort = false
   ∧ has (flags port) DriverFlags.OutputPort = true) →
  (isNet = false →
   has (flags port) DriverFlags.InputPort = true
   ∧ has (flags port) DriverFlags.OutputPort = false) →
  handleOverlap symbol port other isNet isUWire isUDNT nt st
  = handleOverlap symbol other port isNet isUWire isUDNT nt st.
Proof.
  intros Hother Hnet Hvar.
  destruct (isUnidirectionalPort_false other Hother) as [Hin Hout].
  unfold handleOverlap, isInputPort. rewrite Hother, Hin, Hout.
  unfold isUnidirectionalPort. rewrite has_lor.
  destruct isNet.
  - destruct (Hnet eq_refl) as (-> & -> & -> & ->). reflexivity.
  - destruct (Hvar eq_refl) as (-> & ->). reflexivity.
Qed.

Lemma initializer_flag_only :
  has DriverFlags.Initializer DriverFlags.InputPort = false
  ∧ has DriverFlags.Initializer
        (N.lor DriverFlags.InputPort DriverFlags.OutputPort) = false
  ∧ has DriverFlags.Initializer DriverFlags.ClockVar = false
  ∧ has DriverFlags.Initializer DriverFlags.Initializer = true.
Proof. by vm_compute. Qed.

(** X6.  The first driver of a static variable, class property or field that
    has an initializer meets the initializer's procedural driver: when the
    bits overlap, a continuous driver is reported as [MixedVarAssigns] and a
    procedural one is not reported; both times the two drivers are
    stored. *)
Theorem initialized_variable_and_first_driver s scope init d b st :
  symKind s ∈ [SymbolKind.Variable_; SymbolKind.ClassProperty;
               SymbolKind.Field] →
  lifetime s = VariableLifetime.Static →
  isClass s = false →
  getParentScope s = Some scope →
  getInitializer s = Some init →
  isUnidirectionalPort d = false →
  isClockVar d = false →
  IntervalMap.overlaps (0, getSelectableWidth s - 1) b = true →
  ∃ st' ds,
    addDriver s [] d b st
    = Done ((ifacePortRefOf d,
             [((0, getSelectableWidth s - 1),
               initializerDriver s scope DriverKind.Procedural);
              (b, d)]), st')
    ∧ issuedSince st st' ds
    ∧ diag_code <$> ds
      = if bool_decide (kind d = DriverKind.Continuous)
        then [MixedVarAssigns] else [].
Proof.
  intros Hkind Hstatic Hclass Hscope Hinit Hport Hclock Hoverlap.
  destruct (isUnidirectionalPort_false d Hport) as [Hin Hout].
  destruct initializer_flag_only as (Hi1 & Hi2 & Hi3 & Hi4).
  assert (Hsyn : synthesizeInitializer s scope []
                 = [((0, getSelectableWidth s - 1),
                     initializerDriver s scope DriverKind.Procedural)]).
  { unfold synthesizeInitializer. rewrite Hinit.
    set_unfold in Hkind. by destruct Hkind as [-> | [-> | [-> | []]]]. }
  assert (Hvar : VariableSymbol_isKind (symKind s) = true
                 ∧ symKind s ≠ SymbolKind.Net
                 ∧ symKind s ≠ SymbolKind.ModportPort).
  { set_unfold in Hkind. by destruct Hkind as [-> | [-> | [-> | []]]]. }
  destruct Hvar as (Hvar & Hnet & Hmodport).
  unfold addDriver. rewrite Hclass, Hscope.
  rewrite (bool_decide_eq_false_2 _ Hmodport). simpl. rewrite Hsyn. simpl.
  unfold checkOverlaps, IntervalMap.find.
  rewrite filter_cons_True by exact Hoverlap. simpl.
  rewrite (bool_decide_eq_false_2 _ Hnet). simpl.
  rewrite Hvar, (bool_decide_eq_true_2 _ Hstatic). simpl.
  unfold isProblem, shouldIgnore, isUnidirectionalPort. simpl.
  unfold isUnidirectionalPort in Hport. rewrite Hport. simpl.
  rewrite Hi4, orb_true_r. simpl. rewrite andb_false_r. simpl.
  destruct (decide (kind d = DriverKind.Continuous)) as [Hk|Hk].
  - rewrite !(bool_decide_eq_true_2 _ Hk). simpl.
    unfold handleOverlap, isInputPort, isClockVar, isUnidirectionalPort.
    simpl. rewrite Hin. unfold isClockVar in Hclock. rewrite Hclock.
    simpl. rewrite Hk. simpl.
    eexists _, _. split; [reflexivity|]. split; reflexivity.
  - rewrite !(bool_decide_eq_false_2 _ Hk). simpl.
    eexists _, []. split; [reflexivity|]. split; [|reflexivity].
    unfold issuedSince. by rewrite app_nil_r.
Qed.

End PortsAndInitializers.

(** An output port connection of the net [a] and an assignment to it. *)
Lemma port_report_does_not_depend_on_order_witness :
  handleOverlap Demo.a
    (Demo.driverOf Demo.a 500 DriverKind.Continuous Demo.assign2
                   DriverFlags.OutputPort)
    (Demo.driverOf Demo.a 200 DriverKind.Continuous Demo.assign1
                   DriverFlags.None)
    true false false (Some (netTypeOf Demo.a)) emptyTracker
  = handleOverlap Demo.a
      (Demo.driverOf Demo.a 200 DriverKind.Continuous Demo.assign1
                     DriverFlags.None)
      (Demo.driverOf Demo.a 500 DriverKind.Continuous Demo.assign2
                     DriverFlags.OutputPort)
      true false false (Some (netTypeOf Demo.a)) emptyTracker.
Proof.
  apply (port_report_does_not_depend_on_order (design := Demo.design));
    [reflexivity | by intros _ | discriminate].
Defined.

(** [assign x = ...] on the variable declared [logic x = 0]. *)
Lemma initialized_variable_and_first_driver_witness :
  ∃ st' ds,
    addDriver (design := Arrayed.design) 12%positive []
      (mkDriver DriverKind.Continuous
                (NamedValue 12%positive (mkRange 300 301)) 1%positive
                DriverFlags.None DriverSource.Other false None)
      (0, 0) emptyTracker
    = Done ((None,
             [((0, 0),
               initializerDriver (design := Arrayed.design) 12%positive
                                 1%positive DriverKind.Procedural);
              ((0, 0),
               mkDriver DriverKind.Continuous
                        (NamedValue 12%positive (mkRange 300 301))
                        1%positive DriverFlags.None DriverSource.Other
                        false None)]), st')
    ∧ issuedSince emptyTracker st' ds
    ∧ diag_code <$> ds = [MixedVarAssigns].
Proof.
  apply (initialized_variable_and_first_driver (design := Arrayed.design)
           12%positive 1%positive Demo.literal
           (mkDriver DriverKind.Continuous
                     (NamedValue 12%positive (mkRange 300 301)) 1%positive
                     DriverFlags.None DriverSource.Other false None)
           (0, 0) emptyTracker);
    try reflexivity.
  set_solver.
Defined.
(** ** What holds in every reachable state *)

Section Reachable.
Context {design : Design}.

Lemma getDrivers_entryOf st s :
  getDrivers st s = (λ entry, (entry.2, entry.1)) <$> entryOf st s.
Proof. unfold getDrivers, entryOf. by destruct (symbolDrivers st !! s). Qed.

Lemma stateOf_setInstance st k v body :
  stateOf (setInstance st k v) body
  = if decide (k = body) then v else stateOf st body.
Proof.
  unfold stateOf, setInstance. simpl. destruct (decide (k = body)) as [->|Hne].
  - by rewrite lookup_insert_eq.
  - by rewrite lookup_insert_ne.
Qed.

Lemma entryOf_stored st s scope d b s' :
  entryOf (stored st s scope d b) s'
  = if decide (s = s')
    then IntervalMap.insert b d (withInitializer s scope (entryOf st s))
    else entryOf st s'.
Proof.
  unfold stored. destruct (decide (s = s')) as [->|Hne].
  - apply entryOf_setEntry.
  - by apply entryOf_setEntry_ne.
Qed.

Lemma withInitializer_prefix s scope (m : IntervalMap.t) :
  m `prefix_of` withInitializer s scope m.
Proof.
  unfold withInitializer. destruct m; simpl; [apply prefix_nil|done].
Qed.

Lemma fmap_prefix {A B} (f : A → B) (l1 l2 : list A) :
  l1 `prefix_of` l2 → f <$> l1 `prefix_of` f <$> l2.
Proof. intros [k ->]. exists (f <$> k). by rewrite fmap_app. Qed.

Lemma grew_refl st : grew st st.
Proof. by repeat split. Qed.

Lemma grew_trans st1 st2 st3 : grew st1 st2 → grew st2 st3 → grew st1 st3.
Proof.
  intros (H1 & H2 & H3 & H4) (K1 & K2 & K3 & K4). split_and!.
  - intros s. etrans; [apply H1|apply K1].
  - etrans; [apply H2|apply K2].
  - etrans; [apply H3|apply K3].
  - intros body. destruct (H4 body) as [H5 H6], (K4 body) as [K5 K6].
    split; [etrans; [apply H5|apply K5] | etrans; [apply H6|apply K6]].
Qed.

(** X7.  No operation takes back or reorders what the tracker holds: the
    drivers of every symbol, the keys of [symbolDrivers], the diagnostics,
    and the instances and drivers noted under every body are all kept, in
    order, in front of whatever the operation adds.  (Only the side table
    of modport ports is ever emptied.) *)
Theorem operations_only_append fuel op st st' :
  runOperation fuel op st = Done (tt, st') → grew st st'.
Proof.
  intros Hrun.
  assert (H : hoare (grew st) (runOperation fuel op) (λ _, grew st)).
  { apply runOperation_elementary; clear.
    - intros st1 s H. eapply grew_trans; [exact H|]. split_and!; try done.
      + intros s'. rewrite !getDrivers_entryOf.
        destruct (decide (s = s')) as [->|Hne].
        * by rewrite entryOf_setEntry.
        * by rewrite entryOf_setEntry_ne.
      + simpl. set_solver.
    - intros st1 s scope d b H _ _ _. eapply grew_trans; [exact H|].
      split_and!; try done.
      + intros s'. rewrite !getDrivers_entryOf, entryOf_stored.
        destruct (decide (s = s')) as [->|Hne]; [|done].
        apply fmap_prefix. etrans; [apply withInitializer_prefix|].
        by apply prefix_app_r.
      + simpl. set_solver.
      + simpl. by apply prefix_app_r.
    - intros st1 s d b H _ _ _. eapply grew_trans; [exact H|].
      by repeat split.
    - intros st1 ref d port sel rest body H _ _ _ _ _ _.
      eapply grew_trans; [exact H|]. split_and!; try done.
      intros body'. unfold noted. rewrite stateOf_setInstance.
      destruct (decide (body = body')) as [->|Hne]; [|done]. simpl.
      split; [done|]. by apply prefix_app_r.
    - intros st1 canonical instance H _.
      eapply grew_trans; [exact H|]. split_and!; try done.
      intros body'. unfold registered. rewrite stateOf_setInstance.
      destruct (decide (canonical = body')) as [->|Hne]; [|done]. simpl.
      split; [|done]. by apply prefix_app_r.
    - intros st1 H. eapply grew_trans; [exact H|]. by repeat split. }
  specialize (H st (grew_refl st)). by rewrite Hrun in H.
Qed.

Lemma find_nil_inv bounds (m : IntervalMap.t) :
  m = [] → IntervalMap.find bounds m = [].
Proof. by intros ->. Qed.

(** X8.  A diagnostic is only ever issued about a symbol that holds at least two
    drivers: in every reachable state, each diagnostic names a symbol for
    which [getDrivers] returns two drivers or more. *)
Theorem diagnosed_symbol_holds_two_drivers st :
  reachable st →
  Forall (λ dg, (2 ≤ length (getDrivers st (diag_symbol dg)))%nat)
         (diagnostics st).
Proof.
  apply (reachable_elementary
           (λ st, Forall (λ dg, (2 ≤ length (getDrivers st
                                               (diag_symbol dg)))%nat)
                         (diagnostics st))).
  - intros st1 s H. eapply Forall_impl; [exact H|]. intros dg Hdg.
    simpl in Hdg. rewrite getDrivers_entryOf in *.
    destruct (decide (s = diag_symbol dg)) as [->|Hne].
    + by rewrite entryOf_setEntry.
    + by rewrite entryOf_setEntry_ne.
  - intros st1 s scope d b H _ _ _. simpl. apply Forall_app. split.
    + eapply Forall_impl; [exact H|]. intros dg Hdg. simpl in Hdg.
      rewrite getDrivers_entryOf in *. rewrite entryOf_stored.
      destruct (decide (s = diag_symbol dg)) as [->|Hne]; [|done].
      rewrite length_fmap in *. unfold IntervalMap.insert.
      rewrite length_app.
      pose proof (prefix_length _ _
                    (withInitializer_prefix (diag_symbol dg) scope
                       (entryOf st1 (diag_symbol dg)))).
      lia.
    + destruct (overlapDiagnostics_report s
                  (withInitializer s scope (entryOf st1 s)) d b)
        as (ws & es & Heq & Hws & Hes & _ & Hnil).
      rewrite Heq.
      assert (Hlen : ws ++ es ≠ [] →
                (2 ≤ length (getDrivers (stored st1 s scope d b) s))%nat).
      { intros Hne. rewrite getDrivers_entryOf, entryOf_stored.
        rewrite decide_True by done. rewrite length_fmap.
        unfold IntervalMap.insert. rewrite length_app. simpl.
        destruct (withInitializer s scope (entryOf st1 s)) as [|e m];
          [|simpl; lia].
        destruct (Hnil eq_refl) as [-> ->]. done. }
      apply Forall_app. split.
      * apply Forall_forall. intros dg Hdg.
        destruct (proj1 (Forall_forall _ _) Hws dg Hdg) as (-> & _).
        apply Hlen. intros Heq'.
        apply app_eq_nil in Heq' as [-> _]. by apply elem_of_nil in Hdg.
      * apply Forall_forall. intros dg Hdg.
        destruct (proj1 (Forall_forall _ _) Hes dg Hdg) as (-> & _).
        apply Hlen. intros Heq'.
        apply app_eq_nil in Heq' as [_ ->]. by apply elem_of_nil in Hdg.
  - by intros st1 s d b H _ _ _.
  - by intros st1 ref d port sel rest body H _ _ _ _ _ _.
  - by intros st1 canonical instance H _.
  - by intros st1 H.
  - constructor.
Qed.

(** X9.  The code of a diagnostic fits the symbol it is about: in every
    reachable state, [InputPortAssign] is only reported for symbols that
    are no nets, the two port coercions only for nets that are neither
    uwires nor user-defined nets without resolution function,
    [MultipleUWireDrivers] only for uwires, [MultipleUDNTDrivers] only for
    user-defined nets without resolution function, [MultipleContAssigns]
    and [MixedVarAssigns] for neither of these two, and no diagnostic
    carries one of the codes of the notes. *)
Theorem diagnostic_code_fits_symbol st :
  reachable st →
  Forall (λ dg, codeFits (diag_symbol dg) (diag_code dg) = true)
         (diagnostics st).
Proof.
  apply (reachable_elementary
           (λ st, Forall (λ dg, codeFits (diag_symbol dg) (diag_code dg)
                                = true) (diagnostics st))).
  - by intros st1 s H.
  - intros st1 s scope d b H _ _ _. simpl. apply Forall_app. split; [done|].
    destruct (overlapDiagnostics_report s
                (withInitializer s scope (entryOf st1 s)) d b)
      as (ws & es & -> & Hws & Hes & _).
    apply Forall_app. split.
    + eapply Forall_impl; [exact Hws|]. by intros dg (-> & _ & ?).
    + eapply Forall_impl; [exact Hes|]. by intros dg (-> & _ & ?).
  - by intros st1 s d b H _ _ _.
  - by intros st1 ref d port sel rest body H _ _ _ _ _ _.
  - by intros st1 canonical instance H _.
  - by intros st1 H.
  - constructor.
Qed.

(** X12.  The instance map is well formed in every reachable state: an instance
    registered under a body has that body as its canonical body, and a
    driver noted under a body has a resolved reference that goes through an
    interface port whose scope is that instance body. *)
Theorem instance_map_is_well_formed st body state :
  reachable st →
  instanceMap st !! body = Some state →
  Forall (λ instance, getCanonicalBody instance = Some body)
         (nonCanonicalInstances state)
  ∧ Forall (λ rd, notedUnder body rd.1) (ifacePortDrivers state).
Proof.
  intros Hreach Hstate.
  assert (H : ∀ body,
    Forall (λ instance, getCanonicalBody instance = Some body)
           (nonCanonicalInstances (stateOf st body))
    ∧ Forall (λ rd, notedUnder body rd.1)
             (ifacePortDrivers (stateOf st body))).
  { revert Hreach. clear.
    apply (reachable_elementary
             (λ st, ∀ body,
                Forall (λ instance, getCanonicalBody instance = Some body)
                       (nonCanonicalInstances (stateOf st body))
                ∧ Forall (λ rd, notedUnder body rd.1)
                         (ifacePortDrivers (stateOf st body)))).
    - by intros st1 s H.
    - by intros st1 s scope d b H _ _ _.
    - by intros st1 s d b H _ _ _.
    - intros st1 ref d port sel rest body H Hvia Htarget Hexpr Hpath Hscope
        Hbody body'.
      unfold noted. rewrite stateOf_setInstance.
      destruct (decide (body = body')) as [<-|Hne]; [|apply H]. simpl.
      destruct (H body) as [H1 H2]. split; [done|].
      apply Forall_app. split; [done|]. apply Forall_singleton.
      split_and!; try done. by exists port, sel, rest.
    - intros st1 canonical instance H Hcanonical body'.
      unfold registered. rewrite stateOf_setInstance.
      destruct (decide (canonical = body')) as [<-|Hne]; [|apply H]. simpl.
      destruct (H canonical) as [H1 H2]. split; [|done].
      apply Forall_app. split; [done|]. by apply Forall_singleton.
    - by intros st1 H.
    - intros body. by split. }
  specialize (H body). unfold stateOf in H. by rewrite Hstate in H.
Qed.

(** X11.  The side table only ever holds modport ports: in every reachable state
    each of its keys is a modport port that is not class-typed and lies in
    a scope, and holds at least one driver. *)
Theorem side_table_holds_modport_ports st s ds :
  reachable st →
  modportPortDrivers st !! s = Some ds →
  symKind s = SymbolKind.ModportPort ∧ isClass s = false
  ∧ is_Some (getParentScope s) ∧ ds ≠ [].
Proof.
  intros Hreach. revert s ds. revert Hreach.
  apply (reachable_elementary
           (λ st, ∀ s ds, modportPortDrivers st !! s = Some ds →
                          symKind s = SymbolKind.ModportPort
                          ∧ isClass s = false
                          ∧ is_Some (getParentScope s) ∧ ds ≠ [])).
  - by intros st1 s H.
  - by intros st1 s scope d b H _ _ _.
  - intros st1 s d b H Hclass Hscope Hkind s' ds. simpl.
    destruct (decide (s = s')) as [<-|Hne].
    + rewrite lookup_insert_eq. intros [= <-]. split_and!; try done.
      by intros [_ ?]%app_eq_nil.
    + rewrite lookup_insert_ne by done. apply H.
  - by intros st1 ref d port sel rest body H _ _ _ _ _ _.
  - by intros st1 canonical instance H _.
  - intros st1 H s ds. simpl. by rewrite lookup_empty.
  - intros s ds. simpl. by rewrite lookup_empty.
Qed.

Lemma synthesizeInitializer_kind s scope k :
  initializerKind s = Some k →
  synthesizeInitializer s scope []
  = [((0, getSelectableWidth s - 1), initializerDriver s scope k)].
Proof.
  unfold initializerKind, synthesizeInitializer.
  destruct (getInitializer s); [|done].
  by destruct (symKind s); intros [= <-].
Qed.

(** X10.  The driver made of an initializer comes first: in every reachable
    state, a net, variable, class property or field that has an
    initializer either holds no driver or holds, in front of all others,
    the [Initializer]-flagged driver over its whole width. *)
Theorem initializer_driver_comes_first st s scope k :
  reachable st →
  initializerKind s = Some k →
  getParentScope s = Some scope →
  getDrivers st s = []
  ∨ head (getDrivers st s)
    = Some (initializerDriver s scope k, (0, getSelectableWidth s - 1)).
Proof.
  intros Hreach. revert s scope k. revert Hreach.
  apply (reachable_elementary
           (λ st, ∀ s scope k,
              initializerKind s = Some k → getParentScope s = Some scope →
              getDrivers st s = []
              ∨ head (getDrivers st s)
                = Some (initializerDriver s scope k,
                        (0, getSelectableWidth s - 1)))).
  - intros st1 s H s' scope k Hk Hscope.
    specialize (H s' scope k Hk Hscope). rewrite getDrivers_entryOf in *.
    destruct (decide (s = s')) as [->|Hne].
    + by rewrite entryOf_setEntry.
    + by rewrite entryOf_setEntry_ne.
  - intros st1 s scope d b H _ Hscope _ s' scope' k Hk Hscope'.
    specialize (H s' scope' k Hk Hscope'). rewrite getDrivers_entryOf in *.
    rewrite entryOf_stored.
    destruct (decide (s = s')) as [->|Hne]; [|done].
    assert (scope' = scope) as -> by congruence.
    right. unfold withInitializer.
    destruct (entryOf st1 s') as [|e m]; simpl.
    + by rewrite (synthesizeInitializer_kind s' scope k Hk).
    + by destruct H.
  - by intros st1 s d b H _ _ _.
  - by intros st1 ref d port sel rest body H _ _ _ _ _ _.
  - by intros st1 canonical instance H _.
  - by intros st1 H.
  - intros s scope k _ _. by left.
Qed.

End Reachable.

(** The procedure [assign1] drives [x], which [assign2] drives already. *)
Lemma operations_only_append_witness :
  ∃ st',
    runOperation 1 (AddProcedure Scenario.ownDrivers) Scenario.drivenX
    = Done (tt, st')
    ∧ grew Scenario.drivenX st'.
Proof.
  eexists. split; [vm_compute; reflexivity|].
  apply (operations_only_append (design := Demo.design) 1
           (AddProcedure Scenario.ownDrivers)).
  vm_compute. reflexivity.
Defined.

(** The net [a] after an assignment to it and the report of its input
    port. *)
Lemma diagnosed_symbol_holds_two_drivers_witness :
  ∃ st,
    Scenario.assignThenPort emptyTracker = Done (tt, st)
    ∧ diag_symbol <$> diagnostics st = [Demo.a]
    ∧ Forall (λ dg, (2 ≤ length (getDrivers st (diag_symbol dg)))%nat)
             (diagnostics st).
Proof.
  eexists. split; [vm_compute; reflexivity|]. split; [reflexivity|].
  apply (diagnosed_symbol_holds_two_drivers (design := Demo.design)).
  eapply (reachable_step _ 1 (AddPortSymbol Demo.portA)).
  - eapply (reachable_step _ 1
              (AddExpression Scenario.assignToA Demo.assign1));
      [apply reachable_empty | vm_compute; reflexivity].
  - vm_compute. reflexivity.
Defined.

Lemma diagnostic_code_fits_symbol_witness :
  ∃ st,
    Scenario.portThenAssign emptyTracker = Done (tt, st)
    ∧ diag_code <$> diagnostics st = [InputPortCoercion]
    ∧ Forall (λ dg, codeFits (diag_symbol dg) (diag_code dg) = true)
             (diagnostics st).
Proof.
  eexists. split; [vm_compute; reflexivity|]. split; [reflexivity|].
  apply (diagnostic_code_fits_symbol (design := Demo.design)).
  eapply (reachable_step _ 1
            (AddExpression Scenario.assignToA Demo.assign1)).
  - eapply (reachable_step _ 1 (AddPortSymbol Demo.portA));
      [apply reachable_empty | vm_compute; reflexivity].
  - vm_compute. reflexivity.
Defined.

(** The shared body once [m2] was registered and the driver of [p.x] was
    noted. *)
Lemma instance_map_is_well_formed_witness :
  Forall (λ instance,
            getCanonicalBody (Design := Shared.design) instance
            = Some Shared.body) [Shared.m2]
  ∧ Forall (λ rd, notedUnder (design := Shared.design) Shared.body rd.1)
           [(Shared.ref, Shared.driver)].
Proof.
  eapply (instance_map_is_well_formed (design := Shared.design) _
            Shared.body (mkInstanceState [Shared.m2]
                           [(Shared.ref, Shared.driver)])).
  - eapply (reachable_step (design := Shared.design) _ 1
              (AddProcedure Shared.procedureDrivers)).
    + eapply (reachable_step (design := Shared.design) _ 1
                (NoteNonCanonicalInstance Shared.m2));
        [apply reachable_empty | vm_compute; reflexivity].
    + vm_compute. reflexivity.
  - reflexivity.
Defined.

Lemma side_table_holds_modport_ports_witness :
  symKind Demo.y = SymbolKind.ModportPort ∧ isClass Demo.y = false
  ∧ is_Some (getParentScope Demo.y)
  ∧ [(Scenario.assignYDriver, (0, 0))] ≠ [].
Proof.
  apply (side_table_holds_modport_ports (design := Demo.design)
           Scenario.recordedOnY).
  - apply (reachable_step emptyTracker 1
             (AddExpression Scenario.assignToY Demo.assign1));
      [apply reachable_empty | vm_compute; reflexivity].
  - reflexivity.
Defined.

(** [wire [3:0] n = 4'b0] after [assign n = 4'b1]. *)
Lemma initializer_driver_comes_first_witness :
  ∃ st,
    Scenario.initializerPlusAssign emptyTracker = Done (tt, st)
    ∧ (getDrivers st Demo.n = []
       ∨ head (getDrivers st Demo.n)
         = Some (initializerDriver Demo.n Demo.body DriverKind.Continuous,
                 (0, 3))).
Proof.
  eexists. split; [vm_compute; reflexivity|].
  apply (initializer_driver_comes_first (design := Demo.design) _ Demo.n
           Demo.body DriverKind.Continuous).
  - apply (reachable_step emptyTracker 1
             (AddExpression Scenario.assignToN Demo.assign1));
      [apply reachable_empty | vm_compute; reflexivity].
  - reflexivity.
  - reflexivity.
Defined.
(** ** Driver lists *)

Section DriverLists.
Context {design : Design}.

Lemma addDriver_no_reference s m d b st :
  ifacePortRefOf d = None →
  match addDriver s m d b st with
  | Done (r, _) => r.1 = None
  | _ => True
  end.
Proof.
  intros Href. rewrite addDriver_run.
  destruct (isClass s); [done|]. destruct (getParentScope s); [|done].
  by case_bool_decide.
Qed.

(** What the visitor of [add(symbolDriverList)] leaves in the entry of an
    ordinary symbol. *)
Lemma addDriverListNoRef_run s scope ds :
  isClass s = false → getParentScope s = Some scope →
  symKind s ≠ SymbolKind.ModportPort →
  Forall (λ db, ifacePortRefOf db.1 = None) ds →
  ∀ m st, ∃ dgs,
    addDriverListNoRef s ds m st
    = Done ((tt, match ds with
                 | [] => m
                 | _ => withInitializer s scope m
                        ++ ((λ db, (db.2, db.1)) <$> ds)
                 end), appendDiags st dgs).
Proof.
  intros Hclass Hscope Hmodport.
  induction 1 as [|[d b] ds Hd _ IH]; intros m st; simpl.
  { exists []. by rewrite appendDiags_nil. }
  unfold mbind, M_bind. rewrite addDriver_run, Hclass, Hscope.
  rewrite (bool_decide_eq_false_2 _ Hmodport). simpl in *. rewrite Hd.
  simpl.
  destruct (IH (IntervalMap.insert b d (withInitializer s scope m))
               (appendDiags st
                  (overlapDiagnostics s (withInitializer s scope m) d b)))
    as [dgs ->].
  eexists. rewrite appendDiags_app. do 3 f_equal.
  destruct ds as [|db ds]; [done|].
  rewrite withInitializer_insert. unfold IntervalMap.insert.
  by rewrite <- app_assoc.
Qed.

Lemma listed_entries (ds : list (ValueDriver * (Z * Z))) :
  listed ((λ db, (db.2, db.1)) <$> ds) = ds.
Proof.
  unfold listed. rewrite <- list_fmap_compose.
  induction ds as [|[d b] ds IH]; [done|].
  rewrite fmap_cons. simpl. by f_equal.
Qed.

(** X13.  Storing and reading back: [add(symbolDriverList)] with the drivers of
    one ordinary symbol, none of them through an interface port, returns,
    and [getDrivers] then lists what the symbol held before (after the
    driver of its initializer, if the symbol held nothing), followed by the
    submitted drivers in their order; the drivers of every other symbol,
    the side table and the instance map are as before. *)
Theorem add_symbolDriverList_then_getDrivers s scope ds st :
  isClass s = false →
  getParentScope s = Some scope →
  symKind s ≠ SymbolKind.ModportPort →
  Forall (λ db, ifacePortRefOf db.1 = None) ds →
  ds ≠ [] →
  ∃ st',
    add_symbolDriverList [(s, ds)] st = Done (tt, st')
    ∧ getDrivers st' s
      = match getDrivers st s with
        | [] => listed (synthesizeInitializer s scope [])
        | held => held
        end ++ ds
    ∧ (∀ s', s' ≠ s → getDrivers st' s' = getDrivers st s')
    ∧ modportPortDrivers st' = modportPortDrivers st
    ∧ instanceMap st' = instanceMap st.
Proof.
  intros Hclass Hscope Hmodport Hds Hne.
  destruct (addDriverListNoRef_run s scope ds Hclass Hscope Hmodport Hds
              (entryOf st s) st) as [dgs Hrun].
  unfold add_symbolDriverList, forEach, try_emplace_and_visit.
  unfold mbind, M_bind, get. rewrite Hrun. simpl.
  eexists. split; [reflexivity|]. split_and!; try done.
  - rewrite !getDrivers_entryOf, entryOf_setEntry.
    destruct ds as [|db ds]; [done|].
    rewrite fmap_app. fold (listed ((λ db, (db.2, db.1)) <$> db :: ds)).
    rewrite listed_entries. f_equal.
    unfold withInitializer, listed. by destruct (entryOf st s).
  - intros s' Hs'. rewrite !getDrivers_entryOf.
    by rewrite entryOf_setEntry_ne.
Qed.

Lemma addDriverListNoRef_asserts s ds :
  isClass s = false → is_Some (getParentScope s) →
  ∀ m st,
    match addDriverListNoRef s ds m st with
    | Done _ => Forall (λ db, ifacePortRefOf db.1 = None) ds
    | Failed site =>
        site = AssertNoRef ∧ ¬ Forall (λ db, ifacePortRefOf db.1 = None) ds
    | OutOfFuel => False
    end.
Proof.
  intros Hclass [scope Hscope].
  induction ds as [|[d b] ds IH]; intros m st; simpl; [done|].
  unfold mbind, M_bind. rewrite addDriver_run, Hclass, Hscope.
  destruct (ifacePortRefOf d) as [ref|] eqn:Href.
  - case_bool_decide; simpl; (split; [done|]);
      intros [Hd _]%Forall_cons; simpl in Hd; congruence.
  - case_bool_decide; simpl.
    + specialize (IH m (recordedModport st s d b)).
      destruct (addDriverListNoRef s ds m _) as [[[] st1]|site|].
      * by constructor.
      * destruct IH as [-> IH]. split; [done|].
        by intros [_ ?]%Forall_cons.
      * done.
    + match goal with
      | |- context [addDriverListNoRef s ds ?m' ?st'] =>
          specialize (IH m' st');
          destruct (addDriverListNoRef s ds m' st') as [[[] st1]|site|]
      end.
      * by constructor.
      * destruct IH as [-> IH]. split; [done|].
        by intros [_ ?]%Forall_cons.
      * done.
Qed.

(** X14.  The assertion of [add(symbolDriverList)]: for symbols that are not
    class-typed and lie in a scope, the call returns exactly when no driver
    of the list goes through an interface port, and it stops nowhere but at
    the assertion that [addDriver] handed back no reference. *)
Theorem add_symbolDriverList_asserts_no_reference drivers st :
  Forall (λ sd, isClass sd.1 = false ∧ is_Some (getParentScope sd.1))
         drivers →
  ((∃ st', add_symbolDriverList drivers st = Done (tt, st'))
   ↔ Forall (λ sd, Forall (λ db, ifacePortRefOf db.1 = None) sd.2) drivers)
  ∧ (∀ site, add_symbolDriverList drivers st = Failed site →
             site = AssertNoRef)
  ∧ add_symbolDriverList drivers st ≠ OutOfFuel.
Proof.
  intros Hok. revert st.
  induction Hok as [|[s ds] drivers [Hclass Hscope] _ IH]; intros st.
  { split_and!; [split; [done|by eexists] | done | done]. }
  unfold add_symbolDriverList. simpl.
  unfold try_emplace_and_visit, mbind, M_bind, get. simpl in *.
  pose proof (addDriverListNoRef_asserts s ds Hclass Hscope (entryOf st s)
                st) as Hvisit.
  destruct (addDriverListNoRef s ds (entryOf st s) st)
    as [[[[] m'] st1]|site|]; [| |done].
  - simpl. destruct (IH (setEntry st1 s m')) as (Hiff & Hsite & Hfuel).
    unfold add_symbolDriverList in *. split_and!; [|done|done].
    rewrite Hiff. split.
    + intros H. by constructor.
    + by intros [_ ?]%Forall_cons.
  - destruct Hvisit as [-> Hvisit]. split_and!; [|by intros ? [= <-]|done].
    split; [by intros [? ?]|]. by intros [? _]%Forall_cons.
Qed.

Lemma addDriverList_no_reference s ds :
  Forall (λ db, ifacePortRefOf db.1 = None) ds →
  ∀ m st,
    addDriverList s ds m st
    = match addDriverListNoRef s ds m st with
      | Done ((_, m'), st') => Done (([], m'), st')
      | Failed site => Failed site
      | OutOfFuel => OutOfFuel
      end.
Proof.
  induction 1 as [|[d b] ds Hd _ IH]; intros m st; simpl; [done|].
  unfold mbind, M_bind.
  pose proof (addDriver_no_reference s m d b st Hd) as Hr.
  destruct (addDriver s m d b st) as [[r st1]|site|]; [|done..].
  rewrite Hr. simpl. rewrite IH.
  by destruct (addDriverListNoRef s ds r.2 st1) as [[[[] m'] st2]|site|].
Qed.

(** X15.  On driver lists in which no driver goes through an interface port,
    [add(procedure)] and [add(symbolDriverList)] do exactly the same, and
    the former never reaches [noteInterfacePortDriver]: it needs no
    fuel. *)
Theorem add_procedure_agrees_with_add_symbolDriverList fuel drivers st :
  Forall (λ sd, Forall (λ db, ifacePortRefOf db.1 = None) sd.2) drivers →
  add_procedure fuel drivers st = add_symbolDriverList drivers st.
Proof.
  intros Hok. unfold add_procedure, add_symbolDriverList.
  assert (H : ∀ st,
    collect drivers
      (λ '(valueSym, ds),
         try_emplace_and_visit valueSym (addDriverList valueSym ds)) st
    = match forEach drivers
              (λ '(valueSym, ds),
                 try_emplace_and_visit valueSym
                   (addDriverListNoRef valueSym ds)) st with
      | Done (_, st') => Done ([], st')
      | Failed site => Failed site
      | OutOfFuel => OutOfFuel
      end).
  { clear st. induction Hok as [|[s ds] drivers Hds _ IH]; intros st; simpl.
    { done. }
    unfold try_emplace_and_visit, mbind, M_bind, get. simpl in Hds.
    rewrite (addDriverList_no_reference s ds Hds).
    destruct (addDriverListNoRef s ds (entryOf st s) st)
      as [[[[] m'] st1]|site|]; [|done..].
    simpl. unfold mbind, M_bind in IH. rewrite IH.
    by destruct (forEach drivers _ (setEntry st1 s m'))
      as [[[] st2]|site|]. }
  unfold mbind, M_bind. rewrite H.
  by destruct (forEach drivers _ st) as [[[] st1]|site|].
Qed.

End DriverLists.

Lemma add_symbolDriverList_then_getDrivers_witness :
  ∃ st',
    add_symbolDriverList Scenario.ownDrivers Scenario.drivenX = Done (tt, st')
    ∧ getDrivers st' Demo.x
      = getDrivers Scenario.drivenX Demo.x ++ [(Scenario.ownXDriver, (0, 0))].
Proof.
  destruct (add_symbolDriverList_then_getDrivers (design := Demo.design)
              Demo.x Demo.body [(Scenario.ownXDriver, (0, 0))]
              Scenario.drivenX)
    as (st' & Hrun & Hread & _);
    [reflexivity | reflexivity | discriminate | by repeat constructor
    | discriminate |].
  exists st'. split; [exact Hrun|exact Hread].
Defined.

(** The driver of [p.x] goes through the interface port [p]. *)
Lemma add_symbolDriverList_asserts_no_reference_witness :
  add_symbolDriverList (design := Shared.design) Shared.procedureDrivers
                       emptyTracker
  = Failed AssertNoRef
  ∧ ¬ Forall (λ sd, Forall (λ db, ifacePortRefOf (design := Shared.design)
                                    db.1 = None) sd.2)
             Shared.procedureDrivers.
Proof.
  destruct (add_symbolDriverList_asserts_no_reference
              (design := Shared.design) Shared.procedureDrivers emptyTracker)
    as (Hiff & _ & _).
  { repeat constructor. by eexists. }
  split; [reflexivity|]. intros Hall. apply Hiff in Hall as [st' Hrun].
  discriminate Hrun.
Defined.

Lemma add_procedure_agrees_with_add_symbolDriverList_witness :
  add_procedure 0 Scenario.ownDrivers Scenario.drivenX
  = add_symbolDriverList Scenario.ownDrivers Scenario.drivenX.
Proof.
  apply (add_procedure_agrees_with_add_symbolDriverList
           (design := Demo.design)).
  by repeat constructor.
Defined.
(** ** Instances that share a body *)

Section SharedBodies.
Context {design : Design}.

Lemma applyInstanceSideEffect_setInstance
    fuel ifacePortDriver instance k v st :
  applyInstanceSideEffect fuel ifacePortDriver instance (setInstance st k v)
  = match applyInstanceSideEffect fuel ifacePortDriver instance st with
    | Done (u, st') => Done (u, setInstance st' k v)
    | Failed site => Failed site
    | OutOfFuel => OutOfFuel
    end.
Proof.
  unfold applyInstanceSideEffect.
  destruct (Retarget.retargetIfacePort _ _ instance) as [[t|]| | |];
    [|done..].
  destruct (getBounds _ _ _) as [b|]; [|done].
  unfold try_emplace_and_visit, mbind, M_bind, get.
  rewrite !addDriver_run.
  change (entryOf (setInstance st k v) t) with (entryOf st t).
  destruct (isClass t); [done|]. destruct (getParentScope t); [|done].
  case_bool_decide; reflexivity.
Qed.

Lemma forEach_setInstance {A} (xs : list A) (body : A → M unit) k v :
  (∀ x st,
     body x (setInstance st k v)
     = match body x st with
       | Done (u, st') => Done (u, setInstance st' k v)
       | Failed site => Failed site
       | OutOfFuel => OutOfFuel
       end) →
  ∀ st,
    forEach xs body (setInstance st k v)
    = match forEach xs body st with
      | Done (u, st') => Done (u, setInstance st' k v)
      | Failed site => Failed site
      | OutOfFuel => OutOfFuel
      end.
Proof.
  intros Hbody. induction xs as [|x xs IH]; intros st; simpl; [done|].
  unfold mbind, M_bind. rewrite Hbody.
  destruct (body x st) as [[[] st1]|site|]; [|done..]. apply IH.
Qed.

Lemma forEach_app {A} (xs ys : list A) (body : A → M unit) st :
  forEach (xs ++ ys) body st
  = match forEach xs body st with
    | Done (_, st') => forEach ys body st'
    | Failed site => Failed site
    | OutOfFuel => OutOfFuel
    end.
Proof.
  revert st. induction xs as [|x xs IH]; intros st; simpl; [done|].
  unfold mbind, M_bind.
  destruct (body x st) as [[[] st1]|site|]; [|done..]. apply IH.
Qed.

Lemma forEach_singleton {A} (x : A) (body : A → M unit) st :
  forEach [x] body st = body x st.
Proof.
  simpl. unfold mbind, M_bind.
  by destruct (body x st) as [[[] st1]|site|].
Qed.

Lemma setInstance_setInstance st k v1 v2 :
  setInstance (setInstance st k v1) k v2 = setInstance st k v2.
Proof. unfold setInstance. simpl. by rewrite insert_insert_eq. Qed.

Lemma instanceMap_setInstance st k v :
  instanceMap (setInstance st k v) !! k = Some v.
Proof. simpl. apply lookup_insert_eq. Qed.

(** X22.  A driver through an interface port and an instance that shares the
    body of that port may be reported to the tracker in either order: when
    the port is not itself connected through an interface port, and the
    body has no instance registered or no driver noted yet, noting the
    driver and then registering the instance leaves the tracker exactly as
    registering the instance and then noting the driver does. *)
Theorem noting_and_registering_commute
    fuel ref d instance port sel rest body st :
  isViaIfacePort ref = true →
  is_Some (target ref) →
  hasExpr ref = true →
  path ref = (port, sel) :: rest →
  getParentScope port = Some body →
  symKind body = SymbolKind.InstanceBody →
  getCanonicalBody instance = Some body →
  (∀ connRef sr,
     getConnectionAndExpr port = Some (ArbitrarySymbol connRef sr) →
     isViaIfacePort connRef = false) →
  nonCanonicalInstances (stateOf st body) = []
  ∨ ifacePortDrivers (stateOf st body) = [] →
  (noteInterfacePortDriver (S fuel) ref d ;;
   noteNonCanonicalInstance (S fuel) instance) st
  = (noteNonCanonicalInstance (S fuel) instance ;;
     noteInterfacePortDriver (S fuel) ref d) st.
Proof.
  intros Hvia Htarget Hexpr Hpath Hscope Hbody Hcanonical Hchain Hempty.
  assert (Hend :
    match getConnectionAndExpr port with
    | Some (ArbitrarySymbol connRef _) =>
        if isViaIfacePort connRef
        then noteInterfacePortDriver fuel (join connRef ref) d
        else mret tt
    | _ => mret tt
    end = mret tt).
  { destruct (getConnectionAndExpr port) as [[]|] eqn:Hconn; try done.
    by rewrite (Hchain _ _ eq_refl). }
  unfold noteNonCanonicalInstance. rewrite Hcanonical.
  cbn [noteInterfacePortDriver]. rewrite Hvia, Hexpr, Hpath, Hscope, Hend.
  rewrite (bool_decide_eq_true_2 _ Htarget), (bool_decide_eq_true_2 _ Hbody).
  unfold mbind, M_bind, SLANG_ASSERT, get, setInstanceState, mret, M_ret.
  fold (stateOf st body).
  set (ncis := nonCanonicalInstances (stateOf st body)) in *.
  set (ifds := ifacePortDrivers (stateOf st body)) in *.
  destruct Hempty as [Hn|Hi].
  - rewrite Hn. simpl.
    rewrite lookup_insert_eq. simpl. rewrite setInstance_setInstance.
    rewrite forEach_app.
    rewrite !(forEach_setInstance ifds)
      by (intros; apply applyInstanceSideEffect_setInstance).
    destruct (forEach ifds _ st) as [[[] st1]|site|]; [|done..].
    simpl. rewrite lookup_insert_eq. simpl. rewrite setInstance_setInstance.
    unfold mbind, M_bind.
    by destruct (applyInstanceSideEffect _ (ref, d) instance _)
      as [[[] st2]|site|].
  - rewrite Hi. simpl.
    rewrite !(forEach_setInstance ncis)
      by (intros; apply applyInstanceSideEffect_setInstance).
    rewrite lookup_insert_eq. simpl. rewrite setInstance_setInstance.
    rewrite forEach_app.
    rewrite !(forEach_setInstance ncis)
      by (intros; apply applyInstanceSideEffect_setInstance).
    destruct (forEach ncis _ st) as [[[] st1]|site|]; [|done..].
    simpl. rewrite lookup_insert_eq. simpl. rewrite setInstance_setInstance.
    unfold mbind, M_bind.
    by destruct (applyInstanceSideEffect _ (ref, d) instance _)
      as [[[] st2]|site|].
Qed.


End SharedBodies.

(** ** Propagation, once more *)

Section Repeated.
Context {design : Design}.

Lemma propagateModportDrivers_empties fuel :
  ∀ st st', propagateModportDrivers fuel st = Done (tt, st') →
            modportPortDrivers st' = ∅.
Proof.
  induction fuel as [|fuel IH]; intros st st'; simpl; [done|].
  unfold mbind, M_bind, get, setModportPortDrivers.
  case_bool_decide as Hempty.
  - by intros [= <-].
  - destruct (propagatePass _ _ _) as [[[] st1]| |]; [|done..]. apply IH.
Qed.

(** X21.  Once [propagateModportDrivers] has returned, calling it again changes
    nothing: the call returns at once with the tracker as it is. *)
Theorem propagateModportDrivers_again fuel fuel' st st' :
  propagateModportDrivers fuel st = Done (tt, st') →
  propagateModportDrivers (S fuel') st' = Done (tt, st').
Proof.
  intros Hrun. pose proof (propagateModportDrivers_empties _ _ _ Hrun) as H.
  simpl. unfold mbind, M_bind, get, setModportPortDrivers.
  rewrite H, bool_decide_eq_true_2 by done.
  unfold mret, M_ret. do 2 f_equal.
  destruct st'. simpl in *. by subst.
Qed.

End Repeated.

(** ** The kind and the flags of what the entry points store *)

Section EntryPoints.
Context {design : Design}.

(** Whatever [addDrivers] stores is a driver of the kind and with the flags
    it was called with, a clone of one, or an initializer's driver. *)
Lemma addDrivers_madeWith fuel expr k fl containing initialLSP st0 :
  hoare (grownBy (madeWith k fl) st0)
        (addDrivers fuel expr k fl containing initialLSP)
        (λ _, grownBy (madeWith k fl) st0).
Proof.
  apply (addDrivers_preserves (grownBy (madeWith k fl) st0)
           (λ _ d, madeWith k fl d) (λ _ d, madeWith k fl d)).
  - intros st s [H1 H2]. split; [|done]. intros s'.
    destruct (decide (s = s')) as [->|Hne].
    + rewrite entryOf_setEntry. apply H1.
    + rewrite entryOf_setEntry_ne by done. apply H1.
  - intros st s scope d b [H1 H2] Hd _ _ _. split; [|done]. intros s'.
    destruct (decide (s = s')) as [->|Hne].
    + rewrite entryOf_setEntry. destruct (H1 s') as (ext & Hext & HP).
      unfold withInitializer, IntervalMap.insert.
      destruct (entryOf st s') as [|e m] eqn:Hentry; simpl.
      * symmetry in Hext. apply app_eq_nil in Hext as [-> ->].
        exists (synthesizeInitializer s' scope [] ++ [(b, d)]).
        split; [done|]. apply Forall_app. split; [|by apply Forall_singleton].
        unfold synthesizeInitializer, addInitializer, IntervalMap.insert.
        destruct (symKind s'), (getInitializer s'); simpl;
          first [by apply Forall_nil | apply Forall_singleton; by left].
      * exists (ext ++ [(b, d)]). split.
        { by rewrite app_assoc, <- Hext. }
        apply Forall_app. split; [done|by apply Forall_singleton].
    + rewrite entryOf_setEntry_ne by done. apply H1.
  - intros st s d b [H1 H2] Hd _ _. split; [done|]. intros s'. simpl.
    destruct (decide (s = s')) as [->|Hne].
    + rewrite lookup_insert_eq. simpl.
      destruct (H2 s') as (ext & Hext & HP).
      exists (ext ++ [(d, b)]). split.
      { by rewrite Hext, app_assoc. }
      apply Forall_app. split; [done|by apply Forall_singleton].
    + rewrite lookup_insert_ne by done. apply H2.
  - done.
  - done.
  - intros _ ref d instance t Hd _. exact Hd.
  - intros. done.
  - intros. done.
  - intros s lsp _. by right.
Qed.

(** X18.  A port connection drives what it is connected to, continuously: the
    call records nothing when the connection has no expression or an
    invalid one, when the port is an interface port, or when its direction
    is [In]; the drivers it stores otherwise, apart from initializer
    drivers, are [Continuous] and carry [OutputPort] for an output and no
    flag for any other direction, so never [InputPort]; and when the
    expression is an assignment, its left-hand side is what is driven. *)
Theorem add_portConnection_records fuel connection containing st :
  (getExpression connection = None
   ∨ (∃ expr, getExpression connection = Some expr ∧ bad expr = true)
   ∨ symKind (port connection) = SymbolKind.InterfacePort
   ∨ direction (port connection) = ArgumentDirection.In →
   add_portConnection fuel connection containing st = Done (tt, st))
  ∧ (∀ st', add_portConnection fuel connection containing st = Done (tt, st') →
       grownBy (madeWith DriverKind.Continuous
                  (if bool_decide (direction (port connection)
                                   = ArgumentDirection.Out)
                   then DriverFlags.OutputPort else DriverFlags.None))
               st st')
  ∧ (∀ lhs rhs sr,
       getExpression connection = Some (Assignment lhs rhs sr) →
       symKind (port connection) ≠ SymbolKind.InterfacePort →
       direction (port connection) ≠ ArgumentDirection.In →
       add_portConnection fuel connection containing st
       = addDrivers fuel lhs DriverKind.Continuous
           (if bool_decide (direction (port connection)
                            = ArgumentDirection.Out)
            then DriverFlags.OutputPort else DriverFlags.None)
           containing None st).
Proof.
  split_and!.
  - unfold add_portConnection.
    intros [-> | [(expr & -> & ->) | [Hkind | Hdir]]]; try done.
    + destruct (getExpression connection); [|done].
      by rewrite (bool_decide_eq_true_2 _ Hkind), orb_true_r.
    + destruct (getExpression connection); [|done].
      destruct (_ || _); [done|]. by rewrite (bool_decide_eq_true_2 _ Hdir).
  - intros st' Hrun.
    set (fl := if bool_decide (direction (port connection)
                               = ArgumentDirection.Out)
               then DriverFlags.OutputPort else DriverFlags.None).
    assert (H : hoare (grownBy (madeWith DriverKind.Continuous fl) st)
                      (add_portConnection fuel connection containing)
                      (λ _, grownBy (madeWith DriverKind.Continuous fl) st)).
    { unfold add_portConnection.
      destruct (getExpression connection); [|by apply triple_ret].
      destruct (_ || _); [by apply triple_ret|].
      case_bool_decide; [by apply triple_ret|]. apply addDrivers_madeWith. }
    specialize (H st (grownBy_refl _ st)). by rewrite Hrun in H.
  - intros lhs rhs sr Hexpr Hkind Hdir. unfold add_portConnection.
    rewrite Hexpr. simpl.
    by rewrite (bool_decide_eq_false_2 _ Hkind),
               (bool_decide_eq_false_2 _ Hdir).
Qed.

(** X19.  A clocking-block variable drives its initializer expression: the call
    records nothing for an input clock variable and, inside a scope,
    nothing for one without initializer; whatever it stores otherwise,
    apart from initializer drivers, is [Continuous] and carries the
    [ClockVar] flag; and outside any scope the call stops at its
    assertion unless the direction is [In]. *)
Theorem add_clockVar_records fuel symbol st :
  (direction symbol = ArgumentDirection.In
   ∨ (is_Some (getParentScope symbol) ∧ getInitializer symbol = None) →
   add_clockVar fuel symbol st = Done (tt, st))
  ∧ (∀ st', add_clockVar fuel symbol st = Done (tt, st') →
       grownBy (madeWith DriverKind.Continuous DriverFlags.ClockVar) st st')
  ∧ (direction symbol ≠ ArgumentDirection.In →
     getParentScope symbol = None →
     add_clockVar fuel symbol st = Failed AssertScope).
Proof.
  split_and!.
  - unfold add_clockVar. intros [Hdir | [[scope Hscope] Hinit]].
    + by rewrite (bool_decide_eq_true_2 _ Hdir).
    + case_bool_decide; [done|]. by rewrite Hscope, Hinit.
  - intros st' Hrun.
    assert (H : hoare (grownBy (madeWith DriverKind.Continuous
                                  DriverFlags.ClockVar) st)
                      (add_clockVar fuel symbol)
                      (λ _, grownBy (madeWith DriverKind.Continuous
                                       DriverFlags.ClockVar) st)).
    { unfold add_clockVar. case_bool_decide; [by apply triple_ret|].
      destruct (getParentScope symbol); [|by apply triple_failWith].
      destruct (getInitializer symbol);
        [apply addDrivers_madeWith|by apply triple_ret]. }
    specialize (H st (grownBy_refl _ st)). by rewrite Hrun in H.
  - intros Hdir Hscope. unfold add_clockVar.
    by rewrite (bool_decide_eq_false_2 _ Hdir), Hscope.
Qed.

(** X20.  Re-projecting a driver recorded against a modport port keeps its kind
    and its flags: whatever [propagateModportDriver] stores, apart from
    initializer drivers, has the kind and the flags of the original
    driver. *)
Theorem propagateModportDriver_keeps_kind_and_flags fuel conn d st st' :
  propagateModportDriver fuel conn d st = Done (tt, st') →
  grownBy (madeWith (kind d) (flags d)) st st'.
Proof.
  intros Hrun.
  pose proof (addDrivers_madeWith fuel conn (kind d) (flags d)
                (containingSymbol d)
                (glueOuterSelect conn (prefixExpression d)) st st
                (grownBy_refl _ st)) as H.
  unfold propagateModportDriver in Hrun. by rewrite Hrun in H.
Qed.

End EntryPoints.

(** The driver of [p.x] and the instance [m2], in either order. *)
Lemma noting_and_registering_commute_witness :
  (noteInterfacePortDriver (design := Shared.design) 1 Shared.ref
                           Shared.driver ;;
   noteNonCanonicalInstance (design := Shared.design) 1 Shared.m2)
    emptyTracker
  = (noteNonCanonicalInstance (design := Shared.design) 1 Shared.m2 ;;
     noteInterfacePortDriver (design := Shared.design) 1 Shared.ref
                             Shared.driver) emptyTracker.
Proof.
  apply (noting_and_registering_commute (design := Shared.design) 0
           Shared.ref Shared.driver Shared.m2 Shared.p (SelName "p")
           [(Shared.x, SelName "x")] Shared.body emptyTracker);
    try reflexivity.
  - by eexists.
  - discriminate.
  - by left.
Defined.


Lemma propagateModportDrivers_again_witness :
  ∃ st',
    propagateModportDrivers 3 Scenario.recordedOnY = Done (tt, st')
    ∧ propagateModportDrivers 1 st' = Done (tt, st').
Proof.
  eexists. split; [vm_compute; reflexivity|].
  apply (propagateModportDrivers_again (design := Demo.design) 3 0
           Scenario.recordedOnY).
  vm_compute. reflexivity.
Defined.

(** The driver recorded against [y], re-projected onto [v]. *)
Lemma propagateModportDriver_keeps_kind_and_flags_witness :
  ∃ st',
    propagateModportDriver 1 (NamedValue Demo.v (Demo.nameRange Demo.v 70))
                           Scenario.assignYDriver emptyTracker
    = Done (tt, st')
    ∧ grownBy (madeWith (kind Scenario.assignYDriver)
                        (flags Scenario.assignYDriver)) emptyTracker st'.
Proof.
  eexists. split; [vm_compute; reflexivity|].
  apply (propagateModportDriver_keeps_kind_and_flags (design := Demo.design)
           1 (NamedValue Demo.v (Demo.nameRange Demo.v 70))
           Scenario.assignYDriver).
  vm_compute. reflexivity.
Defined.
(** ** Termination of the operations that add *)

Section AddingTerminates.
Context {design : Design}.
Context (depth : HierarchicalReference → nat).
Context (rank : Symbol → nat) (bound : nat).
Hypothesis depth_bounded : ∀ ref, (depth ref < bound)%nat.
Hypothesis depth_decreases :
  ∀ ref ref', chainStep ref ref' → (depth ref' < depth ref)%nat.
Hypothesis rank_bounded : ∀ s, (rank s < bound)%nat.
Hypothesis port_decreases :
  ∀ s s', portStep s s' → (rank s' < rank s)%nat.

Lemma total_addDriverList s ds : ∀ m, total (addDriverList s ds m).
Proof.
  induction ds as [|[d b] ds IH]; intros m; simpl; [apply total_ret|].
  apply total_bind; [apply total_addDriver|]. intros r.
  apply total_bind; [apply IH|]. intros more. apply total_ret.
Qed.

Lemma total_addDriverListNoRef s ds : ∀ m, total (addDriverListNoRef s ds m).
Proof.
  induction ds as [|[d b] ds IH]; intros m; simpl; [apply total_ret|].
  apply total_bind; [apply total_addDriver|]. intros r.
  apply total_bind; [apply total_assert|]. intros u. apply IH.
Qed.

Lemma total_noteAll fuel refs :
  (2 * bound ≤ fuel)%nat → total (noteAll fuel refs).
Proof.
  intros Hfuel. apply total_forEach. intros [ref d] _.
  apply (total_noteInterfacePortDriver depth rank bound depth_decreases
           rank_bounded port_decreases).
  specialize (depth_bounded ref). simpl. lia.
Qed.

Lemma total_runOperation fuel op :
  op ≠ PropagateModportDrivers → (2 * bound ≤ fuel)%nat →
  total (runOperation fuel op).
Proof.
  intros Hop Hfuel.
  assert (Hadd : ∀ expr k fl containing initialLSP,
            total (addDrivers fuel expr k fl containing initialLSP)).
  { intros. by apply (total_addDrivers depth rank bound depth_decreases
                        rank_bounded port_decreases). }
  destruct op; simpl; try done.
  - unfold add_procedure. apply total_bind; [|intros; by apply total_noteAll].
    apply total_collect. intros [s ds] _. apply total_visit.
    apply total_addDriverList.
  - unfold add_portConnection.
    destruct (getExpression connection); [|apply total_ret].
    destruct (_ || _); [apply total_ret|].
    case_bool_decide; [apply total_ret|apply Hadd].
  - unfold add_portSymbol. destruct (_ && _); [apply total_ret|].
    destruct (getParentScope symbol); [|done].
    destruct (getInternalExpr symbol); [apply Hadd|].
    destruct (internalSymbol symbol); [apply Hadd|apply total_ret].
  - unfold add_clockVar. case_bool_decide; [apply total_ret|].
    destruct (getParentScope symbol); [|done].
    destruct (getInitializer symbol); [apply Hadd|apply total_ret].
  - apply Hadd.
  - unfold add_symbolDriverList. apply total_forEach. intros [s ds] _.
    apply total_visit. apply total_addDriverListNoRef.
  - unfold noteNonCanonicalInstance.
    destruct (getCanonicalBody instance); [|done].
    apply total_bind; [done|]. intros st0.
    apply total_bind; [done|]. intros u.
    apply total_forEach. intros.
    apply (total_applyInstanceSideEffect rank bound rank_bounded
             port_decreases).
    lia.
Qed.

End AddingTerminates.

Section Adding.
Context {design : Design}.

(** X24.  Every operation but the propagation terminates when the chains
    of interface ports are bounded, those of the connection expressions that
    [noteInterfacePortDriver] follows and those of the connections that the
    loop of [retargetIfacePort] follows: that recursion and that loop are
    the only unbounded code these operations reach, and with twice the bound
    as fuel they return, or stop at an assertion or at an undefined step,
    from every state. *)
Theorem adding_terminates depth rank bound fuel op st :
  (∀ ref, (depth ref < bound)%nat) →
  (∀ ref ref', chainStep ref ref' → (depth ref' < depth ref)%nat) →
  (∀ s, (rank s < bound)%nat) →
  (∀ s s', portStep s s' → (rank s' < rank s)%nat) →
  op ≠ PropagateModportDrivers →
  (2 * bound ≤ fuel)%nat →
  terminates (runOperation fuel op) st.
Proof.
  intros Hbound Hdec Hrank Hport Hop Hfuel.
  pose proof (total_runOperation depth rank bound Hbound Hdec Hrank Hport
                fuel op Hop Hfuel st I) as H.
  unfold terminates. by destruct (runOperation fuel op st).
Qed.

Lemma collect_skip {A B} (xs : list A) (body : A → M (list B)) st :
  (∀ x, x ∈ xs → ∀ st', body x st' = Done ([], st')) →
  collect xs body st = Done ([], st).
Proof.
  induction xs as [|x xs IH]; intros Hbody; [done|]. simpl.
  unfold mbind, M_bind. rewrite (Hbody x) by by left.
  rewrite IH; [done|]. intros z Hz. apply Hbody. by right.
Qed.

(** X17.  A visit that is no lvalue, or whose selection has no bounds, is
    skipped: when all visits of the expression are such, [addDrivers]
    returns with the tracker untouched; not even an empty entry is
    created. *)
Theorem addDrivers_skips_what_is_not_driven
    fuel expr k fl containing initialLSP st :
  Forall (λ visit, visit.2 = false
                   ∨ getBounds visit.1.2 containing visit.1.1 = None)
         (visitLSPs expr containing initialLSP) →
  addDrivers fuel expr k fl containing initialLSP st = Done (tt, st).
Proof.
  intros Hskip. unfold addDrivers, mbind, M_bind.
  rewrite collect_skip; [done|].
  intros [[s lsp] isLValue] Hin st0.
  destruct (proj1 (Forall_forall _ _) Hskip _ Hin) as [Hrvalue|Hbounds];
    simpl in *.
  - by rewrite Hrvalue.
  - rewrite Hbounds. by destruct isLValue.
Qed.

(** X16.  Storing and reading back a continuous assignment: when the expression
    has a single lvalue, an ordinary symbol reached with bounds and not
    through an interface port, [add(expression)] returns, and [getDrivers]
    then lists what the symbol held before (after the driver of its
    initializer, if it held nothing) followed by one new continuous driver
    without flags, whose prefix expression is the lvalue and whose
    containing symbol is the one given; nothing else changes but the
    diagnostics. *)
Theorem add_expression_then_getDrivers
    fuel expr containing s lsp b scope st :
  visitLSPs expr containing None = [(s, lsp, true)] →
  getBounds lsp containing s = Some b →
  isClass s = false →
  getParentScope s = Some scope →
  symKind s ≠ SymbolKind.ModportPort →
  ifacePortRefOf (newValueDriver DriverKind.Continuous lsp containing
                                 DriverFlags.None) = None →
  ∃ st',
    add_expression fuel expr containing st = Done (tt, st')
    ∧ getDrivers st' s
      = match getDrivers st s with
        | [] => listed (synthesizeInitializer s scope [])
        | held => held
        end
        ++ [(newValueDriver DriverKind.Continuous lsp containing
                            DriverFlags.None, b)]
    ∧ (∀ s', s' ≠ s → getDrivers st' s' = getDrivers st s')
    ∧ modportPortDrivers st' = modportPortDrivers st
    ∧ instanceMap st' = instanceMap st.
Proof.
  intros Hvisits Hbounds Hclass Hscope Hmodport Href.
  unfold add_expression, addDrivers. rewrite Hvisits. simpl.
  rewrite Hbounds.
  unfold try_emplace_and_visit, mbind, M_bind, get.
  rewrite addDriver_run, Hclass, Hscope.
  rewrite (bool_decide_eq_false_2 _ Hmodport). simpl. rewrite Href. simpl.
  eexists. split; [reflexivity|]. split_and!; try done.
  - rewrite !getDrivers_entryOf, entryOf_setEntry.
    unfold IntervalMap.insert. rewrite fmap_app. simpl. f_equal.
    unfold withInitializer, listed. by destruct (entryOf st s).
  - intros s' Hs'. rewrite !getDrivers_entryOf.
    by rewrite entryOf_setEntry_ne.
Qed.

End Adding.

(** Adding the procedure that assigns [p.y]: the driver is noted under the
    body of [p] and, [p] being connected through [pp], under the parent
    body; the walk of [retargetIfacePort] makes the clone for [m2]. *)
Lemma adding_terminates_witness :
  terminates (runOperation (design := Cascade.design) 4
                (AddProcedure Cascade.procedureDrivers))
             Cascade.registered
  ∧ runOperation (design := Cascade.design) 4
      (AddProcedure Cascade.procedureDrivers) Cascade.registered
    = Done (tt, Cascade.noted).
Proof.
  split; [|vm_compute; reflexivity].
  destruct Cascade_acyclic as [Hrank _ Hport Hdepth Hchain].
  by apply (adding_terminates (design := Cascade.design) Cascade.depth
              Cascade.rank 2).
Defined.

(** Bounded chains are needed: when the interface port [p] is connected
    through itself, noting a driver through [p] never ends. *)
Remark chained_port_diverges fuel st :
  noteInterfacePortDriver (design := Chained.design) fuel Shared.ref
                          Shared.driver st
  = OutOfFuel.
Proof.
  revert st. induction fuel as [|fuel IH]; intros st; [done|].
  cbn [noteInterfacePortDriver]. simpl.
  unfold mbind, M_bind, get, setInstanceState. simpl.
  rewrite forEach_skip by (intros; reflexivity). apply IH.
Qed.

(** And so are bounded chains of connections: when the interface port [q]
    is connected to itself, registering an instance for which a driver
    through [q] is retargeted never ends. *)
Remark self_connected_port_stalls_the_instance fuel d :
  noteNonCanonicalInstance (design := Arrayed.looped) fuel Arrayed.m2
    (mkTracker ∅ ∅ {[1%positive := mkInstanceState [] [(Arrayed.refQ, d)]]}
               [])
  = OutOfFuel.
Proof.
  unfold noteNonCanonicalInstance. simpl.
  unfold mbind, M_bind, get, setInstanceState. simpl.
  rewrite lookup_singleton_eq. simpl.
  unfold applyInstanceSideEffect, mbind, M_bind. cbn [fst].
  by rewrite self_connected_port_diverges.
Qed.

(** The assignment [u = t] visits [u], which has no constant bounds, and
    [t], which is not written. *)
Lemma addDrivers_skips_what_is_not_driven_witness :
  @visitLSPs Cascade.design Cascade.assignment Cascade.proc None
  = [(Cascade.u, NamedValue Cascade.u (mkRange 170 171), true);
     (Cascade.t, NamedValue Cascade.t (mkRange 174 175), false)]
  ∧ addDrivers (design := Cascade.design) 1 Cascade.assignment
      DriverKind.Procedural DriverFlags.None Cascade.proc None
      Cascade.registered
    = Done (tt, Cascade.registered).
Proof.
  split; [reflexivity|].
  apply (addDrivers_skips_what_is_not_driven (design := Cascade.design)).
  constructor; [right; reflexivity|].
  constructor; [left; reflexivity|]. constructor.
Defined.

(** [assign x = ...] on the variable [x] that [assign2] drives already. *)
Lemma add_expression_then_getDrivers_witness :
  ∃ st',
    add_expression 0 (NamedValue Demo.x (Demo.nameRange Demo.x 100))
                   Demo.assign1 Scenario.drivenX = Done (tt, st')
    ∧ getDrivers st' Demo.x
      = getDrivers Scenario.drivenX Demo.x
        ++ [(Scenario.assignXDriver, (0, 0))].
Proof.
  destruct (add_expression_then_getDrivers (design := Demo.design) 0
              (NamedValue Demo.x (Demo.nameRange Demo.x 100)) Demo.assign1
              Demo.x (NamedValue Demo.x (Demo.nameRange Demo.x 100)) (0, 0)
              Demo.body Scenario.drivenX)
    as (st' & Hrun & Hread & _);
    [reflexivity | reflexivity | reflexivity | reflexivity | discriminate
    | reflexivity |].
  exists st'. split; [exact Hrun|exact Hread].
Defined.
(** ** C4: what the propagation does with the side table *)

Section Resubmitted.
Context {design : Design}.

Lemma kept_received t d b : kept (λ st, received st t d b).
Proof.
  unfold kept, received. split_and!.
  - intros st s H. case_bool_decide; [done|].
    destruct (decide (s = t)) as [->|Hne].
    + by rewrite entryOf_setEntry.
    + by rewrite entryOf_setEntry_ne.
  - intros st s scope d0 b0 H. case_bool_decide; [done|].
    rewrite entryOf_stored. destruct (decide (s = t)) as [->|Hne]; [|done].
    unfold IntervalMap.insert. apply elem_of_app. left.
    destruct (withInitializer_prefix t scope (entryOf st t)) as [k ->].
    apply elem_of_app. by left.
  - intros st s d0 b0 H. case_bool_decide; [|done]. simpl.
    destruct (decide (s = t)) as [->|Hne].
    + rewrite lookup_insert_eq. simpl. apply elem_of_app. by left.
    + by rewrite lookup_insert_ne.
  - done.
  - done.
Qed.

Lemma kept_entry t d b : kept (λ st, (b, d) ∈ entryOf st t).
Proof.
  unfold kept. split_and!; try done.
  - intros st s H. destruct (decide (s = t)) as [->|Hne].
    + by rewrite entryOf_setEntry.
    + by rewrite entryOf_setEntry_ne.
  - intros st s scope d0 b0 H.
    rewrite entryOf_stored. destruct (decide (s = t)) as [->|Hne]; [|done].
    unfold IntervalMap.insert. apply elem_of_app. left.
    destruct (withInitializer_prefix t scope (entryOf st t)) as [k ->].
    apply elem_of_app. by left.
Qed.

Lemma kept_impl (C : Prop) Inv : kept Inv → kept (λ st, C → Inv st).
Proof.
  intros (H1 & H2 & H3 & H4 & H5). unfold kept. split_and!; by eauto.
Qed.

Lemma kept_forall {A} (P : A → Tracker → Prop) :
  (∀ a, kept (P a)) → kept (λ st, ∀ a, P a st).
Proof.
  intros H. unfold kept. split_and!; intros; by apply (H a).
Qed.

Lemma kept_addDrivers Inv fuel expr k fl containing initialLSP :
  kept Inv →
  hoare Inv (addDrivers fuel expr k fl containing initialLSP) (λ _, Inv).
Proof.
  intros (H1 & H2 & H3 & H4 & H5). apply addDrivers_elementary; by eauto.
Qed.

Lemma kept_visit Inv s d b {A} (f : option HierarchicalReference → A) :
  kept Inv →
  hoare Inv (try_emplace_and_visit s (λ driverMap,
               r ← addDriver s driverMap d b; mret (f r.1, r.2)))
        (λ _, Inv).
Proof.
  intros (H1 & H2 & H3 & H4 & H5).
  apply visit_elementary; [done|]. intros m.
  eapply triple_bind; [apply addDriver_elementary; by eauto|].
  intros r. by apply triple_ret.
Qed.

Lemma kept_propagatePass Inv fuel localCopy :
  kept Inv → hoare Inv (propagatePass fuel localCopy) (λ _, Inv).
Proof.
  intros (H1 & H2 & H3 & H4 & H5). apply propagatePass_elementary; by eauto.
Qed.

Lemma hoare_conj {A} (P1 P2 : Tracker → Prop) (Q1 Q2 : A → Tracker → Prop)
    (m : M A) :
  hoare P1 m Q1 → hoare P2 m Q2 →
  hoare (λ st, P1 st ∧ P2 st) m (λ a st, Q1 a st ∧ Q2 a st).
Proof.
  intros H1 H2 st [HP1 HP2]. specialize (H1 st HP1). specialize (H2 st HP2).
  by destruct (m st) as [[a st']| |].
Qed.

Lemma hoare_trivial {A} (m : M A) : hoare (λ _, True) m (λ _ _, True).
Proof. intros st _. by destruct (m st) as [[a st']| |]. Qed.

(** A loop whose turns each establish a property that the other turns
    keep establishes all of them. *)
Lemma forEach_establishes {A} (P : A → Tracker → Prop) (xs : list A)
    (body : A → M unit) :
  (∀ x, x ∈ xs → hoare (λ _, True) (body x) (λ _, P x)) →
  (∀ x y, hoare (P x) (body y) (λ _, P x)) →
  ∀ Q : Tracker → Prop,
    (∀ y, hoare Q (body y) (λ _, Q)) →
    hoare Q (forEach xs body) (λ _ st, Q st ∧ ∀ x, x ∈ xs → P x st).
Proof.
  intros Hest Hkeep. induction xs as [|x xs IH]; intros Q HQ; simpl.
  { apply triple_ret. intros st HQst. split; [done|].
    intros x Hx. by apply elem_of_nil in Hx. }
  eapply triple_bind.
  - eapply triple_weaken;
      [apply (hoare_conj Q (λ _, True) (λ _, Q) (λ _, P x));
         [apply HQ|apply Hest; by left]
      | by intros st HQst | intros a st H; exact H].
  - intros u. eapply triple_weaken.
    + apply (IH (λ z Hz, Hest z (list_elem_of_further _ _ _ Hz))
                (λ st, Q st ∧ P x st)).
      intros y. apply hoare_conj; [apply HQ|apply Hkeep].
    + done.
    + intros a st [[HQst HPx] Hrest]. split; [done|].
      intros z Hz. apply elem_of_cons in Hz as [->|Hz]; [done|].
      by apply Hrest.
Qed.

Lemma collect_establishes {A B} (P : A → Tracker → Prop) (xs : list A)
    (body : A → M (list B)) :
  (∀ x, x ∈ xs → hoare (λ _, True) (body x) (λ _, P x)) →
  (∀ x y, hoare (P x) (body y) (λ _, P x)) →
  ∀ Q : Tracker → Prop,
    (∀ y, hoare Q (body y) (λ _, Q)) →
    hoare Q (collect xs body) (λ _ st, Q st ∧ ∀ x, x ∈ xs → P x st).
Proof.
  intros Hest Hkeep. induction xs as [|x xs IH]; intros Q HQ; simpl.
  { apply triple_ret. intros st HQst. split; [done|].
    intros x Hx. by apply elem_of_nil in Hx. }
  eapply triple_bind.
  - eapply triple_weaken;
      [apply (hoare_conj Q (λ _, True) (λ _, Q) (λ _, P x));
         [apply HQ|apply Hest; by left]
      | by intros st HQst | intros a st H; exact H].
  - intros here. eapply triple_bind.
    + apply (IH (λ z Hz, Hest z (list_elem_of_further _ _ _ Hz))
                (λ st, Q st ∧ P x st)).
      intros y. apply hoare_conj; [apply HQ|apply Hkeep].
    + intros later. apply triple_ret.
      intros st [[HQst HPx] Hrest]. split; [done|].
      intros z Hz. apply elem_of_cons in Hz as [->|Hz]; [done|].
      by apply Hrest.
Qed.

(** One visit of [addDrivers] hands its driver to the symbol. *)
Lemma visit_delivers s d b {A} (f : option HierarchicalReference → A) :
  isClass s = false →
  hoare (λ _, True)
        (try_emplace_and_visit s (λ driverMap,
           r ← addDriver s driverMap d b; mret (f r.1, r.2)))
        (λ _ st, received st s d b).
Proof.
  intros Hclass st _. unfold try_emplace_and_visit, mbind, M_bind, get.
  rewrite addDriver_run, Hclass.
  destruct (getParentScope s) as [scope|]; [|done].
  unfold received. case_bool_decide as Hmodport.
  - simpl. rewrite lookup_insert_eq. simpl. apply elem_of_app. right.
    by apply list_elem_of_singleton.
  - unfold mret, M_ret, setSymbolDrivers. cbn [snd fst].
    rewrite entryOf_setEntry. unfold IntervalMap.insert.
    apply elem_of_app. right. by apply list_elem_of_singleton.
Qed.

Lemma elem_of_submitted conn d t d' b' :
  (t, d', b') ∈ submitted conn d ↔
  ∃ lsp,
    (t, lsp, true) ∈ visitLSPs conn (containingSymbol d)
                       (glueOuterSelect conn (prefixExpression d))
    ∧ getBounds lsp (containingSymbol d) t = Some b'
    ∧ d' = newValueDriver (kind d) lsp (containingSymbol d) (flags d).
Proof.
  unfold submitted. rewrite list_elem_of_omap. split.
  - intros ([[t0 lsp] isLValue] & Hin & Hsome).
    destruct isLValue; [|done].
    destruct (getBounds lsp (containingSymbol d) t0) as [b0|] eqn:Hb;
      [|done].
    injection Hsome as -> <- ->. by exists lsp.
  - intros (lsp & Hin & Hb & ->). exists (t, lsp, true).
    split; [done|]. by rewrite Hb.
Qed.

(** [addDrivers] hands a driver to every lvalue with bounds. *)
Lemma addDrivers_delivers fuel expr k fl containing initialLSP :
  hoare (λ _, True) (addDrivers fuel expr k fl containing initialLSP)
        (λ _ st, ∀ t lsp b',
           (t, lsp, true) ∈ visitLSPs expr containing initialLSP →
           getBounds lsp containing t = Some b' →
           isClass t = false →
           received st t (newValueDriver k lsp containing fl) b').
Proof.
  set (P := λ (visit : Symbol * Expression * bool) st,
         ∀ b', visit.2 = true →
               getBounds visit.1.2 containing visit.1.1 = Some b' →
               isClass visit.1.1 = false →
               received st visit.1.1
                        (newValueDriver k visit.1.2 containing fl) b').
  assert (HP : ∀ visit, kept (P visit)).
  { intros visit. apply kept_forall. intros b'.
    do 3 apply kept_impl. apply kept_received. }
  unfold addDrivers. eapply triple_bind.
  - apply (collect_establishes P _ _) with (Q := λ _, True).
    + intros [[s lsp] isLValue] _.
      destruct isLValue; simpl;
        [|apply triple_ret; intros st _ b' H; simpl in H; done].
      destruct (getBounds lsp containing s) as [b|] eqn:Hb;
        [|apply triple_ret; intros st _ b' _ H; simpl in H; congruence].
      destruct (isClass s) eqn:Hclass.
      { intros st _. unfold try_emplace_and_visit, mbind, M_bind, get.
        rewrite addDriver_run, Hclass. simpl. intros b' _ _ H.
        simpl in H. congruence. }
      eapply triple_weaken;
        [by apply (visit_delivers s (newValueDriver k lsp containing fl) b
                     (λ r, match r with
                           | Some ref =>
                               [(ref, newValueDriver k lsp containing fl)]
                           | None => []
                           end))
        | done |].
      intros refs st H b' _ Hb' _. simpl in *. by simplify_eq.
    + intros x [[s lsp] isLValue].
      destruct isLValue; simpl; [|by apply triple_ret].
      destruct (getBounds lsp containing s) as [b|]; [|by apply triple_ret].
      by apply (kept_visit (P x) s (newValueDriver k lsp containing fl) b
                  (λ r, match r with
                        | Some ref =>
                            [(ref, newValueDriver k lsp containing fl)]
                        | None => []
                        end)).
    + intros y. apply hoare_trivial.
  - intros refs. simpl.
    eapply triple_weaken;
      [apply (noteAll_elementary
                (λ st, ∀ visit,
                   visit ∈ visitLSPs expr containing initialLSP →
                   P visit st))
      | intros st [_ H]; exact H |].
    + intros st s H visit Hin.
      destruct (HP visit) as (K & _). apply K. by apply H.
    + intros st s scope d b H _ _ _ visit Hin.
      destruct (HP visit) as (_ & K & _). apply K. by apply H.
    + intros st s d b H _ _ _ visit Hin.
      destruct (HP visit) as (_ & _ & K & _). apply K. by apply H.
    + intros st ref d port sel rest body H _ _ _ _ _ _ visit Hin.
      destruct (HP visit) as (_ & _ & _ & K & _). apply K. by apply H.
    + intros u st H t lsp b' Hin Hb Hclass.
      by apply (H (t, lsp, true) Hin b').
Qed.

(** A pass hands every recorded driver to the symbols that its connection
    expression leads to. *)
Lemma propagatePass_delivers fuel localCopy :
  hoare (λ _, True) (propagatePass fuel localCopy)
        (λ _ st, ∀ s ds d b conn t d' b',
           localCopy !! s = Some ds → (d, b) ∈ ds →
           getConnectionExpr s = Some conn →
           (t, d', b') ∈ submitted conn d →
           isClass t = false →
           received st t d' b').
Proof.
  set (P := λ (item : Symbol * list (ValueDriver * (Z * Z))) st,
         ∀ d b conn t d' b',
           (d, b) ∈ item.2 → getConnectionExpr item.1 = Some conn →
           (t, d', b') ∈ submitted conn d → isClass t = false →
           received st t d' b').
  assert (HP : ∀ item, kept (P item)).
  { intros item. do 6 (apply kept_forall; intros ?).
    do 4 apply kept_impl. apply kept_received. }
  assert (Hbody : ∀ Inv (item : Symbol * list (ValueDriver * (Z * Z))),
            kept Inv →
            hoare Inv
              match getConnectionExpr item.1 with
              | Some expr =>
                  forEach item.2
                    (λ entry, propagateModportDriver fuel expr entry.1)
              | None => mret tt
              end (λ _, Inv)).
  { intros Inv item HInv.
    destruct (getConnectionExpr item.1) as [conn|]; [|by apply triple_ret].
    apply triple_forEach. intros entry _. by apply kept_addDrivers. }
  unfold propagatePass.
  eapply triple_weaken;
    [apply (forEach_establishes P _ _) with (Q := λ _, True) | done |].
  - intros [s ds] _. simpl.
    destruct (getConnectionExpr s) as [conn|] eqn:Hconn;
      [|apply triple_ret; intros st _ d b conn t d' b' _ H; simpl in H;
        congruence].
    set (P' := λ (entry : ValueDriver * (Z * Z)) st,
           ∀ t d' b', (t, d', b') ∈ submitted conn entry.1 →
                      isClass t = false → received st t d' b').
    eapply triple_weaken;
      [apply (forEach_establishes P' _ _) with (Q := λ _, True) | done |].
    + intros [d b] _. simpl.
      eapply triple_weaken; [apply addDrivers_delivers | done |].
      intros u st H t d' b' Hin Hclass.
      apply elem_of_submitted in Hin as (lsp & Hin & Hb & ->).
      by apply H.
    + intros x y. apply kept_addDrivers.
      do 3 (apply kept_forall; intros ?). do 2 apply kept_impl.
      apply kept_received.
    + intros y. apply hoare_trivial.
    + intros u st [_ H] d b conn' t d' b' Hd Hconn' Hin Hclass.
      simpl in *. simplify_eq. by apply (H (d, b) Hd).
  - intros x y. by apply Hbody.
  - intros y. apply hoare_trivial.
  - intros u st [_ H] s ds d b conn t d' b' Hs Hd Hconn Hin Hclass.
    assert (Hitem : (s, ds) ∈ map_to_list localCopy)
      by (by apply elem_of_map_to_list).
    exact (H (s, ds) Hitem d b conn t d' b' Hd Hconn Hin Hclass).
Qed.

Lemma propagateModportDrivers_delivers fuel :
  ∀ st st',
    propagateModportDrivers fuel st = Done (tt, st') →
    ∀ s ds d b t d' b',
      modportPortDrivers st !! s = Some ds → (d, b) ∈ ds →
      resubmitted s d t d' b' →
      isClass t = false → symKind t ≠ SymbolKind.ModportPort →
      (d', b') ∈ getDrivers st' t.
Proof.
  induction fuel as [|fuel IH]; intros st st' Hrun; [done|].
  intros s ds d b t d' b' Hs Hd Hre Hclass Hmodport.
  simpl in Hrun. unfold mbind, M_bind, get, setModportPortDrivers in Hrun.
  case_bool_decide as Hempty.
  { rewrite Hempty, lookup_empty in Hs. done. }
  pose proof (propagatePass_delivers fuel (modportPortDrivers st)
                (withModportPortDrivers st ∅) I) as Hpass.
  destruct (propagatePass fuel (modportPortDrivers st)
              (withModportPortDrivers st ∅)) as [[[] st1]| |]; [|done..].
  inversion Hre as [s0 conn d0 t0 d0' b0' Hconn Hin|
                    s0 conn d0 t1 d1 b1 t0 d0' b0' Hconn Hin Hkind1 Hclass1
                      Hrest]; subst.
  - pose proof (Hpass s ds d b conn t d' b' Hs Hd Hconn Hin Hclass) as Hrec.
    unfold received in Hrec.
    rewrite (bool_decide_eq_false_2 _ Hmodport) in Hrec.
    assert (Hkeep : hoare (λ st, (b', d') ∈ entryOf st t)
                          (propagateModportDrivers fuel)
                          (λ _ st, (b', d') ∈ entryOf st t)).
    { destruct (kept_entry t d' b') as (H1 & H2 & H3 & H4 & H5).
      apply propagateModportDrivers_elementary; by eauto. }
    specialize (Hkeep st1 Hrec).
    rewrite Hrun in Hkeep. rewrite getDrivers_entryOf.
    apply list_elem_of_fmap. by exists (b', d').
  - pose proof (Hpass s ds d b conn t1 d1 b1 Hs Hd Hconn Hin Hclass1) as Hrec.
    unfold received in Hrec.
    rewrite (bool_decide_eq_true_2 _ Hkind1) in Hrec.
    destruct (modportPortDrivers st1 !! t1) as [ds1|] eqn:Hs1;
      [|by apply elem_of_nil in Hrec].
    by apply (IH st1 st' Hrun t1 ds1 d1 b1 t d' b').
Qed.

(** C4.  Whenever [propagateModportDrivers] returns, [modportPortDrivers]
    is empty, and every driver that was recorded there has been
    re-submitted through the connection expression of its modport port:
    each driver that the re-projection hands to a symbol that is neither
    class-typed nor a modport port is among the drivers of that symbol, and
    where it hands one to a modport port, that one has been re-submitted in
    turn, although it was recorded during the propagation itself.  Entries
    whose modport port has no connection expression are dropped without
    effect: when no recorded port has one, the call returns and has only
    emptied the side table. *)
Theorem propagateModportDrivers_drains fuel st :
  (∀ st', propagateModportDrivers fuel st = Done (tt, st') →
          modportPortDrivers st' = ∅
          ∧ ∀ s ds d b t d' b',
              modportPortDrivers st !! s = Some ds → (d, b) ∈ ds →
              resubmitted s d t d' b' →
              isClass t = false → symKind t ≠ SymbolKind.ModportPort →
              (d', b') ∈ getDrivers st' t)
  ∧ ((∀ s ds, modportPortDrivers st !! s = Some ds →
              getConnectionExpr s = None) →
     propagateModportDrivers (S (S fuel)) st
     = Done (tt, withModportPortDrivers st ∅)).
Proof.
  split.
  - intros st' Hrun. split.
    + by eapply propagateModportDrivers_empties.
    + by eapply propagateModportDrivers_delivers.
  - intros Hnone. simpl.
    unfold mbind, M_bind, get, setModportPortDrivers.
    case_bool_decide as Hempty; [done|].
    rewrite (propagatePass_unconnected _ _ _ Hnone). simpl.
    by rewrite bool_decide_eq_true_2.
Qed.

End Resubmitted.

(** The driver recorded against [z] is re-submitted twice: through the
    connection of [z] to the modport port [y], against which it is recorded
    during the propagation, and from there through [r.t] to [t]. *)
Lemma propagateModportDrivers_drains_witness :
  ∃ st',
    propagateModportDrivers (design := Cascade.design) 3 Cascade.recordedOnZ
    = Done (tt, st')
    ∧ modportPortDrivers st' = ∅
    ∧ (Cascade.twiceProjected, (0, 0)) ∈ getDrivers st' Cascade.t.
Proof.
  eexists. split; [vm_compute; reflexivity|].
  destruct (proj1 (propagateModportDrivers_drains (design := Cascade.design)
                     3 Cascade.recordedOnZ) _ eq_refl) as [Hempty Hall].
  split; [exact Hempty|].
  apply (Hall Cascade.z [(Cascade.driverOfZ, (0, 0))] Cascade.driverOfZ
              (0, 0) Cascade.t Cascade.twiceProjected (0, 0)).
  - reflexivity.
  - by apply list_elem_of_singleton.
  - apply (resubmitted_on (design := Cascade.design) Cascade.z
             Cascade.connectionOfZ Cascade.driverOfZ Cascade.y2
             Cascade.onceProjected (0, 0)).
    + reflexivity.
    + by apply list_elem_of_singleton.
    + reflexivity.
    + reflexivity.
    + apply (resubmitted_here (design := Cascade.design) Cascade.y2
               Cascade.connection).
      * reflexivity.
      * by apply list_elem_of_singleton.
  - reflexivity.
  - discriminate.
Defined.
